(** * Discord issue bridge: a shallow embedding and its properties

    The development follows the Python sources under
    [Tools/DiscordIssueBridge]: [template_engine.py], [state_store.py],
    [discord_client.py], [issue_syncer.py], [github_client.py],
    [bridge_config.py] and [discord_issue_bridge.py].

    Conventions of the embedding.
    - Python [str] values are Rocq strings.  The text operations
      ([strip], [lower], [replace], the regular expression classes) are
      exact on ASCII text; bytes above 127 are carried unchanged.
    - A [datetime] is the instant it denotes on the UTC time line, as an
      integer number of microseconds.  ISO-8601 text in a payload is
      represented by the instant it parses to.
    - Exceptions are values of [exn]; a computation that can raise returns
      a [result].  Code that touches the network, the clock, the ledger or
      the ledger file runs in the monad [M] over the record [World].  The
      GitHub client keeps to itself and passes its own state, [Net],
      explicitly.
    - The ledger file and its backup are fields of [World].  The
      operating system itself never fails: an [OSError] of [mkdir],
      [copy2], [open] or [json.dump], or of the system call behind
      [time.sleep], is outside the embedding, and what is stated of [save]
      is stated of a save that completes. *)

From Stdlib Require Import ZArith QArith Lia List String Ascii.
From Stdlib Require Import Sorted Permutation.
From stdpp Require Import base gmap strings list fin_maps pretty.
From Equations Require Import Equations.

Local Open Scope string_scope.
Local Open Scope list_scope.
Local Open Scope Z_scope.

(** ** Exceptions and results *)

Inductive exn : Type :=
| KeyError (key : string)
| HTTPError (code : Z)
| URLError
| RuntimeError (msg : string)
| ValueError (msg : string)
| OverflowError (msg : string)
| TypeError
| FuelExhausted.

Inductive result (A : Type) : Type :=
| Ok (a : A)
| Raise (e : exn).
Arguments Ok {A} a.
Arguments Raise {A} e.

Definition result_map {A B : Type} (f : A -> B) (r : result A) : result B :=
  match r with
  | Ok a => Ok (f a)
  | Raise e => Raise e
  end.

(** ** Python text operations (ASCII) *)

Module PyStr.

(** [str.isspace] on one character, which is also the class [\s] of the
    [re] module for [str] patterns: TAB..CR, FS..US and the space. *)
Definition is_space (c : ascii) : bool :=
  let n := N_of_ascii c in
  ((9 <=? n)%N && (n <=? 13)%N) || ((28 <=? n)%N && (n <=? 32)%N).

Definition is_upper (c : ascii) : bool :=
  let n := N_of_ascii c in (65 <=? n)%N && (n <=? 90)%N.

Definition is_lower (c : ascii) : bool :=
  let n := N_of_ascii c in (97 <=? n)%N && (n <=? 122)%N.

Definition is_digit (c : ascii) : bool :=
  let n := N_of_ascii c in (48 <=? n)%N && (n <=? 57)%N.

Definition lower_char (c : ascii) : ascii :=
  if is_upper c then ascii_of_N (N_of_ascii c + 32) else c.

Fixpoint lower (s : string) : string :=
  match s with
  | EmptyString => EmptyString
  | String c r => String (lower_char c) (lower r)
  end.

(** [s.replace(old, new)] for one-character [old] and [new]. *)
Fixpoint replace_char (old new : ascii) (s : string) : string :=
  match s with
  | EmptyString => EmptyString
  | String c r =>
      String (if Ascii.eqb c old then new else c) (replace_char old new r)
  end.

Fixpoint lstrip (s : string) : string :=
  match s with
  | EmptyString => EmptyString
  | String c r => if is_space c then lstrip r else s
  end.

Definition rstrip (s : string) : string :=
  String.rev (lstrip (String.rev s)).

Definition strip (s : string) : string := rstrip (lstrip s).

(** Truth value of a string: empty is false. *)
Definition truthy (s : string) : bool :=
  match s with EmptyString => false | _ => true end.

(** [a or b] on strings. *)
Definition or_else (a b : string) : string := if truthy a then a else b.

End PyStr.

(** ** template_engine.py *)

Module TemplateEngine.

(** The class [[a-zA-Z0-9_]]. *)
Definition is_ident_char (c : ascii) : bool :=
  PyStr.is_lower c || PyStr.is_upper c || PyStr.is_digit c
  || Ascii.eqb c "_"%char.

(** Greedy [\s*]: what is left after the longest run of white space. *)
Fixpoint skip_space (s : string) : string :=
  match s with
  | EmptyString => EmptyString
  | String c r => if PyStr.is_space c then skip_space r else s
  end.

(** Greedy [[a-zA-Z0-9_]*]: the longest run and what is left. *)
Fixpoint span_ident (s : string) : string * string :=
  match s with
  | EmptyString => (EmptyString, EmptyString)
  | String c r =>
      if is_ident_char c
      then let (k, rest) := span_ident r in (String c k, rest)
      else (EmptyString, s)
  end.

(** [_PLACEHOLDER.match] at the head of [s]: group 1 and the text after
    the match.  The three repeated classes and the closing brace are
    pairwise disjoint, so the greedy choice is the only way to match and
    no backtracking is involved. *)
Definition match_placeholder (s : string) : option (string * string) :=
  match s with
  | String "{" (String "{" r) =>
      let (key, r2) := span_ident (skip_space r) in
      if PyStr.truthy key then
        match skip_space r2 with
        | String "}" (String "}" rest) => Some (key, rest)
        | _ => None
        end
      else None
  | _ => None
  end.

Lemma skip_space_length s :
  (String.length (skip_space s) <= String.length s)%nat.
Proof.
  induction s as [|c r IH]; simpl; [lia|].
  destruct (PyStr.is_space c); simpl; lia.
Qed.

Lemma span_ident_length s k rest :
  span_ident s = (k, rest) ->
  (String.length rest <= String.length s)%nat.
Proof.
  revert k rest. induction s as [|c r IH]; simpl; intros k rest H.
  - inversion H; subst; simpl; lia.
  - destruct (is_ident_char c).
    + destruct (span_ident r) as [k' rest'] eqn:E.
      inversion H; subst. specialize (IH _ _ eq_refl). lia.
    + inversion H; subst; simpl; lia.
Qed.

Lemma match_placeholder_length s key rest :
  match_placeholder s = Some (key, rest) ->
  (String.length rest < String.length s)%nat.
Proof.
  unfold match_placeholder. intros H.
  destruct s as [|c1 s']; [discriminate|].
  destruct c1 as [[] [] [] [] [] [] [] []]; try discriminate H.
  destruct s' as [|c2 r]; [discriminate|].
  destruct c2 as [[] [] [] [] [] [] [] []]; try discriminate H.
  destruct (span_ident (skip_space r)) as [k r2] eqn:E.
  apply span_ident_length in E.
  destruct (PyStr.truthy k); [|discriminate].
  pose proof (skip_space_length r) as H1.
  pose proof (skip_space_length r2) as H2.
  destruct (skip_space r2) as [|d1 s2]; [discriminate|].
  destruct d1 as [[] [] [] [] [] [] [] []]; try discriminate H.
  destruct s2 as [|d2 r4]; [discriminate|].
  destruct d2 as [[] [] [] [] [] [] [] []]; try discriminate H.
  inversion H; subst. simpl in *. lia.
Qed.

(** Remember the equation of a scrutinee, for the recursion below. *)
Definition inspect {A : Type} (a : A) : {b : A | a = b} :=
  exist _ a eq_refl.

(** [_PLACEHOLDER.sub(_replace, template)]: scan from the left; at a
    match call [_replace], which raises [KeyError] for a key missing from
    the context, and go on after the match (the replacement text is not
    scanned again); otherwise copy one character. *)
Equations? sub_placeholders (context : gmap string string) (s : string)
  : result string by wf (String.length s) lt :=
  sub_placeholders context EmptyString := Ok EmptyString;
  sub_placeholders context (String c r)
    with inspect (match_placeholder (String c r)) := {
    | exist _ (Some (key, rest)) Hm with context !! key := {
        | None => Raise (KeyError key)
        | Some v =>
            result_map (String.append v) (sub_placeholders context rest) }
    | exist _ None _ =>
        result_map (String c) (sub_placeholders context r) }.
Proof.
  exact (match_placeholder_length (String c r) key rest Hm).
Qed.

Definition render (template : string) (context : gmap string string)
  : result string :=
  sub_placeholders context template.

End TemplateEngine.

(** ** Data model of discord_client.py *)

Definition datetime : Type := Z.

Record DiscordAttachment : Type := {
  att_id : string;
  att_url : string;
  att_filename : string }.

Record DiscordMessage : Type := {
  msg_id : string;
  msg_author_id : string;
  msg_author_name : string;
  msg_content : string;
  msg_timestamp : datetime;
  msg_attachments : list DiscordAttachment }.

Record DiscordThread : Type := {
  th_id : string;
  th_guild_id : option string;
  th_channel_id : string;
  th_name : string;
  th_owner_id : string;
  th_created_at : datetime;
  th_applied_tag_ids : list string;
  th_first_message : DiscordMessage }.

(** JSON payloads, typed.  A field read with [.get] is an [option]: [None]
    stands for an absent key (for the time stamps also for [null] and the
    empty string, which [_parse_timestamp] treats alike). *)

Record AttachmentPayload : Type := {
  ap_id : option string;
  ap_url : option string;
  ap_filename : option string }.

Record AuthorPayload : Type := {
  au_id : option string;
  au_global_name : option string;
  au_username : option string }.

Record MessagePayload : Type := {
  mp_id : option string;
  mp_author : AuthorPayload;
  mp_content : option string;
  mp_timestamp : option datetime;
  mp_attachments : list AttachmentPayload }.

Record ThreadMetadata : Type := {
  create_timestamp : option datetime;
  archive_timestamp : option datetime }.

Record ThreadPayload : Type := {
  tp_id : option string;
  tp_guild_id : option string;
  tp_name : option string;
  tp_owner_id : option string;
  tp_thread_metadata : option ThreadMetadata;
  tp_timestamp : option datetime;
  tp_created_at : option datetime;
  tp_applied_tags : list string;
  tp_messages : list MessagePayload }.

Record TagPayload : Type := {
  tag_id : option string;
  tag_name : option string }.

Record ChannelPayload : Type := {
  ch_id : option string;
  ch_available_tags : list TagPayload }.

Record ThreadListPayload : Type := {
  tl_threads : list ThreadPayload;
  tl_has_more : bool }.

Record OfflinePayload : Type := {
  off_channel : ChannelPayload;
  off_threads : list ThreadPayload }.

(** ** The outside world *)

(** What one [request.urlopen] call can end in.  A body is typed by the
    endpoint it answers; a body of another shape is reported as
    [TypeError]. *)
Inductive Body : Type :=
| ChannelBody (c : ChannelPayload)
| ThreadListBody (p : ThreadListPayload)
| MessagesBody (ms : list MessagePayload).

(** The [Retry-After] header of an error response, as [float] reads it:
    no header, a finite number, not-a-number, an infinity of either sign,
    or a text that [float] refuses. *)
Inductive RetryAfter : Type :=
| NoRetryAfter
| RetryAfterSeconds (q : Q)
| RetryAfterNaN
| RetryAfterInfinite
| RetryAfterGarbage.

Inductive Outcome : Type :=
| Responded (b : Body)
| HttpFailure (code : Z) (ra : RetryAfter)
| NetFailure.

Record IssueRequest : Type := {
  ir_title : string;
  ir_body : string;
  ir_labels : list string;
  ir_assignees : list string }.

(** The ledger file, as [json.load] returns it. *)
Inductive ProcessedField : Type :=
| ProcessedAbsent
| ProcessedMap (m : list (string * string))
| ProcessedList (ids : list string).

Record LedgerDoc : Type := {
  doc_processed : ProcessedField;
  doc_last_synced_at : option string }.

(** The parts of a run that the program does not decide.  The server and
    the issue tracker answer a call as a function of all calls made so
    far, the last one being the call answered; [clock n] is what the
    [n]-th reading of [datetime.now] returns. *)
Record Env : Type := {
  server : list string -> Outcome;
  clock : nat -> datetime;
  isoformat : datetime -> string;
  github : list IssueRequest -> option exn }.

(** Everything a run can change: the requests sent and the naps taken, the
    number of clock readings, the client's tag cache, the issues
    submitted, the in-memory ledger of the [StateStore] and the two files
    it writes. *)
Record World : Type := {
  requests : list string;
  slept : list Q;
  ticks : nat;
  available_tags : gmap string string;
  issues : list IssueRequest;
  processed : list (string * string);
  last_synced_at : option string;
  ledger_file : option LedgerDoc;
  backup_file : option LedgerDoc }.

Definition set_requests (v : list string) (w : World) : World :=
  {| requests := v; slept := slept w; ticks := ticks w;
     available_tags := available_tags w; issues := issues w;
     processed := processed w; last_synced_at := last_synced_at w;
     ledger_file := ledger_file w; backup_file := backup_file w |}.

Definition set_slept (v : list Q) (w : World) : World :=
  {| requests := requests w; slept := v; ticks := ticks w;
     available_tags := available_tags w; issues := issues w;
     processed := processed w; last_synced_at := last_synced_at w;
     ledger_file := ledger_file w; backup_file := backup_file w |}.

Definition set_ticks (v : nat) (w : World) : World :=
  {| requests := requests w; slept := slept w; ticks := v;
     available_tags := available_tags w; issues := issues w;
     processed := processed w; last_synced_at := last_synced_at w;
     ledger_file := ledger_file w; backup_file := backup_file w |}.

Definition set_available_tags (v : gmap string string) (w : World) : World :=
  {| requests := requests w; slept := slept w; ticks := ticks w;
     available_tags := v; issues := issues w;
     processed := processed w; last_synced_at := last_synced_at w;
     ledger_file := ledger_file w; backup_file := backup_file w |}.

Definition set_issues (v : list IssueRequest) (w : World) : World :=
  {| requests := requests w; slept := slept w; ticks := ticks w;
     available_tags := available_tags w; issues := v;
     processed := processed w; last_synced_at := last_synced_at w;
     ledger_file := ledger_file w; backup_file := backup_file w |}.

Definition set_processed (v : list (string * string)) (w : World) : World :=
  {| requests := requests w; slept := slept w; ticks := ticks w;
     available_tags := available_tags w; issues := issues w;
     processed := v; last_synced_at := last_synced_at w;
     ledger_file := ledger_file w; backup_file := backup_file w |}.

Definition set_last_synced_at (v : option string) (w : World) : World :=
  {| requests := requests w; slept := slept w; ticks := ticks w;
     available_tags := available_tags w; issues := issues w;
     processed := processed w; last_synced_at := v;
     ledger_file := ledger_file w; backup_file := backup_file w |}.

Definition set_ledger_file (v : option LedgerDoc) (w : World) : World :=
  {| requests := requests w; slept := slept w; ticks := ticks w;
     available_tags := available_tags w; issues := issues w;
     processed := processed w; last_synced_at := last_synced_at w;
     ledger_file := v; backup_file := backup_file w |}.

Definition set_backup_file (v : option LedgerDoc) (w : World) : World :=
  {| requests := requests w; slept := slept w; ticks := ticks w;
     available_tags := available_tags w; issues := issues w;
     processed := processed w; last_synced_at := last_synced_at w;
     ledger_file := ledger_file w; backup_file := v |}.

(** ** The monad of effectful code *)

Definition M (A : Type) : Type := Env -> World -> result A * World.

Definition ret {A : Type} (a : A) : M A := fun _ w => (Ok a, w).

Definition raise {A : Type} (e : exn) : M A := fun _ w => (Raise e, w).

Definition bind {A B : Type} (m : M A) (k : A -> M B) : M B :=
  fun env w =>
    match m env w with
    | (Ok a, w1) => k a env w1
    | (Raise e, w1) => (Raise e, w1)
    end.

Notation "x <~ m ;; k" := (bind m (fun x => k))
  (at level 100, m at next level, right associativity).
Notation "m ;;; k" := (bind m (fun _ => k))
  (at level 100, right associativity).

Definition get_world : M World := fun _ w => (Ok w, w).

Definition modify (f : World -> World) : M unit := fun _ w => (Ok tt, f w).

Definition lift_result {A : Type} (r : result A) : M A :=
  fun _ w => (r, w).

(** [datetime.now(timezone.utc)]. *)
Definition now : M datetime :=
  fun env w => (Ok (clock env (ticks w)), set_ticks (S (ticks w)) w).

(** The process is suspended for [delay] seconds. *)
Definition suspend (delay : Q) : M unit :=
  modify (fun w => set_slept (slept w ++ [delay]) w).

(** The count of nanoseconds that [time.sleep] makes of its seconds,
    rounded away from zero. *)
Definition nanoseconds (secs : Q) : Z :=
  let n := Qnum secs * 10 ^ 9 in
  let d := Z.pos (Qden secs) in
  if 0 <=? n then - ((- n) / d) else n / d.

(** [time.sleep(secs)] for a finite number of seconds, with the checks
    CPython makes of its argument.  The seconds are turned into a signed
    64-bit count of nanoseconds: a count that does not fit is refused with
    [OverflowError], then a negative one with [ValueError]; otherwise the
    process is suspended. *)
Definition sleep (secs : Q) : M unit :=
  let ns := nanoseconds secs in
  if (ns <? - 2 ^ 63) || (2 ^ 63 <=? ns)
  then raise (OverflowError "timestamp too large to convert to C _PyTime_t")
  else if ns <? 0
  then raise (ValueError "sleep length must be non-negative")
  else suspend secs.
Arguments sleep : simpl never.

(** [request.urlopen(req)] for the request of a path. *)
Definition urlopen (path : string) : M Outcome :=
  fun env w =>
    let history := requests w ++ [path] in
    (Ok (server env history), set_requests history w).

(** A comprehension or loop whose body has effects, in list order. *)
Fixpoint mapM {A B : Type} (f : A -> M B) (l : list A) : M (list B) :=
  match l with
  | [] => ret []
  | a :: l' => b <~ f a ;; bs <~ mapM f l' ;; ret (b :: bs)
  end.

Definition ask : M Env := fun env w => (Ok env, w).

(** [str(x)] of a value read with [.get]: an absent key gives [None]. *)
Definition py_str (o : option string) : string := default "None" o.

(** ** state_store.py *)

Module StateStore.

(** The object's constant fields; [processed] and [last_synced_at] are in
    the [World]. *)
Record t : Type := {
  path : string;
  backup_enabled : bool }.

(** [d[k] = v] on a [dict], which keeps insertion order: an existing key
    keeps its place. *)
Fixpoint dict_set (k v : string) (d : list (string * string))
  : list (string * string) :=
  match d with
  | [] => [(k, v)]
  | (k', v') :: d' =>
      if String.eqb k' k then (k', v) :: d' else (k', v') :: dict_set k v d'
  end.

(** [k in d]. *)
Definition dict_contains (k : string) (d : list (string * string)) : bool :=
  existsb (fun kv => String.eqb (fst kv) k) d.

(** A [dict] built entry by entry, as a comprehension does. *)
Definition dict_of_pairs (l : list (string * string)) : list (string * string) :=
  fold_left (fun d kv => dict_set (fst kv) (snd kv) d) l [].

Definition load (self : t) : M unit :=
  w <~ get_world ;;
  match ledger_file w with
  | None =>
      modify (fun w => set_last_synced_at None (set_processed [] w))
  | Some data =>
      let legacy_stamp :=
        match doc_last_synced_at data with
        | Some s => PyStr.or_else s ""
        | None => ""
        end in
      let processed :=
        match doc_processed data with
        | ProcessedAbsent => []
        | ProcessedMap m => m
        | ProcessedList ids => map (fun tid => (tid, legacy_stamp)) ids
        end in
      modify (fun w => set_last_synced_at (doc_last_synced_at data)
                         (set_processed (dict_of_pairs processed) w))
  end.

Definition has_processed (self : t) (thread_id : string) : M bool :=
  w <~ get_world ;; ret (dict_contains thread_id (processed w)).

Definition mark_processed (self : t) (thread_id : string)
  (processed_at : datetime) : M unit :=
  env <~ ask ;;
  modify (fun w => set_processed
                     (dict_set thread_id (isoformat env processed_at) (processed w)) w) ;;;
  t <~ now ;;
  modify (set_last_synced_at (Some (isoformat env t))).

(** [save], when the file system lets it complete: the backup is a copy
    of the file as it was, and the file holds the ledger in memory. *)
Definition save (self : t) : M unit :=
  modify (fun w =>
    let w1 :=
      match backup_enabled self, ledger_file w with
      | true, Some old => set_backup_file (Some old) w
      | _, _ => w
      end in
    set_ledger_file
      (Some {| doc_processed := ProcessedMap (processed w1);
               doc_last_synced_at := last_synced_at w1 |}) w1).

End StateStore.

(** ** discord_client.py *)

Module DiscordClient.

Record t : Type := {
  token : string;
  channel_id : string;
  timeout : Z;
  max_retries : Z;
  offline_payload : option OfflinePayload }.

(** The comprehension [{str(tag["id"]): tag.get("name", "") for tag in tags}]. *)
Fixpoint tags_dict (tags : list TagPayload) (acc : gmap string string)
  : result (gmap string string) :=
  match tags with
  | [] => Ok acc
  | tag :: rest =>
      match tag_id tag with
      | None => Raise (KeyError "id")
      | Some i => tags_dict rest (<[ i := default "" (tag_name tag) ]> acc)
      end
  end.

(** [__init__]; [offline_sample] is the content of the fixture file. *)
Definition init (token channel_id : string)
  (offline_sample : option OfflinePayload) (timeout max_retries : Z) : M t :=
  if negb (PyStr.truthy token) && negb (bool_decide (is_Some offline_sample))
  then raise (ValueError "DISCORD_BOT_TOKEN が設定されていません")
  else
    modify (set_available_tags ∅) ;;;
    match offline_sample with
    | Some payload =>
        tags <~ lift_result (tags_dict (ch_available_tags (off_channel payload)) ∅) ;;
        modify (set_available_tags tags)
    | None => ret tt
    end ;;;
    ret {| token := token; channel_id := channel_id; timeout := timeout;
           max_retries := max_retries; offline_payload := offline_sample |}.

Definition _sleep_with_backoff (attempt : Z) : M unit :=
  let delay := Z.min (2 ^ attempt) 30 in
  sleep (inject_Z delay).

(** The body of [_execute]'s [for attempt in range(1, max_retries + 1)],
    over the attempts still to come.  [continue] and falling off the end
    of the body both go on with the next attempt; the [raise] after the
    loop is the empty case.  On an answer 429, [float] raises for a text
    it cannot read, and [time.sleep] raises for not-a-number, for an
    infinity and for a number it refuses: none of these is caught, so the
    loop ends there. *)
Fixpoint execute_attempts (max_retries : Z) (path : string)
  (attempts : list Z) : M Body :=
  match attempts with
  | [] => raise (RuntimeError "Discord API の呼び出しに失敗しました")
  | attempt :: later =>
      outcome <~ urlopen path ;;
      match outcome with
      | Responded body => ret body
      | HttpFailure code ra =>
          if code =? 429 then
            match ra with
            | RetryAfterGarbage => raise (ValueError "could not convert string to float")
            | RetryAfterNaN => raise (ValueError "Invalid value NaN (not a number)")
            | RetryAfterInfinite =>
                raise (OverflowError "timestamp too large to convert to C _PyTime_t")
            | NoRetryAfter =>
                sleep 1%Q ;;; execute_attempts max_retries path later
            | RetryAfterSeconds q =>
                sleep q ;;; execute_attempts max_retries path later
            end
          else if (500 <=? code) && (code <? 600) && (attempt <? max_retries) then
            _sleep_with_backoff attempt ;;; execute_attempts max_retries path later
          else raise (HTTPError code)
      | NetFailure =>
          if max_retries <=? attempt then raise URLError
          else _sleep_with_backoff attempt ;;; execute_attempts max_retries path later
      end
  end.

(** [range(lo, hi)]. *)
Definition range (lo hi : Z) : list Z :=
  map (fun i => lo + Z.of_nat i) (seq 0 (Z.to_nat (hi - lo))).

Definition _execute (self : t) (path : string) : M Body :=
  execute_attempts (max_retries self) path (range 1 (max_retries self + 1)).

Definition _get (self : t) (path : string) : M Body :=
  match path with
  | String "/" _ => _execute self path
  | _ => raise (ValueError "path は / から始めてください")
  end.

(** [datetime.fromisoformat] is the identity of the embedding; a missing
    value reads the clock. *)
Definition _parse_timestamp (value : option datetime) : M datetime :=
  match value with
  | Some ts => ret ts
  | None => now
  end.

Definition _extract_created_at (thread_payload : ThreadPayload) : M datetime :=
  let ts :=
    match tp_thread_metadata thread_payload with
    | Some metadata =>
        match create_timestamp metadata with
        | Some c => Some c
        | None => archive_timestamp metadata
        end
    | None => None
    end in
  match ts with
  | Some _ => _parse_timestamp ts
  | None => _parse_timestamp (tp_timestamp thread_payload)
  end.

Definition attachment_from_payload (attachment : AttachmentPayload)
  : DiscordAttachment :=
  {| att_id := py_str (ap_id attachment);
     att_url := default "" (ap_url attachment);
     att_filename := default "attachment" (ap_filename attachment) |}.

Definition _message_from_payload (payload : MessagePayload) : M DiscordMessage :=
  let attachments := map attachment_from_payload (mp_attachments payload) in
  timestamp <~ _parse_timestamp (mp_timestamp payload) ;;
  let author := mp_author payload in
  ret {| msg_id := py_str (mp_id payload);
         msg_author_id := default "" (au_id author);
         msg_author_name :=
           PyStr.or_else (default "" (au_global_name author))
                         (default "unknown" (au_username author));
         msg_content := PyStr.strip (default "" (mp_content payload));
         msg_timestamp := timestamp;
         msg_attachments := attachments |}.

Definition expect_channel (b : Body) : M ChannelPayload :=
  match b with ChannelBody c => ret c | _ => raise TypeError end.

Definition expect_thread_list (b : Body) : M ThreadListPayload :=
  match b with ThreadListBody p => ret p | _ => raise TypeError end.

Definition expect_messages (b : Body) : M (list MessagePayload) :=
  match b with MessagesBody ms => ret ms | _ => raise TypeError end.

Definition fetch_thread_messages (self : t) (thread_id : string)
  : M (list DiscordMessage) :=
  match offline_payload self with
  | Some payload =>
      match find (fun thread => String.eqb (py_str (tp_id thread)) thread_id)
                 (off_threads payload) with
      | Some thread => mapM _message_from_payload (tp_messages thread)
      | None => ret []
      end
  | None =>
      b <~ _get self ("/channels/" +:+ thread_id +:+ "/messages?limit=50") ;;
      messages_payload <~ expect_messages b ;;
      mapM _message_from_payload messages_payload
  end.

Definition resolve_tag_name (tags : gmap string string) (tag_id : string)
  : string :=
  default tag_id (tags !! tag_id).

Definition _fetch_channel_metadata (self : t) : M unit :=
  w <~ get_world ;;
  if negb (bool_decide (available_tags w = ∅)) then ret tt
  else
    b <~ _get self ("/channels/" +:+ channel_id self) ;;
    payload <~ expect_channel b ;;
    tags <~ lift_result (tags_dict (ch_available_tags payload) ∅) ;;
    modify (set_available_tags tags).

(** [since and created_at <= since]: a [datetime] is always true. *)
Definition since_excludes (since : option datetime) (created_at : datetime)
  : bool :=
  match since with
  | Some s => created_at <=? s
  | None => false
  end.

(** [limit and n >= limit]: [None] and [0] are false. *)
Definition limit_reached (limit : option Z) (n : nat) : bool :=
  match limit with
  | Some l => negb (l =? 0) && (l <=? Z.of_nat n)
  | None => false
  end.

(** [min(messages, key=lambda msg: msg.timestamp)] of a list with head
    [best]: the first of the earliest messages. *)
Fixpoint min_message (best : DiscordMessage) (rest : list DiscordMessage)
  : DiscordMessage :=
  match rest with
  | [] => best
  | m :: rest' =>
      if msg_timestamp m <? msg_timestamp best
      then min_message m rest'
      else min_message best rest'
  end.

(** [threads.sort(key=lambda t: t.created_at)].  The sort is stable, and a
    stable sort has one result; it is computed here by insertion. *)
Fixpoint insert_thread (t : DiscordThread) (sorted : list DiscordThread)
  : list DiscordThread :=
  match sorted with
  | [] => [t]
  | u :: rest =>
      if th_created_at t <=? th_created_at u
      then t :: u :: rest
      else u :: insert_thread t rest
  end.

Fixpoint sort_threads (threads : list DiscordThread) : list DiscordThread :=
  match threads with
  | [] => []
  | t :: rest => insert_thread t (sort_threads rest)
  end.

(** [str(x.get("guild_id")) if x.get("guild_id") else None]. *)
Definition guild_of (thread_payload : ThreadPayload) : option string :=
  match tp_guild_id thread_payload with
  | Some g => if PyStr.truthy g then Some g else None
  | None => None
  end.

(** The loop of [_threads_from_offline] over the threads of the fixture
    still to visit; [threads] is the list built so far. *)
Fixpoint offline_loop (payload : OfflinePayload) (since : option datetime)
  (limit : option Z) (todo : list ThreadPayload) (threads : list DiscordThread)
  : M (list DiscordThread) :=
  match todo with
  | [] => ret threads
  | thread_payload :: later =>
      created_at <~ _parse_timestamp (tp_created_at thread_payload) ;;
      if since_excludes since created_at
      then offline_loop payload since limit later threads
      else
        messages <~ mapM _message_from_payload (tp_messages thread_payload) ;;
        match messages with
        | [] => offline_loop payload since limit later threads
        | m :: ms =>
            let first_message := min_message m ms in
            let threads :=
              threads ++
              [ {| th_id := py_str (tp_id thread_payload);
                   th_guild_id := guild_of thread_payload;
                   th_channel_id := default "" (ch_id (off_channel payload));
                   th_name := default "(no title)" (tp_name thread_payload);
                   th_owner_id := default "" (tp_owner_id thread_payload);
                   th_created_at := created_at;
                   th_applied_tag_ids := tp_applied_tags thread_payload;
                   th_first_message := first_message |} ] in
            if limit_reached limit (length threads) then ret threads
            else offline_loop payload since limit later threads
        end
  end.

Definition _threads_from_offline (payload : OfflinePayload)
  (since : option datetime) (limit : option Z) : M (list DiscordThread) :=
  threads <~ offline_loop payload since limit (off_threads payload) [] ;;
  ret (sort_threads threads).

(** [x["id"]]. *)
Definition require_id (thread_payload : ThreadPayload) : M string :=
  match tp_id thread_payload with
  | Some i => ret i
  | None => raise (KeyError "id")
  end.

(** The second loop of [fetch_threads], over the collected payloads. *)
Fixpoint live_loop (self : t) (since : option datetime) (limit : option Z)
  (todo : list ThreadPayload) (threads : list DiscordThread)
  : M (list DiscordThread) :=
  match todo with
  | [] => ret threads
  | thread_payload :: later =>
      created_at <~ _extract_created_at thread_payload ;;
      if since_excludes since created_at
      then live_loop self since limit later threads
      else
        thread_id <~ require_id thread_payload ;;
        messages <~ fetch_thread_messages self thread_id ;;
        match messages with
        | [] => live_loop self since limit later threads
        | m :: ms =>
            let first_message := min_message m ms in
            let created_at :=
              if created_at <? msg_timestamp first_message
              then msg_timestamp first_message
              else created_at in
            let threads :=
              threads ++
              [ {| th_id := thread_id;
                   th_guild_id := guild_of thread_payload;
                   th_channel_id := channel_id self;
                   th_name := default "(no title)" (tp_name thread_payload);
                   th_owner_id := default "" (tp_owner_id thread_payload);
                   th_created_at := created_at;
                   th_applied_tag_ids := tp_applied_tags thread_payload;
                   th_first_message := first_message |} ] in
            if limit_reached limit (length threads) then ret threads
            else live_loop self since limit later threads
        end
  end.

Definition hex_digit (n : N) : ascii :=
  if (n <? 10)%N then ascii_of_N (48 + n) else ascii_of_N (55 + n).

(** [parse.quote_plus] on one byte. *)
Definition quote_plus_char (c : ascii) : string :=
  if PyStr.is_lower c || PyStr.is_upper c || PyStr.is_digit c
     || Ascii.eqb c "_" || Ascii.eqb c "." || Ascii.eqb c "-" || Ascii.eqb c "~"
  then String c ""
  else if Ascii.eqb c " " then "+"
  else String "%" (String (hex_digit (N_of_ascii c / 16))
                    (String (hex_digit (N_of_ascii c mod 16)) "")).

Fixpoint quote_plus (s : string) : string :=
  match s with
  | EmptyString => EmptyString
  | String c r => quote_plus_char c +:+ quote_plus r
  end.

(** [parse.urlencode({"before": before})]. *)
Definition urlencode_before (before : string) : string :=
  "before=" +:+ quote_plus before.

(** [payload.get("threads", [])[-1]["id"] if payload.get("threads") else None]. *)
Definition last_thread_id (payload : ThreadListPayload) : M (option string) :=
  match last (tl_threads payload) with
  | Some thread_payload => i <~ require_id thread_payload ;; ret (Some i)
  | None => ret None
  end.

(** [s.endswith(suffix)]. *)
Definition endswith (s suffix : string) : bool :=
  String.prefix (String.rev suffix) (String.rev s).

(** The [while payload.get("has_more") and before] loop.  The server may
    announce more pages for ever; [fuel] bounds the number of rounds, and
    running out of it is reported as [FuelExhausted]. *)
Fixpoint archived_pages (fuel : nat) (self : t) (endpoint : string)
  (limit : option Z) (payload : ThreadListPayload) (before : option string)
  (collected : list ThreadPayload) : M (list ThreadPayload) :=
  match tl_has_more payload, before with
  | true, Some cursor =>
      if PyStr.truthy cursor then
        match fuel with
        | O => raise FuelExhausted
        | S fuel' =>
            let query := urlencode_before cursor in
            b <~ _get self ("/channels/" +:+ channel_id self +:+ "/" +:+ endpoint
                            +:+ "?" +:+ query) ;;
            payload <~ expect_thread_list b ;;
            let collected := collected ++ tl_threads payload in
            if limit_reached limit (length collected) then ret collected
            else
              before <~ last_thread_id payload ;;
              archived_pages fuel' self endpoint limit payload before collected
        end
      else ret collected
  | _, _ => ret collected
  end.

(** The first loop of [fetch_threads], over the end points still to ask. *)
Fixpoint collect_endpoints (fuel : nat) (self : t) (limit : option Z)
  (endpoints : list string) (collected : list ThreadPayload)
  : M (list ThreadPayload) :=
  match endpoints with
  | [] => ret collected
  | endpoint :: later =>
      b <~ _get self ("/channels/" +:+ channel_id self +:+ "/" +:+ endpoint) ;;
      payload <~ expect_thread_list b ;;
      let collected := collected ++ tl_threads payload in
      if limit_reached limit (length collected) then ret collected
      else if endswith endpoint "archived/public" && tl_has_more payload then
        before <~ last_thread_id payload ;;
        collected <~ archived_pages fuel self endpoint limit payload before collected ;;
        if limit_reached limit (length collected) then ret collected
        else collect_endpoints fuel self limit later collected
      else collect_endpoints fuel self limit later collected
  end.

Definition fetch_threads (fuel : nat) (self : t) (since : option datetime)
  (limit : option Z) : M (list DiscordThread) :=
  match offline_payload self with
  | Some payload => _threads_from_offline payload since limit
  | None =>
      _fetch_channel_metadata self ;;;
      collected <~ collect_endpoints fuel self limit
                     ["threads/active"; "threads/archived/public"] [] ;;
      threads <~ live_loop self since limit collected [] ;;
      ret (sort_threads threads)
  end.

(** The property [DiscordThread.jump_url]. *)
Definition jump_url (thread : DiscordThread) : string :=
  match th_guild_id thread with
  | Some g =>
      if PyStr.truthy g
      then "https://discord.com/channels/" +:+ g +:+ "/" +:+ th_id thread
           +:+ "/" +:+ msg_id (th_first_message thread)
      else "https://discord.com/channels/@me/" +:+ th_id thread
           +:+ "/" +:+ msg_id (th_first_message thread)
  | None =>
      "https://discord.com/channels/@me/" +:+ th_id thread
      +:+ "/" +:+ msg_id (th_first_message thread)
  end.

End DiscordClient.

(** ** bridge_config.py and issue_syncer.py *)

Record BridgeConfig : Type := {
  discord_channel_id : string;
  github_repo : string;
  issue_title_prefix : string;
  issue_body_template : string;
  default_labels : list string;
  tag_label_map : gmap string (list string);
  fallback_label_prefix : string;
  assignees : list string;
  state_file : string;
  state_backup_enabled : bool;
  max_threads_per_run : Z }.

Module IssueSyncer.

Record t : Type := {
  _config : BridgeConfig;
  _discord : DiscordClient.t;
  _state : StateStore.t }.

Definition _sanitize_label (value : string) : string :=
  let normalized :=
    PyStr.replace_char " " "-" (PyStr.lower (PyStr.strip value)) in
  PyStr.or_else normalized "untitled".

(** The loop [for label in ...: if label not in seen: append; add] on the
    pair of [labels] and [seen]. *)
Fixpoint add_labels (new : list string) (acc : list string * gset string)
  : list string * gset string :=
  match new with
  | [] => acc
  | label :: rest =>
      if bool_decide (label ∈ acc.2)
      then add_labels rest acc
      else add_labels rest (acc.1 ++ [label], {[ label ]} ∪ acc.2)
  end.

(** The loop over [thread.applied_tag_ids]; [tags] is the client's tag
    cache, which [resolve_tag_name] reads. *)
Fixpoint add_tag_labels (config : BridgeConfig) (tags : gmap string string)
  (tag_ids : list string) (acc : list string * gset string)
  : list string * gset string :=
  match tag_ids with
  | [] => acc
  | tag_id :: rest =>
      match tag_label_map config !! tag_id with
      | Some (l :: ls) =>
          add_tag_labels config tags rest (add_labels (l :: ls) acc)
      | _ =>
          let fallback_name :=
            _sanitize_label (DiscordClient.resolve_tag_name tags tag_id) in
          let label_value :=
            PyStr.strip (fallback_label_prefix config +:+ fallback_name) in
          if PyStr.truthy label_value && negb (bool_decide (label_value ∈ acc.2))
          then add_tag_labels config tags rest
                 (acc.1 ++ [label_value], {[ label_value ]} ∪ acc.2)
          else add_tag_labels config tags rest acc
      end
  end.

Definition _build_labels (config : BridgeConfig) (tags : gmap string string)
  (thread : DiscordThread) : list string :=
  (add_tag_labels config tags (th_applied_tag_ids thread)
     (add_labels (default_labels config) ([], ∅))).1.

Definition newline : string := String (ascii_of_nat 10) EmptyString.

(** [sep.join(lines)]. *)
Fixpoint join (sep : string) (lines : list string) : string :=
  match lines with
  | [] => ""
  | [line] => line
  | line :: rest => line +:+ sep +:+ join sep rest
  end.

Definition _format_attachments (thread : DiscordThread) : string :=
  match msg_attachments (th_first_message thread) with
  | [] => "- なし"
  | attachments =>
      join newline
        (map (fun attachment =>
                let filename := PyStr.or_else (att_filename attachment) "attachment" in
                "- [" +:+ filename +:+ "](" +:+ att_url attachment +:+ ")")
             attachments)
  end.

Definition body_context (isoformat : datetime -> string) (thread : DiscordThread)
  : gmap string string :=
  let attachments_block := _format_attachments thread in
  <[ "thread_id" := th_id thread ]>
  (<[ "created_at" := isoformat (th_created_at thread) ]>
  (<[ "attachments" := attachments_block ]>
  (<[ "content" := PyStr.or_else (msg_content (th_first_message thread)) "(本文なし)" ]>
  (<[ "message_url" := DiscordClient.jump_url thread ]>
  (<[ "author" := msg_author_name (th_first_message thread) ]>
  (<[ "title" := th_name thread ]> ∅)))))).

Definition _build_body (config : BridgeConfig) (isoformat : datetime -> string)
  (thread : DiscordThread) : result string :=
  TemplateEngine.render (issue_body_template config) (body_context isoformat thread).

(** [f"{prefix}{thread.name}".strip()]. *)
Definition issue_title_of (config : BridgeConfig) (thread : DiscordThread)
  : string :=
  PyStr.strip (issue_title_prefix config +:+ th_name thread).

(** [self._github.create_issue(title, body, labels=..., assignees=...)]:
    the call is recorded and the tracker says whether it raises. *)
Definition create_issue (title body : string) (labels assignees : list string)
  : M unit :=
  fun env w =>
    let calls :=
      issues w ++ [ {| ir_title := title; ir_body := body;
                       ir_labels := labels; ir_assignees := assignees |} ] in
    match github env calls with
    | None => (Ok tt, set_issues calls w)
    | Some e => (Raise e, set_issues calls w)
    end.

(** The loop [for thread in threads] of [run]; the result is
    [processed_count]. *)
Fixpoint run_loop (self : t) (threads : list DiscordThread)
  (processed_count : nat) : M nat :=
  match threads with
  | [] => ret processed_count
  | thread :: later =>
      seen <~ StateStore.has_processed (_state self) (th_id thread) ;;
      if seen then run_loop self later processed_count
      else
        env <~ ask ;;
        w <~ get_world ;;
        let issue_title := issue_title_of (_config self) thread in
        let labels := _build_labels (_config self) (available_tags w) thread in
        body <~ lift_result (_build_body (_config self) (isoformat env) thread) ;;
        create_issue issue_title body labels (assignees (_config self)) ;;;
        StateStore.mark_processed (_state self) (th_id thread) (th_created_at thread) ;;;
        run_loop self later (S processed_count)
  end.

(** [max_threads or self._config.max_threads_per_run]. *)
Definition effective_limit (self : t) (max_threads : option Z) : Z :=
  match max_threads with
  | Some m => if m =? 0 then max_threads_per_run (_config self) else m
  | None => max_threads_per_run (_config self)
  end.

(** What [run] does after the loop. *)
Definition persist (self : t) (processed_count : nat) : M unit :=
  w <~ get_world ;;
  if negb (processed_count =? 0)%nat || negb (bool_decide (is_Some (last_synced_at w)))
  then StateStore.save (_state self)
  else
    env <~ ask ;;
    t <~ now ;;
    modify (set_last_synced_at (Some (isoformat env t))) ;;;
    StateStore.save (_state self).

Definition run (fuel : nat) (self : t) (since : option datetime)
  (max_threads : option Z) : M nat :=
  let limit := effective_limit self max_threads in
  threads <~ DiscordClient.fetch_threads fuel (_discord self) since (Some limit) ;;
  processed_count <~ run_loop self threads 0 ;;
  persist self processed_count ;;;
  ret processed_count.

End IssueSyncer.

(** ** github_client.py *)

Module GitHubClient.

Record t : Type := {
  token : string;
  repo : string;
  dry_run : bool;
  timeout : Z;
  max_retries : Z }.

(** [c in s] for one character [c]. *)
Fixpoint contains_char (c : ascii) (s : string) : bool :=
  match s with
  | EmptyString => false
  | String d r => Ascii.eqb d c || contains_char c r
  end.

Definition init (token repo : string) (dry_run : bool) (timeout max_retries : Z)
  : result t :=
  if negb (PyStr.truthy token) && negb dry_run
  then Raise (ValueError "GITHUB_TOKEN が設定されていません")
  else if negb (contains_char "/" repo)
  then Raise (ValueError "github_repo は owner/repo 形式で指定してください")
  else Ok {| token := token; repo := repo; dry_run := dry_run;
             timeout := timeout; max_retries := max_retries |}.

(** The [payload] dictionary of [create_issue]; [None] stands for a key
    that was not set. *)
Record IssuePayload : Type := {
  ip_title : string;
  ip_body : string;
  ip_labels : option (list string);
  ip_assignees : option (list string) }.

(** A [request.Request]; [rq_data] is the payload that [json.dumps]
    serializes. *)
Record Request : Type := {
  rq_url : string;
  rq_data : IssuePayload;
  rq_headers : list (string * string);
  rq_method : string }.

(** What one [request.urlopen] call can end in: a body, an [HTTPError]
    with its status code and its [X-RateLimit-Remaining] header, or a
    [URLError]. *)
Inductive Outcome : Type :=
| Responded (doc : string)
| HttpFailure (code : Z) (rate_limit_remaining : option string)
| NetFailure.

(** What [create_issue] returns: the dictionary of a dry run, or the
    document the server answered. *)
Inductive Reply : Type :=
| DryRun (payload : IssuePayload)
| Document (doc : string).

(** The server answers a request as a function of all requests made so
    far, the last one being the request answered. *)
Definition Server : Type := list Request -> Outcome.

(** What the client changes: the requests sent and the naps taken. *)
Record Net : Type := {
  sent : list Request;
  naps : list Z }.

Definition _sleep_with_backoff (attempt : Z) (w : Net) : Net :=
  let delay := Z.min (2 ^ attempt) 30 in
  {| sent := sent w; naps := naps w ++ [delay] |}.

(** The body of [_execute]'s [for attempt in range(1, max_retries + 1)],
    over the attempts still to come; the [raise] after the loop is the
    empty case. *)
Fixpoint execute_attempts (max_retries : Z) (req : Request) (attempts : list Z)
  (server : Server) (w : Net) : result string * Net :=
  match attempts with
  | [] => (Raise (RuntimeError "GitHub API の呼び出しに失敗しました"), w)
  | attempt :: later =>
      let history := sent w ++ [req] in
      let w1 := {| sent := history; naps := naps w |} in
      match server history with
      | Responded doc => (Ok doc, w1)
      | HttpFailure code remaining =>
          if (code =? 403) && bool_decide (remaining = Some "0")
          then (Raise (HTTPError code), w1)
          else if (500 <=? code) && (code <? 600) && (attempt <? max_retries)
          then execute_attempts max_retries req later server
                 (_sleep_with_backoff attempt w1)
          else (Raise (HTTPError code), w1)
      | NetFailure =>
          if max_retries <=? attempt then (Raise URLError, w1)
          else execute_attempts max_retries req later server
                 (_sleep_with_backoff attempt w1)
      end
  end.

Definition _execute (self : t) (req : Request) (server : Server) (w : Net)
  : result string * Net :=
  execute_attempts (max_retries self) req
    (DiscordClient.range 1 (max_retries self + 1)) server w.

(** [x if x else None] for an optional list argument: the test [if labels:]
    fails for [None] and for the empty list. *)
Definition if_truthy (l : option (list string)) : option (list string) :=
  match l with
  | Some (x :: rest) => Some (x :: rest)
  | _ => None
  end.

Definition API_BASE : string := "https://api.github.com".

Definition create_issue (self : t) (title body : string)
  (labels assignees : option (list string)) (server : Server) (w : Net)
  : result Reply * Net :=
  let payload :=
    {| ip_title := title; ip_body := body;
       ip_labels := if_truthy labels; ip_assignees := if_truthy assignees |} in
  if dry_run self then (Ok (DryRun payload), w)
  else
    let url := API_BASE +:+ "/repos/" +:+ repo self +:+ "/issues" in
    let headers :=
      [ ("Authorization", "Bearer " +:+ token self);
        ("User-Agent", "EpikaDiscordIssueBridge/1.0");
        ("Accept", "application/vnd.github+json");
        ("Content-Type", "application/json") ] in
    let req := {| rq_url := url; rq_data := payload; rq_headers := headers;
                  rq_method := "POST" |} in
    let (r, w') := _execute self req server w in
    (result_map Document r, w').

End GitHubClient.

(** ** bridge_config.py: loading the configuration *)

(** The configuration file as [json.load] returns it, typed; [None] stands
    for an absent key. *)
Record ConfigDoc : Type := {
  cd_discord_channel_id : option string;
  cd_github_repo : option string;
  cd_issue_title_prefix : option string;
  cd_issue_body_template : option string;
  cd_default_labels : option (list string);
  cd_tag_label_map : option (list (string * list string));
  cd_fallback_label_prefix : option string;
  cd_assignees : option (list string);
  cd_state_file : option string;
  cd_state_backup_enabled : option bool;
  cd_max_threads_per_run : option Z }.

(** What the file system decides about paths: [resolve p] is
    [Path(p).expanduser().resolve()] and [resolve_sibling p q] is
    [(Path(p).parent / q).resolve()].  A path is the text it prints as. *)
Record FileSystem : Type := {
  resolve : string -> string;
  resolve_sibling : string -> string -> string }.

Module BridgeConfigFile.

(** [key in data] for the keys [load] requires, in the order of its
    list. *)
Definition required (data : ConfigDoc) : list (string * bool) :=
  [ ("discord_channel_id", bool_decide (is_Some (cd_discord_channel_id data)));
    ("github_repo", bool_decide (is_Some (cd_github_repo data)));
    ("issue_title_prefix", bool_decide (is_Some (cd_issue_title_prefix data)));
    ("issue_body_template", bool_decide (is_Some (cd_issue_body_template data))) ].

(** [Path.is_absolute] on a POSIX path. *)
Definition is_absolute (p : string) : bool :=
  match p with
  | String "/" _ => true
  | _ => false
  end.

(** The comprehension [{str(k): list(v) for k, v in items}]. *)
Definition dict_of_items (items : list (string * list string))
  : gmap string (list string) :=
  fold_left (fun d kv => <[ kv.1 := kv.2 ]> d) items ∅.

(** [data[key]]. *)
Definition subscript (key : string) (value : option string) : result string :=
  match value with
  | Some v => Ok v
  | None => Raise (KeyError key)
  end.

(** [BridgeConfig.load]; [data] is what [_read_json] returned for
    [path]. *)
Definition load (fs : FileSystem) (path : string) (data : ConfigDoc)
  : result BridgeConfig :=
  let missing :=
    map fst (List.filter (fun kp => negb kp.2) (required data)) in
  match missing with
  | _ :: _ =>
      Raise (ValueError ("設定ファイルに不足項目があります: "
                         +:+ IssueSyncer.join ", " missing))
  | [] =>
      let state_file :=
        default "tmp/discord_issue_bridge_state.json" (cd_state_file data) in
      let state_file :=
        if negb (is_absolute state_file)
        then resolve_sibling fs path state_file
        else state_file in
      match subscript "discord_channel_id" (cd_discord_channel_id data),
            subscript "github_repo" (cd_github_repo data) with
      | Raise e, _ => Raise e
      | _, Raise e => Raise e
      | Ok channel, Ok repo =>
          Ok {| discord_channel_id := channel;
                github_repo := repo;
                issue_title_prefix := default "" (cd_issue_title_prefix data);
                issue_body_template :=
                  default "{{content}}" (cd_issue_body_template data);
                default_labels := default [] (cd_default_labels data);
                tag_label_map :=
                  dict_of_items (default [] (cd_tag_label_map data));
                fallback_label_prefix :=
                  default "discord/tag/" (cd_fallback_label_prefix data);
                assignees := default [] (cd_assignees data);
                state_file := state_file;
                state_backup_enabled :=
                  default true (cd_state_backup_enabled data);
                max_threads_per_run :=
                  default 20 (cd_max_threads_per_run data) |}
      end
  end.

End BridgeConfigFile.

(** ** discord_issue_bridge.py *)

Module DiscordIssueBridge.

(** The [argparse.Namespace] of [parse_args]; [offline_sample] holds the
    content of the fixture file, and [since] the instant its text
    denotes. *)
Record Args : Type := {
  config : string;
  state : option string;
  since : option datetime;
  max_threads : option Z;
  dry_run : bool;
  offline_sample : option OfflinePayload;
  verbose : bool }.

(** The two variables [main] reads from [os.environ]. *)
Record Environ : Type := {
  DISCORD_BOT_TOKEN : option string;
  GITHUB_TOKEN : option string }.

(** [x or ""] for an optional string. *)
Definition or_empty (x : option string) : string := default "" x.

(** [main]; [data] is the content of the configuration file.  The
    [GitHubClient] that [main] builds is the tracker of the environment,
    which the syncer submits to. *)
Definition main (fuel : nat) (fs : FileSystem) (args : Args) (data : ConfigDoc)
  (environ : Environ) : M nat :=
  let config_path := resolve fs (config args) in
  config <~ lift_result (BridgeConfigFile.load fs config_path data) ;;
  let state_path :=
    match state args with
    | Some p => if PyStr.truthy p then resolve fs p else state_file config
    | None => state_file config
    end in
  let state_store :=
    {| StateStore.path := state_path;
       StateStore.backup_enabled := state_backup_enabled config |} in
  StateStore.load state_store ;;;
  let discord_token := DISCORD_BOT_TOKEN environ in
  let github_token := GITHUB_TOKEN environ in
  discord_client <~ DiscordClient.init (or_empty discord_token)
                      (discord_channel_id config) (offline_sample args) 15 5 ;;
  github_client <~ lift_result
                     (GitHubClient.init (or_empty github_token)
                        (github_repo config) (dry_run args) 15 5) ;;
  let since_dt := since args in
  let effective_max :=
    match max_threads args with
    | Some m => if m =? 0 then max_threads_per_run config else m
    | None => max_threads_per_run config
    end in
  let syncer :=
    {| IssueSyncer._config := config;
       IssueSyncer._discord := discord_client;
       IssueSyncer._state := state_store |} in
  IssueSyncer.run fuel syncer since_dt (Some effective_max).

End DiscordIssueBridge.

(** * Definitions used to state the properties *)

Import TemplateEngine DiscordClient IssueSyncer.

(** ** Templates as segments *)

Fixpoint all_chars (p : ascii -> bool) (s : string) : bool :=
  match s with
  | EmptyString => true
  | String c r => p c && all_chars p r
  end.

(** A template cut into literal text and placeholders.  A placeholder
    carries the white space written around its identifier. *)
Inductive segment : Type :=
| Lit (text : string)
| Hole (before key after : string).

Definition segment_text (seg : segment) : string :=
  match seg with
  | Lit text => text
  | Hole before key after => "{{" +:+ before +:+ key +:+ after +:+ "}}"
  end.

Fixpoint template_of (segs : list segment) : string :=
  match segs with
  | [] => ""
  | seg :: rest => segment_text seg +:+ template_of rest
  end.

(** A placeholder as the regular expression reads it: white space
    around an identifier that is not empty and is made of letters, digits
    and underscores. *)
Definition hole_ok (before key after : string) : bool :=
  all_chars PyStr.is_space before && PyStr.truthy key
  && all_chars is_ident_char key && all_chars PyStr.is_space after.

(** What rendering is meant to give: every placeholder replaced by the
    value of its identifier, from left to right, and a [KeyError] at the
    first identifier the context does not have. *)
Fixpoint expand (context : gmap string string) (segs : list segment)
  : result string :=
  match segs with
  | [] => Ok ""
  | Lit text :: rest => result_map (String.append text) (expand context rest)
  | Hole _ key _ :: rest =>
      match context !! key with
      | None => Raise (KeyError key)
      | Some v => result_map (String.append v) (expand context rest)
      end
  end.

(** The identifiers of the placeholders of a template. *)
Fixpoint hole_keys (segs : list segment) : list string :=
  match segs with
  | [] => []
  | Lit _ :: rest => hole_keys rest
  | Hole _ key _ :: rest => key :: hole_keys rest
  end.

(** The text [s] begins with a placeholder of identifier [key], after
    which [rest] follows: two opening braces, white space, an identifier
    that is not empty, white space and two closing braces. *)
Definition placeholder_at (s key rest : string) : Prop :=
  exists before after,
    hole_ok before key after = true
    ∧ s = segment_text (Hole before key after) +:+ rest.

(** No placeholder begins inside [text] when [rest] follows it. *)
Definition no_placeholder_in (text rest : string) : Prop :=
  forall a b key after,
    text = a +:+ b -> b ≠ "" -> ¬ placeholder_at (b +:+ rest) key after.

(** A cut of a template as one pass from the left makes it: no
    placeholder begins inside a literal, whatever follows it in the
    template, and every placeholder is well formed. *)
Fixpoint well_cut (segs : list segment) : Prop :=
  match segs with
  | [] => True
  | Lit text :: later =>
      no_placeholder_in text (template_of later) ∧ well_cut later
  | Hole before key after :: later =>
      hole_ok before key after = true ∧ well_cut later
  end.

(** The same two conditions as tests: the matcher is tried at every
    position of a literal. *)
Fixpoint no_match_in (text rest : string) : bool :=
  match text with
  | EmptyString => true
  | String c t =>
      match match_placeholder (String c (t +:+ rest)) with
      | None => no_match_in t rest
      | Some _ => false
      end
  end.

Fixpoint cut_ok (segs : list segment) : bool :=
  match segs with
  | [] => true
  | Lit text :: later => no_match_in text (template_of later) && cut_ok later
  | Hole before key after :: later =>
      hole_ok before key after && cut_ok later
  end.

(** ** Labels *)

(** Duplicates removed, first occurrences kept. *)
Fixpoint dedup_first (l : list string) : list string :=
  match l with
  | [] => []
  | x :: rest => x :: filter (fun y => y ≠ x) (dedup_first rest)
  end.

(** The fallback label of a tag, as [_build_labels] computes it. *)
Definition fallback_label (config : BridgeConfig) (tags : gmap string string)
  (tag_id : string) : string :=
  PyStr.strip (fallback_label_prefix config +:+
    _sanitize_label (DiscordClient.resolve_tag_name tags tag_id)).

(** The labels one applied tag stands for, as [_build_labels] computes
    them: a mapping to no label counts as no mapping. *)
Definition tag_labels (config : BridgeConfig) (tags : gmap string string)
  (tag_id : string) : list string :=
  match tag_label_map config !! tag_id with
  | Some (l :: ls) => l :: ls
  | _ => [ fallback_label config tags tag_id ]
  end.

(** The labels one applied tag stands for, in the words of the label
    rule: the mapped labels when a mapping exists, else the prefix plus the
    display name in lower case with hyphens for spaces. *)
Definition stated_tag_labels (config : BridgeConfig) (tags : gmap string string)
  (tag_id : string) : list string :=
  match tag_label_map config !! tag_id with
  | Some ls => ls
  | None =>
      [ fallback_label_prefix config +:+
          PyStr.replace_char " " "-"
            (PyStr.lower (DiscordClient.resolve_tag_name tags tag_id)) ]
  end.

Definition stated_build_labels (config : BridgeConfig)
  (tags : gmap string string) (thread : DiscordThread) : list string :=
  dedup_first (default_labels config ++
               concat (map (stated_tag_labels config tags) (th_applied_tag_ids thread))).

(** Some character of the string is not white space. *)
Fixpoint has_nonspace (s : string) : bool :=
  match s with
  | EmptyString => false
  | String c r => negb (PyStr.is_space c) || has_nonspace r
  end.

(** ** Sample values *)

Definition label_config (defaults : list string)
  (map : gmap string (list string)) (prefix : string) : BridgeConfig :=
  {| discord_channel_id := "123456789012345678";
     github_repo := "fishnchips/Epika";
     issue_title_prefix := "[Discord] ";
     issue_body_template := "{{content}}";
     default_labels := defaults;
     tag_label_map := map;
     fallback_label_prefix := prefix;
     assignees := [];
     state_file := "state.json";
     state_backup_enabled := false;
     max_threads_per_run := 20 |}.

Definition tagged_thread (name : string) (tag_ids : list string) : DiscordThread :=
  {| th_id := "1"; th_guild_id := None; th_channel_id := "123456789012345678";
     th_name := name; th_owner_id := "";
     th_created_at := 0; th_applied_tag_ids := tag_ids;
     th_first_message :=
       {| msg_id := "2"; msg_author_id := ""; msg_author_name := "unknown";
          msg_content := ""; msg_timestamp := 0; msg_attachments := [] |} |}.

(** ** Effects of a computation *)

(** The part of the world that only [IssueSyncer] and [StateStore] write
    is the same, and the clock has not been turned back. *)
Definition same_store (w w' : World) : Prop :=
  issues w' = issues w ∧ processed w' = processed w
  ∧ last_synced_at w' = last_synced_at w
  ∧ ledger_file w' = ledger_file w ∧ backup_file w' = backup_file w
  ∧ (ticks w <= ticks w')%nat.

Definition keeps_store {A : Type} (m : M A) : Prop :=
  forall env w, same_store w (m env w).2.

(** ** Fetched threads *)

(** Threads in ascending order of creation time, equal times allowed. *)
Definition created_le (a b : DiscordThread) : Prop :=
  th_created_at a <= th_created_at b.

(** The creation time a thread payload reports, by the rule of
    [_extract_created_at]; [None] when it reports none and the clock is
    read instead. *)
Definition reported_created_at (thread_payload : ThreadPayload)
  : option datetime :=
  match tp_thread_metadata thread_payload with
  | Some metadata =>
      match create_timestamp metadata with
      | Some c => Some c
      | None =>
          match archive_timestamp metadata with
          | Some a => Some a
          | None => tp_timestamp thread_payload
          end
      end
  | None => tp_timestamp thread_payload
  end.

(** What [fetch_threads] promises of a thread it returns over the
    network: it is newer than [since], and its creation time is not
    before its first message. *)
Definition live_thread_ok (since : option datetime) (t : DiscordThread) : Prop :=
  (forall s, since = Some s -> s < th_created_at t)
  ∧ msg_timestamp (th_first_message t) <= th_created_at t.

(** What it promises of a thread it returns from a fixture: it is newer
    than [since], and it carries the identity and the creation time of a
    thread of the fixture as they are written there. *)
Definition offline_thread_ok (payload : OfflinePayload)
  (since : option datetime) (t : DiscordThread) : Prop :=
  (forall s, since = Some s -> s < th_created_at t)
  ∧ exists tp, tp ∈ off_threads payload
      ∧ th_id t = py_str (tp_id tp)
      ∧ forall c, tp_created_at tp = Some c -> th_created_at t = c.

(** ** One run of the syncer *)

(** The request [run] submits for a thread. *)
Definition issue_request_of (config : BridgeConfig)
  (isoformat : datetime -> string) (tags : gmap string string)
  (thread : DiscordThread) : result IssueRequest :=
  result_map
    (fun body => {| ir_title := issue_title_of config thread;
                    ir_body := body;
                    ir_labels := _build_labels config tags thread;
                    ir_assignees := assignees config |})
    (_build_body config isoformat thread).

(** The ledger entry [run] records for a thread. *)
Definition ledger_entry (isoformat : datetime -> string)
  (thread : DiscordThread) : string * string :=
  (th_id thread, isoformat (th_created_at thread)).

(** The threads a run has to submit: those whose identity is neither in
    the ledger nor borne by an earlier thread of the list. *)
Fixpoint pending (keys : list string) (threads : list DiscordThread)
  : list DiscordThread :=
  match threads with
  | [] => []
  | thread :: later =>
      if bool_decide (th_id thread ∈ keys) then pending keys later
      else thread :: pending (keys ++ [th_id thread]) later
  end.

(** The world after [mark_processed]. *)
Definition marked (env : Env) (thread : DiscordThread) (w : World) : World :=
  set_last_synced_at (Some (isoformat env (clock env (ticks w))))
    (set_ticks (S (ticks w))
       (set_processed
          (StateStore.dict_set (th_id thread)
             (isoformat env (th_created_at thread)) (processed w)) w)).

(** The world after [save]. *)
Definition saved (self : StateStore.t) (w : World) : World :=
  let w1 :=
    match StateStore.backup_enabled self, ledger_file w with
    | true, Some old => set_backup_file (Some old) w
    | _, _ => w
    end in
  set_ledger_file
    (Some {| doc_processed := ProcessedMap (processed w1);
             doc_last_synced_at := last_synced_at w1 |}) w1.

(** The world after the heartbeat assignment of [run]. *)
Definition heartbeat (env : Env) (w : World) : World :=
  set_last_synced_at (Some (isoformat env (clock env (ticks w))))
    (set_ticks (S (ticks w)) w).

(** How a run of the loop changed the world: [called] are the threads
    whose issue was submitted, [recorded] those that were marked
    processed. *)
Record loop_trace (self : IssueSyncer.t) (env : Env) (w w' : World)
  (called recorded : list DiscordThread) : Prop := {
  lt_requests :
    exists reqs,
      Forall2 (fun thread q =>
                 issue_request_of (_config self) (isoformat env)
                   (available_tags w) thread = Ok q) called reqs
      ∧ issues w' = issues w ++ reqs;
  lt_processed :
    processed w' = processed w ++ map (ledger_entry (isoformat env)) recorded;
  lt_ticks : ticks w' = (ticks w + length recorded)%nat;
  lt_synced :
    last_synced_at w' =
    match recorded with
    | [] => last_synced_at w
    | _ => Some (isoformat env (clock env (ticks w + length recorded - 1)%nat))
    end;
  lt_tags : available_tags w' = available_tags w;
  lt_ledger_file : ledger_file w' = ledger_file w;
  lt_backup_file : backup_file w' = backup_file w;
  lt_net : requests w' = requests w ∧ slept w' = slept w }.

(** ** Sample values for the network and the ledger *)

Definition sample_message (id : string) (ts : datetime)
  (attachments : list AttachmentPayload) : MessagePayload :=
  {| mp_id := Some id;
     mp_author := {| au_id := Some "42"; au_global_name := None;
                     au_username := Some "licht" |};
     mp_content := Some "It crashed.";
     mp_timestamp := Some ts;
     mp_attachments := attachments |}.

Definition sample_thread_payload (id name : string) (created : datetime)
  (tags : list string) (messages : list MessagePayload) : ThreadPayload :=
  {| tp_id := Some id; tp_guild_id := Some "7"; tp_name := Some name;
     tp_owner_id := Some "42";
     tp_thread_metadata :=
       Some {| create_timestamp := Some created; archive_timestamp := None |};
     tp_timestamp := None;
     tp_created_at := Some created;
     tp_applied_tags := tags;
     tp_messages := messages |}.

Definition sample_channel : ChannelPayload :=
  {| ch_id := Some "123456789012345678";
     ch_available_tags :=
       [ {| tag_id := Some "555"; tag_name := Some "Crash Report" |} ] |}.

(** Two threads created at the same instant; the first was created after
    its first message and has blanks around its name. *)
Definition sample_fixture : OfflinePayload :=
  {| off_channel := sample_channel;
     off_threads :=
       [ sample_thread_payload "t1" " Crash " 100 ["987"; "555"]
           [ sample_message "m1" 50
               [ {| ap_id := Some "a1"; ap_url := Some "https://cdn/crash-log.txt";
                    ap_filename := Some "crash-log.txt" |} ] ];
         sample_thread_payload "t2" "Second" 100 []
           [ sample_message "m2" 100 [] ] ] |}.

Definition empty_fixture : OfflinePayload :=
  {| off_channel := sample_channel; off_threads := [] |}.

Definition sample_config : BridgeConfig :=
  {| discord_channel_id := "123456789012345678";
     github_repo := "fishnchips/Epika";
     issue_title_prefix := "[Discord] ";
     issue_body_template := "{{author}} {{created_at}} {{content}} {{attachments}}";
     default_labels := ["discord"; "triage"];
     tag_label_map := {[ "987" := ["bug"] ]};
     fallback_label_prefix := "discord/tag/";
     assignees := ["licht"];
     state_file := "state.json";
     state_backup_enabled := false;
     max_threads_per_run := 10 |}.

Definition offline_client (payload : OfflinePayload) : DiscordClient.t :=
  {| DiscordClient.token := "";
     DiscordClient.channel_id := "123456789012345678";
     DiscordClient.timeout := 15;
     DiscordClient.max_retries := 5;
     DiscordClient.offline_payload := Some payload |}.

Definition live_client : DiscordClient.t :=
  {| DiscordClient.token := "token";
     DiscordClient.channel_id := "123456789012345678";
     DiscordClient.timeout := 15;
     DiscordClient.max_retries := 5;
     DiscordClient.offline_payload := None |}.

Definition sample_syncer (discord : DiscordClient.t) : IssueSyncer.t :=
  {| _config := sample_config;
     _discord := discord;
     _state := {| StateStore.path := "state.json";
                  StateStore.backup_enabled := false |} |}.

(** A server that answers the channel, one active thread, no archived
    thread, and one message. *)
Definition sample_server (history : list string) : Outcome :=
  match length history with
  | 1%nat => Responded (ChannelBody sample_channel)
  | 2%nat =>
      Responded (ThreadListBody
        {| tl_threads := [ sample_thread_payload "t1" "Crash" 100 [] [] ];
           tl_has_more := false |})
  | 3%nat => Responded (ThreadListBody {| tl_threads := []; tl_has_more := false |})
  | _ => Responded (MessagesBody [ sample_message "m1" 50 [] ])
  end.

(** A server that is rate limited for ever. *)
Definition busy_server (history : list string) : Outcome :=
  HttpFailure 429 (RetryAfterSeconds (1 # 2)).

Definition sample_env (server : list string -> Outcome) : Env :=
  {| server := server;
     clock := fun n => 1000 + Z.of_nat n;
     isoformat := pretty;
     github := fun _ => None |}.

(** The world before anything ran: no ledger file, nothing in memory. *)
Definition fresh_world : World :=
  {| requests := []; slept := []; ticks := 0; available_tags := ∅;
     issues := []; processed := []; last_synced_at := None;
     ledger_file := None; backup_file := None |}.

(** The in-memory ledger of a [StateStore] that never ran: what [load]
    leaves when there is no file. *)
Definition never_run_ledger (w : World) : Prop :=
  processed w = [] ∧ last_synced_at w = None.

(** The threads of a fetch that returned. *)
Definition fetched (r : result (list DiscordThread) * World)
  : list DiscordThread :=
  match r.1 with
  | Ok threads => threads
  | Raise _ => []
  end.

Definition live_fetch : result (list DiscordThread) * World :=
  DiscordClient.fetch_threads 0 live_client None None
    (sample_env sample_server) fresh_world.

(** Three threads, listed out of the order of their creation. *)
Definition unordered_fixture : OfflinePayload :=
  {| off_channel := sample_channel;
     off_threads :=
       [ sample_thread_payload "t3" "Third" 300 [] [ sample_message "m3" 300 [] ];
         sample_thread_payload "t1" "First" 100 [] [ sample_message "m1" 100 [] ];
         sample_thread_payload "t2" "Second" 200 [] [ sample_message "m2" 200 [] ] ] |}.

Definition unordered_fetch (limit : option Z)
  : result (list DiscordThread) * World :=
  DiscordClient.fetch_threads 0 (offline_client unordered_fixture) (Some 150) limit
    (sample_env busy_server) fresh_world.

(** The sample run: the fixture of two threads, an empty ledger. *)
Definition sample_run : result nat * World :=
  run 0 (sample_syncer (offline_client sample_fixture)) None (Some 5)
    (sample_env busy_server) fresh_world.

(** A run on the fixture of three threads, with an empty ledger. *)
Definition unordered_run : result nat * World :=
  run 0 (sample_syncer (offline_client unordered_fixture)) None (Some 5)
    (sample_env busy_server) fresh_world.

(** The world after [load]. *)
Definition loaded (w : World) : World :=
  match ledger_file w with
  | None => set_last_synced_at None (set_processed [] w)
  | Some data =>
      let legacy_stamp :=
        match doc_last_synced_at data with
        | Some s => PyStr.or_else s ""
        | None => ""
        end in
      let entries :=
        match doc_processed data with
        | ProcessedAbsent => []
        | ProcessedMap m => m
        | ProcessedList ids => map (fun tid => (tid, legacy_stamp)) ids
        end in
      set_last_synced_at (doc_last_synced_at data)
        (set_processed (StateStore.dict_of_pairs entries) w)
  end.

(** A ledger file in the old format, with one identity and no time of
    synchronization. *)
Definition legacy_world : World :=
  set_ledger_file
    (Some {| doc_processed := ProcessedList ["t1"; "t2"];
             doc_last_synced_at := None |}) fresh_world.

(** ** Retries *)

(** [_execute] from attempt number [attempt] on. *)
Definition execute_from (self : DiscordClient.t) (path : string) (attempt : Z)
  : M Body :=
  execute_attempts (max_retries self) path (range attempt (max_retries self + 1)).

(** The world after one more request for [path]. *)
Definition requested (path : string) (w : World) : World :=
  set_requests (requests w ++ [path]) w.

(** The world after one more nap. *)
Definition napped (delay : Q) (w : World) : World :=
  set_slept (slept w ++ [delay]) w.

(** The delay of [_sleep_with_backoff]. *)
Definition backoff (attempt : Z) : Q := inject_Z (Z.min (2 ^ attempt) 30).

(** The longest and the most negative number of seconds whose
    nanoseconds fit 64 bits. *)
Definition longest_sleep : Q := Qmake (2 ^ 63 - 1) (10 ^ 9).
Definition lowest_sleep : Q := Qmake (- 2 ^ 63) (10 ^ 9).

(** What [time.sleep] raises for a finite number of seconds, in terms of
    the number itself: nothing between zero and [longest_sleep],
    [ValueError] for a negative number down to [lowest_sleep], and
    [OverflowError] beyond either end. *)
Definition refused (secs : Q) : option exn :=
  if Qle_bool lowest_sleep secs && Qle_bool secs longest_sleep
  then if Qle_bool 0 secs then None
       else Some (ValueError "sleep length must be non-negative")
  else Some (OverflowError "timestamp too large to convert to C _PyTime_t").

(** What an answer 429 leads to, by its [Retry-After] header: the seconds
    slept before the next attempt, or the exception that [float] or
    [time.sleep] raises. *)
Definition rate_limit_delay (ra : RetryAfter) : result Q :=
  match ra with
  | NoRetryAfter => Ok 1%Q
  | RetryAfterSeconds q =>
      match refused q with
      | None => Ok q
      | Some e => Raise e
      end
  | RetryAfterNaN => Raise (ValueError "Invalid value NaN (not a number)")
  | RetryAfterInfinite =>
      Raise (OverflowError "timestamp too large to convert to C _PyTime_t")
  | RetryAfterGarbage => Raise (ValueError "could not convert string to float")
  end.



(** A whole session on the fixture: the client is built, the ledger is
    loaded, and the syncer runs twice. *)
Definition sample_session : M (nat * nat) :=
  discord <~ DiscordClient.init "" "123456789012345678" (Some sample_fixture) 15 5 ;;
  let state := {| StateStore.path := "state.json";
                  StateStore.backup_enabled := false |} in
  StateStore.load state ;;;
  let syncer := {| _config := sample_config; _discord := discord;
                   _state := state |} in
  first <~ run 0 syncer None (Some 5) ;;
  second <~ run 0 syncer None (Some 5) ;;
  ret (first, second).

(** * Definitions used to state further properties *)

(** ** Templates as plain text *)

(** A placeholder begins at some position of the text. *)
Fixpoint has_placeholder (s : string) : bool :=
  match s with
  | EmptyString => false
  | String c r =>
      bool_decide (is_Some (match_placeholder (String c r))) || has_placeholder r
  end.

(** ** The ledger *)

(** A world whose ledger holds two threads and whose ledger file is an
    older document. *)
Definition busy_ledger_world : World :=
  set_ledger_file
    (Some {| doc_processed := ProcessedMap [("t0", "1")];
             doc_last_synced_at := Some "1" |})
    (set_last_synced_at (Some "2")
       (set_processed [("t0", "1"); ("t1", "2")] fresh_world)).

(** ** The Discord client *)

(** A computation that sends no request, takes no nap and leaves the tag
    cache alone. *)
Definition keeps_net {A : Type} (m : M A) : Prop :=
  forall env w,
    requests (m env w).2 = requests w
    ∧ slept (m env w).2 = slept w
    ∧ available_tags (m env w).2 = available_tags w.

(** [f] is the first of the earliest messages of [msgs]: what
    [min(messages, key=lambda msg: msg.timestamp)] picks. *)
Definition earliest_of (msgs : list DiscordMessage) (f : DiscordMessage) : Prop :=
  Forall (fun m => msg_timestamp f <= msg_timestamp m) msgs
  ∧ exists pre post,
      msgs = pre ++ f :: post
      ∧ Forall (fun m => msg_timestamp f < msg_timestamp m) pre.

(** The first message of a thread fetched over the network is picked from
    an answer of [fetch_thread_messages] for that thread. *)
Definition live_first_message_ok (self : DiscordClient.t) (env : Env)
  (t : DiscordThread) : Prop :=
  exists w0 w1 msgs,
    fetch_thread_messages self (th_id t) env w0 = (Ok msgs, w1)
    ∧ earliest_of msgs (th_first_message t).

(** The first message of a thread read from a fixture is picked from the
    messages the fixture lists for it. *)
Definition offline_first_message_ok (payload : OfflinePayload) (env : Env)
  (t : DiscordThread) : Prop :=
  exists tp w0 w1 msgs,
    tp ∈ off_threads payload
    ∧ th_id t = py_str (tp_id tp)
    ∧ mapM _message_from_payload (tp_messages tp) env w0 = (Ok msgs, w1)
    ∧ earliest_of msgs (th_first_message t).

(** A fixture whose thread lists two messages of the same, earliest
    instant after a later one. *)
Definition tie_fixture : OfflinePayload :=
  {| off_channel := sample_channel;
     off_threads :=
       [ sample_thread_payload "t1" "Crash" 100 []
           [ sample_message "m1" 70 []; sample_message "m2" 50 [];
             sample_message "m3" 50 [] ] ] |}.





(** A computation whose requests are all for paths with the property
    [P]. *)
Definition sends_only {A : Type} (P : string -> Prop) (m : M A) : Prop :=
  forall env w,
    exists new, requests (m env w).2 = requests w ++ new ∧ Forall P new.

(** A path of the channels resource. *)
Definition under_channels (path : string) : Prop :=
  exists rest, path = "/channels/" +:+ rest.

(** The name [tags_dict] files under the identity [i]: that of the last
    tag listed with it. *)
Fixpoint tag_name_of (tags : list TagPayload) (i : string) : option string :=
  match tags with
  | [] => None
  | tag :: rest =>
      match tag_name_of rest i with
      | Some name => Some name
      | None =>
          if decide (tag_id tag = Some i) then Some (default "" (tag_name tag))
          else None
      end
  end.

(** The thread payloads that an answer lists. *)
Definition answer_threads (o : Outcome) : list ThreadPayload :=
  match o with
  | Responded (ThreadListBody p) => tl_threads p
  | _ => []
  end.

(** The thread payloads that the server listed in answer to the requests
    [new], sent after the requests [old], in the order of the answers. *)
Fixpoint listed (env : Env) (old new : list string) : list ThreadPayload :=
  match new with
  | [] => []
  | path :: rest =>
      answer_threads (server env (old ++ [path])) ++ listed env (old ++ [path]) rest
  end.

(** A computation that returns [a] has sent requests whose answers list
    the threads [f a]. *)
Definition lists {A : Type} (f : A -> list ThreadPayload) (m : M A) : Prop :=
  forall env w a w',
    m env w = (Ok a, w') ->
    exists new, requests w' = requests w ++ new
                ∧ listed env (requests w) new = f a.

(** A server with one active thread and two pages of archived threads. *)
Definition paging_server (history : list string) : Outcome :=
  match length history with
  | 1%nat =>
      Responded (ThreadListBody
        {| tl_threads := [ sample_thread_payload "t1" "One" 100 [] [] ];
           tl_has_more := false |})
  | 2%nat =>
      Responded (ThreadListBody
        {| tl_threads := [ sample_thread_payload "t2" "Two" 90 [] [] ];
           tl_has_more := true |})
  | _ =>
      Responded (ThreadListBody
        {| tl_threads := [ sample_thread_payload "t3" "Three" 80 [] [] ];
           tl_has_more := false |})
  end.

(** The payloads of a collection that returned. *)
Definition fetched_payloads (r : result (list ThreadPayload) * World)
  : list ThreadPayload :=
  match r.1 with
  | Ok collected => collected
  | Raise _ => []
  end.

(** ** Labels and bodies *)

(** The text does not begin with white space. *)
Definition starts_ok (s : string) : bool :=
  match s with
  | EmptyString => true
  | String c _ => negb (PyStr.is_space c)
  end.

(** The keys of the context that [_build_body] renders the template
    with. *)
Definition body_keys : list string :=
  ["title"; "author"; "message_url"; "content"; "attachments"; "created_at";
   "thread_id"].
(** ** The GitHub client *)






(** A server that fails twice, at the network and with status 503, and
    then answers. *)
Definition gh_flaky_server (history : list GitHubClient.Request)
  : GitHubClient.Outcome :=
  match length history with
  | 1%nat => GitHubClient.NetFailure
  | 2%nat => GitHubClient.HttpFailure 503 None
  | _ => GitHubClient.Responded "{}"
  end.

Definition gh_sample_client (dry_run : bool) : GitHubClient.t :=
  {| GitHubClient.token := "token"; GitHubClient.repo := "fishnchips/Epika";
     GitHubClient.dry_run := dry_run; GitHubClient.timeout := 15;
     GitHubClient.max_retries := 5 |}.

Definition gh_fresh_net : GitHubClient.Net :=
  {| GitHubClient.sent := []; GitHubClient.naps := [] |}.


(** The tracker that a [GitHubClient] talking to [server] is for the
    syncer: the submissions [calls] are made one after the other from the
    state [w]; the answer is what the last of them raised. *)
Fixpoint gh_replay (client : GitHubClient.t) (server : GitHubClient.Server)
  (w : GitHubClient.Net) (calls : list IssueRequest)
  : option exn * GitHubClient.Net :=
  match calls with
  | [] => (None, w)
  | q :: rest =>
      let (r, w1) :=
        GitHubClient.create_issue client (ir_title q) (ir_body q)
          (Some (ir_labels q)) (Some (ir_assignees q)) server w in
      match rest with
      | [] => (match r with Ok _ => None | Raise e => Some e end, w1)
      | _ :: _ => gh_replay client server w1 rest
      end
  end.

Definition gh_tracker (client : GitHubClient.t) (server : GitHubClient.Server)
  (w : GitHubClient.Net) (calls : list IssueRequest) : option exn :=
  (gh_replay client server w calls).1.

(** ** Runs against a GitHub client *)

(** The sample environment with the tracker of a dry-run client. *)
Definition dry_run_env : Env :=
  {| server := busy_server;
     clock := fun n => 1000 + Z.of_nat n;
     isoformat := pretty;
     github := gh_tracker (gh_sample_client true) gh_flaky_server gh_fresh_net |}.

(** The sample environment with a tracker that refuses the second
    submission. *)
Definition refusing_env : Env :=
  {| server := busy_server;
     clock := fun n => 1000 + Z.of_nat n;
     isoformat := pretty;
     github := fun calls =>
       if (length calls =? 2)%nat then Some (HTTPError 422) else None |}.

(** The sample run against that tracker. *)
Definition refused_run : result nat * World :=
  run 0 (sample_syncer (offline_client sample_fixture)) None (Some 5)
    refusing_env fresh_world.

(** The sample run with a limit of one thread. *)
Definition limited_run : result nat * World :=
  run 0 (sample_syncer (offline_client sample_fixture)) None (Some 1)
    (sample_env busy_server) fresh_world.

(** The sample syncer with backups of the ledger file. *)
Definition backup_syncer : IssueSyncer.t :=
  {| _config := sample_config;
     _discord := offline_client sample_fixture;
     _state := {| StateStore.path := "state.json";
                  StateStore.backup_enabled := true |} |}.

(** Its run on a ledger that holds the first thread of the fixture. *)
Definition backup_run : result nat * World :=
  run 0 backup_syncer None None (sample_env busy_server) busy_ledger_world.

(** ** The configuration and the command *)

(** The required keys that a configuration lacks, in the order in which
    [BridgeConfig.load] lists them. *)
Definition config_missing (data : ConfigDoc) : list string :=
  (if bool_decide (is_Some (cd_discord_channel_id data)) then []
   else ["discord_channel_id"])
  ++ (if bool_decide (is_Some (cd_github_repo data)) then []
      else ["github_repo"])
  ++ (if bool_decide (is_Some (cd_issue_title_prefix data)) then []
      else ["issue_title_prefix"])
  ++ (if bool_decide (is_Some (cd_issue_body_template data)) then []
      else ["issue_body_template"]).

(** The setup lets [main] reach the run: the configuration has its
    required keys and names a repository with a slash, there is a Discord
    token or a fixture, and there is a GitHub token or the run is dry. *)
Definition setup_ok (args : DiscordIssueBridge.Args) (data : ConfigDoc)
  (environ : DiscordIssueBridge.Environ) : bool :=
  bool_decide (config_missing data = [])
  && (PyStr.truthy (default "" (DiscordIssueBridge.DISCORD_BOT_TOKEN environ))
      || bool_decide (is_Some (DiscordIssueBridge.offline_sample args)))
  && (PyStr.truthy (default "" (DiscordIssueBridge.GITHUB_TOKEN environ))
      || DiscordIssueBridge.dry_run args)
  && GitHubClient.contains_char "/" (default "" (cd_github_repo data)).

(** A file system on which every path is resolved already. *)
Definition flat_fs : FileSystem :=
  {| resolve := fun p => p; resolve_sibling := fun _ q => q |}.

(** A configuration with the required keys only. *)
Definition minimal_doc : ConfigDoc :=
  {| cd_discord_channel_id := Some "123456789012345678";
     cd_github_repo := Some "fishnchips/Epika";
     cd_issue_title_prefix := Some "[Discord] ";
     cd_issue_body_template := Some "{{content}}";
     cd_default_labels := None; cd_tag_label_map := None;
     cd_fallback_label_prefix := None; cd_assignees := None;
     cd_state_file := None; cd_state_backup_enabled := None;
     cd_max_threads_per_run := None |}.

(** A configuration without repository and without body template. *)
Definition partial_doc : ConfigDoc :=
  {| cd_discord_channel_id := Some "123456789012345678";
     cd_github_repo := None;
     cd_issue_title_prefix := Some "[Discord] ";
     cd_issue_body_template := None;
     cd_default_labels := None; cd_tag_label_map := None;
     cd_fallback_label_prefix := None; cd_assignees := None;
     cd_state_file := None; cd_state_backup_enabled := None;
     cd_max_threads_per_run := None |}.

(** The command line of a run on the fixture that is not dry. *)
Definition sample_args : DiscordIssueBridge.Args :=
  {| DiscordIssueBridge.config := "bridge.json";
     DiscordIssueBridge.state := None;
     DiscordIssueBridge.since := None;
     DiscordIssueBridge.max_threads := None;
     DiscordIssueBridge.dry_run := false;
     DiscordIssueBridge.offline_sample := Some sample_fixture;
     DiscordIssueBridge.verbose := false |}.

(** An environment without tokens. *)
Definition no_tokens : DiscordIssueBridge.Environ :=
  {| DiscordIssueBridge.DISCORD_BOT_TOKEN := None;
     DiscordIssueBridge.GITHUB_TOKEN := None |}.

(** * Lemmas *)

(** ** Rendering *)

Lemma sub_placeholders_match context c r key rest :
  match_placeholder (String c r) = Some (key, rest) ->
  sub_placeholders context (String c r) =
  match context !! key with
  | None => Raise (KeyError key)
  | Some v => result_map (String.append v) (sub_placeholders context rest)
  end.
Proof.
  intros H. rewrite sub_placeholders_equation_2.
  generalize (inspect (match_placeholder (String c r))).
  intros [o e]. assert (o = Some (key, rest)) as -> by congruence.
  rewrite sub_placeholders_clause_2_equation_1.
  destruct (context !! key); simp sub_placeholders; reflexivity.
Qed.

Lemma sub_placeholders_no_match context c r :
  match_placeholder (String c r) = None ->
  sub_placeholders context (String c r) =
  result_map (String c) (sub_placeholders context r).
Proof.
  intros H. rewrite sub_placeholders_equation_2.
  generalize (inspect (match_placeholder (String c r))).
  intros [o e]. assert (o = None) as -> by congruence.
  rewrite sub_placeholders_clause_2_equation_2. reflexivity.
Qed.

Lemma space_not_ident c : PyStr.is_space c = true -> is_ident_char c = false.
Proof. destruct c as [[] [] [] [] [] [] [] []]; vm_compute; congruence. Qed.

Lemma ident_not_space c : is_ident_char c = true -> PyStr.is_space c = false.
Proof. destruct c as [[] [] [] [] [] [] [] []]; vm_compute; congruence. Qed.

Lemma append_nil (s : string) : "" +:+ s = s.
Proof. reflexivity. Qed.

Lemma append_cons (c : ascii) (a b : string) :
  String c a +:+ b = String c (a +:+ b).
Proof. reflexivity. Qed.

Lemma append_empty_r (s : string) : s +:+ "" = s.
Proof.
  induction s as [|c s IH]; [reflexivity|].
  rewrite append_cons. now rewrite IH.
Qed.

Lemma append_assoc (a b c : string) : (a +:+ b) +:+ c = a +:+ (b +:+ c).
Proof.
  induction a as [|x a IH]; [reflexivity|].
  rewrite !append_cons. now rewrite IH.
Qed.

Lemma skip_space_app b s :
  all_chars PyStr.is_space b = true -> skip_space (b +:+ s) = skip_space s.
Proof.
  induction b as [|c b IH]; [reflexivity|].
  rewrite append_cons. simpl.
  intros H. apply andb_prop in H as [Hc Hb]. rewrite Hc. auto.
Qed.

Lemma span_ident_app k s :
  all_chars is_ident_char k = true ->
  span_ident (k +:+ s) = (k +:+ (span_ident s).1, (span_ident s).2).
Proof.
  induction k as [|c k IH].
  - intros _. rewrite !append_nil. now destruct (span_ident s).
  - rewrite !append_cons. simpl.
    intros H. apply andb_prop in H as [Hc Hk]. rewrite Hc, (IH Hk). reflexivity.
Qed.

Lemma span_ident_after a rest :
  all_chars PyStr.is_space a = true ->
  span_ident (a +:+ "}}" +:+ rest) = ("", a +:+ "}}" +:+ rest).
Proof.
  destruct a as [|c a]; [reflexivity|].
  rewrite append_cons. simpl.
  intros H. apply andb_prop in H as [Hc _].
  now rewrite (space_not_ident _ Hc).
Qed.

Lemma hole_text_app before key after rest :
  segment_text (Hole before key after) +:+ rest
  = String "{" (String "{" (before +:+ key +:+ after +:+ "}}" +:+ rest)).
Proof. unfold segment_text. rewrite !append_assoc. reflexivity. Qed.

Lemma match_placeholder_hole before key after rest :
  hole_ok before key after = true ->
  match_placeholder
    (String "{" (String "{" (before +:+ key +:+ after +:+ "}}" +:+ rest)))
  = Some (key, rest).
Proof.
  unfold hole_ok. intros H.
  apply andb_prop in H as [H Ha]. apply andb_prop in H as [H Hk].
  apply andb_prop in H as [Hb Hne].
  unfold match_placeholder.
  rewrite (skip_space_app _ _ Hb).
  destruct key as [|c key]; [discriminate|].
  simpl in Hk. apply andb_prop in Hk as [Hc Hk].
  rewrite append_cons.
  simpl skip_space. rewrite (ident_not_space _ Hc).
  simpl span_ident. rewrite Hc.
  rewrite (span_ident_app _ _ Hk), span_ident_after by assumption.
  simpl fst. simpl snd. rewrite append_empty_r, (skip_space_app _ _ Ha).
  reflexivity.
Qed.

Lemma result_map_compose {A B C : Type} (f : A -> B) (g : B -> C) r :
  result_map g (result_map f r) = result_map (fun a => g (f a)) r.
Proof. now destruct r. Qed.

Lemma span_ident_chars s : all_chars is_ident_char (span_ident s).1 = true.
Proof.
  induction s as [|c r IH]; simpl; [reflexivity|].
  destruct (is_ident_char c) eqn:E; [|reflexivity].
  destruct (span_ident r) as [k rest]. simpl in *. now rewrite E, IH.
Qed.

Lemma match_placeholder_key s key rest :
  match_placeholder s = Some (key, rest) ->
  PyStr.truthy key = true ∧ all_chars is_ident_char key = true.
Proof.
  unfold match_placeholder. intros H.
  destruct s as [|c1 s']; [discriminate|].
  destruct (Ascii.eqb_spec c1 "{") as [->|Hne].
  2:{ destruct c1 as [[] [] [] [] [] [] [] []]; try discriminate H.
      now contradiction Hne. }
  destruct s' as [|c2 r]; [discriminate|].
  destruct (Ascii.eqb_spec c2 "{") as [->|Hne].
  2:{ destruct c2 as [[] [] [] [] [] [] [] []]; try discriminate H.
      now contradiction Hne. }
  pose proof (span_ident_chars (skip_space r)) as Hchars.
  destruct (span_ident (skip_space r)) as [k r2].
  destruct (PyStr.truthy k) eqn:Hk; [|discriminate].
  destruct (skip_space r2) as [|d1 s2]; [discriminate|].
  destruct d1 as [[] [] [] [] [] [] [] []]; try discriminate H.
  destruct s2 as [|d2 r4]; [discriminate|].
  destruct d2 as [[] [] [] [] [] [] [] []]; try discriminate H.
  inversion H; subst. auto.
Qed.

(** Induction on texts along the scan of [sub_placeholders]: a step goes
    to the text after a placeholder or past one character. *)
Lemma scan_ind (P : string -> Prop) :
  P "" ->
  (forall c r key rest,
     match_placeholder (String c r) = Some (key, rest) -> P rest ->
     P (String c r)) ->
  (forall c r, match_placeholder (String c r) = None -> P r -> P (String c r)) ->
  forall s, P s.
Proof.
  intros Hnil Hmatch Hcopy s.
  remember (String.length s) as n eqn:Hn.
  revert s Hn. induction n as [n IH] using lt_wf_ind. intros s Hn.
  destruct s as [|c r]; [exact Hnil|].
  destruct (match_placeholder (String c r)) as [[key rest]|] eqn:Hm.
  - apply (Hmatch c r key rest Hm).
    apply (IH (String.length rest)); [|reflexivity].
    apply match_placeholder_length in Hm. lia.
  - apply (Hcopy c r Hm).
    apply (IH (String.length r)); [|reflexivity]. simpl in Hn. lia.
Qed.

Lemma expand_present context segs :
  (forall key, key ∈ hole_keys segs -> is_Some (context !! key)) ->
  exists out, expand context segs = Ok out.
Proof.
  induction segs as [|seg segs IH]; simpl; intros Hall.
  - now exists "".
  - destruct seg as [text|before k after].
    + destruct (IH Hall) as (out & ->). now eexists.
    + destruct (Hall k) as (v & ->); [left|].
      destruct IH as (out & ->); [|now eexists].
      intros key Hkey. apply Hall. now right.
Qed.

Lemma skip_space_split s :
  exists b, all_chars PyStr.is_space b = true ∧ s = b +:+ skip_space s.
Proof.
  induction s as [|c r (b & Hb & Hr)].
  - now exists "".
  - simpl. destruct (PyStr.is_space c) eqn:Hc.
    + exists (String c b). simpl. rewrite Hc, Hb. split; [reflexivity|].
      rewrite append_cons. now rewrite <- Hr.
    + now exists "".
Qed.

Lemma span_ident_split s : s = (span_ident s).1 +:+ (span_ident s).2.
Proof.
  induction s as [|c r IH]; [reflexivity|].
  simpl. destruct (is_ident_char c); [|reflexivity].
  destruct (span_ident r) as [k rest]. simpl in *.
  rewrite append_cons. now rewrite <- IH.
Qed.

Lemma match_placeholder_inv s key rest :
  match_placeholder s = Some (key, rest) -> placeholder_at s key rest.
Proof.
  intros H. destruct (match_placeholder_key _ _ _ H) as [Hne Hchars].
  unfold match_placeholder in H.
  destruct s as [|c1 s']; [discriminate|].
  destruct (Ascii.eqb_spec c1 "{") as [->|Hc].
  2:{ destruct c1 as [[] [] [] [] [] [] [] []]; try discriminate H.
      now contradiction Hc. }
  destruct s' as [|c2 r]; [discriminate|].
  destruct (Ascii.eqb_spec c2 "{") as [->|Hc].
  2:{ destruct c2 as [[] [] [] [] [] [] [] []]; try discriminate H.
      now contradiction Hc. }
  destruct (skip_space_split r) as (before & Hbefore & Hr).
  pose proof (span_ident_split (skip_space r)) as Hspan.
  destruct (span_ident (skip_space r)) as [k r2].
  destruct (PyStr.truthy k); [|discriminate].
  destruct (skip_space_split r2) as (after & Hafter & Hr2).
  destruct (skip_space r2) as [|d1 s2]; [discriminate|].
  destruct (Ascii.eqb_spec d1 "}") as [->|Hd].
  2:{ destruct d1 as [[] [] [] [] [] [] [] []]; try discriminate H.
      now contradiction Hd. }
  destruct s2 as [|d2 r4]; [discriminate|].
  destruct (Ascii.eqb_spec d2 "}") as [->|Hd].
  2:{ destruct d2 as [[] [] [] [] [] [] [] []]; try discriminate H.
      now contradiction Hd. }
  injection H as <- <-. cbn [fst snd] in Hspan.
  exists before, after. split.
  - unfold hole_ok. now rewrite Hbefore, Hne, Hchars, Hafter.
  - rewrite hole_text_app. do 2 f_equal.
    rewrite Hr, Hspan, Hr2. reflexivity.
Qed.

Lemma placeholder_at_match s key rest :
  placeholder_at s key rest -> match_placeholder s = Some (key, rest).
Proof.
  intros (before & after & Hok & ->).
  rewrite hole_text_app. now apply match_placeholder_hole.
Qed.

Lemma no_match_in_spec text rest :
  no_match_in text rest = true -> no_placeholder_in text rest.
Proof.
  induction text as [|c t IH]; cbn [no_match_in];
    intros H a b key after Hsplit Hb Hat.
  - destruct a as [|c a]; [|rewrite append_cons in Hsplit; discriminate Hsplit].
    rewrite append_nil in Hsplit. now subst b.
  - revert H.
    destruct (match_placeholder (String c (t +:+ rest))) eqn:Hm; [discriminate|].
    intros H. destruct a as [|c' a].
    + rewrite append_nil in Hsplit. subst b.
      apply placeholder_at_match in Hat. rewrite append_cons in Hat. congruence.
    + rewrite append_cons in Hsplit. injection Hsplit as -> ->.
      exact (IH H a b key after eq_refl Hb Hat).
Qed.

Lemma cut_ok_spec segs : cut_ok segs = true -> well_cut segs.
Proof.
  induction segs as [|[text|before key after] later IH]; simpl; intros H.
  - exact I.
  - apply andb_prop in H as [Ht Hl]. split; [now apply no_match_in_spec|auto].
  - apply andb_prop in H as [Hh Hl]. split; [exact Hh|auto].
Qed.

Lemma no_placeholder_in_cons c text rest :
  no_placeholder_in (String c text) rest ->
  match_placeholder (String c (text +:+ rest)) = None
  ∧ no_placeholder_in text rest.
Proof.
  intros H. split.
  - destruct (match_placeholder (String c (text +:+ rest))) as [[key after]|] eqn:Hm;
      [|reflexivity].
    apply match_placeholder_inv in Hm.
    now contradiction (H "" (String c text) key after eq_refl).
  - intros a b key after -> Hb. exact (H (String c a) b key after eq_refl Hb).
Qed.

Lemma sub_placeholders_no_placeholder context text rest :
  no_placeholder_in text rest ->
  sub_placeholders context (text +:+ rest)
  = result_map (String.append text) (sub_placeholders context rest).
Proof.
  induction text as [|c text IH]; intros H.
  - rewrite append_nil. now destruct (sub_placeholders context rest).
  - apply no_placeholder_in_cons in H as [Hm Ht].
    rewrite append_cons, (sub_placeholders_no_match _ _ _ Hm), (IH Ht).
    now rewrite result_map_compose.
Qed.

Lemma render_well_cut context segs :
  well_cut segs -> render (template_of segs) context = expand context segs.
Proof.
  unfold render. induction segs as [|[text|before key after] later IH];
    cbn [template_of well_cut expand]; intros H.
  - now simp sub_placeholders.
  - destruct H as [Ht Hl]. cbn [segment_text].
    now rewrite (sub_placeholders_no_placeholder _ _ _ Ht), (IH Hl).
  - destruct H as [Hh Hl]. rewrite hole_text_app.
    rewrite (sub_placeholders_match _ _ _ _ _
               (match_placeholder_hole _ _ _ (template_of later) Hh)), (IH Hl).
    reflexivity.
Qed.

Lemma every_template_cut template :
  exists segs, template_of segs = template ∧ well_cut segs.
Proof.
  induction template as [|c r key rest Hm (segs & Ht & Hw)|c r Hm (segs & Ht & Hw)]
    using scan_ind.
  - now exists [].
  - destruct (match_placeholder_inv _ _ _ Hm) as (before & after & Hok & Hs).
    exists (Hole before key after :: segs). split; [|now split].
    cbn [template_of]. now rewrite Ht, Hs.
  - exists (Lit (String c "") :: segs). split; [cbn [template_of segment_text]; now rewrite Ht|].
    split; [|exact Hw]. apply no_match_in_spec. cbn [no_match_in].
    rewrite append_nil, Ht, Hm. reflexivity.
Qed.

(** The first placeholder whose identifier the context lacks decides the
    error. *)
Lemma expand_first_missing context segs key :
  key ∈ hole_keys segs -> context !! key = None ->
  exists before k after,
    hole_keys segs = before ++ k :: after
    ∧ (forall k', k' ∈ before -> is_Some (context !! k'))
    ∧ context !! k = None
    ∧ expand context segs = Raise (KeyError k).
Proof.
  induction segs as [|seg segs IH]; simpl; intros Hin Hnone.
  - now apply elem_of_nil in Hin.
  - destruct seg as [text|b k a].
    + destruct (IH Hin Hnone) as (before & k' & after & Hkeys & Hbefore & Hk' & ->).
      now exists before, k', after.
    + destruct (context !! k) as [v|] eqn:E.
      * apply elem_of_cons in Hin as [->|Hin]; [congruence|].
        destruct (IH Hin Hnone) as (before & k' & after & Hkeys & Hbefore & Hk' & ->).
        exists (k :: before), k', after. rewrite Hkeys.
        split; [reflexivity|]. split; [|now split].
        intros k'' Hk''. apply elem_of_cons in Hk'' as [->|Hk''];
          [now rewrite E|now apply Hbefore].
      * exists [], k, (hole_keys segs). split; [reflexivity|].
        split; [|now split]. intros k' Hk'. now apply elem_of_nil in Hk'.
Qed.

(** ** Labels *)

Lemma elem_of_dedup_first x l : x ∈ dedup_first l ↔ x ∈ l.
Proof.
  induction l as [|y l IH]; simpl; [reflexivity|].
  rewrite !elem_of_cons, list_elem_of_filter, IH.
  destruct (decide (x = y)) as [->|Hne]; tauto.
Qed.

Lemma dedup_first_snoc pre x :
  dedup_first (pre ++ [x])
  = if decide (x ∈ pre) then dedup_first pre else dedup_first pre ++ [x].
Proof.
  induction pre as [|p pre IH]; simpl.
  - destruct (decide (x ∈ [])) as [H|_]; [|reflexivity].
    now apply elem_of_nil in H.
  - rewrite IH. destruct (decide (x ∈ pre)) as [Hin|Hnin].
    + rewrite decide_True by (right; exact Hin). reflexivity.
    + rewrite filter_app. destruct (decide (x = p)) as [->|Hne].
      * rewrite decide_True by left.
        rewrite filter_cons_False by (intros H; now apply H).
        now rewrite filter_nil, app_nil_r.
      * rewrite decide_False by (rewrite elem_of_cons; tauto).
        now rewrite filter_cons_True by exact Hne.
Qed.

Lemma add_labels_spec new : forall pre seen,
  (forall x, x ∈ seen ↔ x ∈ pre) ->
  (add_labels new (dedup_first pre, seen)).1 = dedup_first (pre ++ new)
  ∧ (forall x, x ∈ (add_labels new (dedup_first pre, seen)).2 ↔ x ∈ pre ++ new).
Proof.
  induction new as [|label rest IH]; intros pre seen Hseen; simpl.
  - rewrite app_nil_r. auto.
  - replace (pre ++ label :: rest) with ((pre ++ [label]) ++ rest)
      by (now rewrite <- app_assoc).
    pose proof (dedup_first_snoc pre label) as Hs.
    case_bool_decide as Hin.
    + apply Hseen in Hin. rewrite decide_True in Hs by exact Hin.
      rewrite <- Hs. apply IH. intros x.
      rewrite Hseen, elem_of_app, list_elem_of_singleton.
      split; [tauto | intros [H | ->]; assumption].
    + rewrite Hseen in Hin. rewrite decide_False in Hs by exact Hin.
      rewrite <- Hs. apply IH. intros x.
      rewrite elem_of_union, elem_of_singleton, Hseen, elem_of_app,
        list_elem_of_singleton.
      tauto.
Qed.

Lemma has_nonspace_app a b :
  has_nonspace (a +:+ b) = has_nonspace a || has_nonspace b.
Proof.
  induction a as [|c a IH]; [reflexivity|].
  rewrite append_cons. simpl. rewrite IH. now rewrite orb_assoc.
Qed.

Lemma has_nonspace_lstrip s : has_nonspace (PyStr.lstrip s) = has_nonspace s.
Proof.
  induction s as [|c s IH]; simpl; [reflexivity|].
  destruct (PyStr.is_space c) eqn:E; simpl; [exact IH | now rewrite E].
Qed.

Lemma truthy_lstrip s : PyStr.truthy (PyStr.lstrip s) = has_nonspace s.
Proof.
  induction s as [|c s IH]; simpl; [reflexivity|].
  destruct (PyStr.is_space c); simpl; [exact IH | reflexivity].
Qed.

Lemma has_nonspace_rev_app a b :
  has_nonspace (String.rev_app a b) = has_nonspace a || has_nonspace b.
Proof.
  revert b. induction a as [|c a IH]; intros b; simpl; [reflexivity|].
  rewrite IH. simpl. destruct (PyStr.is_space c), (has_nonspace a); simpl; auto.
Qed.

Lemma has_nonspace_rev s : has_nonspace (String.rev s) = has_nonspace s.
Proof. unfold String.rev. rewrite has_nonspace_rev_app. simpl. apply orb_false_r. Qed.

Lemma truthy_rev_app a b :
  PyStr.truthy (String.rev_app a b) = PyStr.truthy a || PyStr.truthy b.
Proof.
  revert b. induction a as [|c a IH]; intros b; simpl; [reflexivity|].
  rewrite IH. simpl. apply orb_true_r.
Qed.

Lemma truthy_strip s : PyStr.truthy (PyStr.strip s) = has_nonspace s.
Proof.
  unfold PyStr.strip, PyStr.rstrip, String.rev at 1.
  rewrite truthy_rev_app. simpl. rewrite orb_false_r.
  now rewrite truthy_lstrip, has_nonspace_rev, has_nonspace_lstrip.
Qed.

Lemma has_nonspace_strip s : has_nonspace (PyStr.strip s) = has_nonspace s.
Proof.
  unfold PyStr.strip, PyStr.rstrip.
  now rewrite has_nonspace_rev, has_nonspace_lstrip, has_nonspace_rev,
    has_nonspace_lstrip.
Qed.

Lemma is_space_lower_char c :
  PyStr.is_space (PyStr.lower_char c) = PyStr.is_space c.
Proof. destruct c as [[] [] [] [] [] [] [] []]; reflexivity. Qed.

Lemma has_nonspace_lower s : has_nonspace (PyStr.lower s) = has_nonspace s.
Proof.
  induction s as [|c s IH]; simpl; [reflexivity|].
  now rewrite is_space_lower_char, IH.
Qed.

Lemma has_nonspace_replace s :
  has_nonspace s = true -> has_nonspace (PyStr.replace_char " " "-" s) = true.
Proof.
  induction s as [|c s IH]; simpl; [discriminate|].
  intros H. apply orb_prop in H as [H|H].
  - destruct (Ascii.eqb c " "); [reflexivity | now rewrite H].
  - rewrite (IH H). apply orb_true_r.
Qed.

Lemma truthy_lower s : PyStr.truthy (PyStr.lower s) = PyStr.truthy s.
Proof. now destruct s. Qed.

Lemma truthy_replace a b s :
  PyStr.truthy (PyStr.replace_char a b s) = PyStr.truthy s.
Proof. now destruct s. Qed.

Lemma has_nonspace_sanitize value :
  has_nonspace (_sanitize_label value) = true.
Proof.
  unfold _sanitize_label, PyStr.or_else.
  destruct (PyStr.truthy _) eqn:E; [|reflexivity].
  rewrite truthy_replace, truthy_lower, truthy_strip in E.
  apply has_nonspace_replace.
  now rewrite has_nonspace_lower, has_nonspace_strip.
Qed.

Lemma fallback_label_truthy config tags tag_id :
  PyStr.truthy (fallback_label config tags tag_id) = true.
Proof.
  unfold fallback_label.
  rewrite truthy_strip, has_nonspace_app, has_nonspace_sanitize.
  apply orb_true_r.
Qed.

Lemma add_tag_labels_step config tags tag_id rest acc :
  add_tag_labels config tags (tag_id :: rest) acc
  = add_tag_labels config tags rest (add_labels (tag_labels config tags tag_id) acc).
Proof.
  simpl. unfold tag_labels.
  destruct (tag_label_map config !! tag_id) as [[|l ls]|]; try reflexivity.
  all: fold (fallback_label config tags tag_id);
    rewrite fallback_label_truthy; simpl;
    now destruct (bool_decide _).
Qed.

Lemma add_tag_labels_spec config tags tag_ids : forall pre seen,
  (forall x, x ∈ seen ↔ x ∈ pre) ->
  (add_tag_labels config tags tag_ids (dedup_first pre, seen)).1
  = dedup_first (pre ++ concat (map (tag_labels config tags) tag_ids)).
Proof.
  induction tag_ids as [|tag_id rest IH]; intros pre seen Hseen.
  - simpl. now rewrite app_nil_r.
  - rewrite add_tag_labels_step.
    destruct (add_labels_spec (tag_labels config tags tag_id) pre seen Hseen)
      as [H1 H2].
    destruct (add_labels _ _) as [acc' seen'] eqn:E. simpl in H1, H2. subst acc'.
    rewrite (IH _ _ H2). simpl. now rewrite app_assoc.
Qed.

Lemma build_labels_dedup config tags thread :
  _build_labels config tags thread
  = dedup_first (default_labels config ++
      concat (map (tag_labels config tags) (th_applied_tag_ids thread))).
Proof.
  unfold _build_labels.
  assert (H0 : forall x : string, x ∈ (∅ : gset string) ↔ x ∈ @nil string).
  { intros x. rewrite elem_of_nil. set_solver. }
  destruct (add_labels_spec (default_labels config) [] ∅ H0) as [H1 H2].
  change (dedup_first []) with (@nil string) in *. simpl app in *.
  destruct (add_labels _ _) as [acc' seen'] eqn:E. simpl in H1, H2. subst acc'.
  apply add_tag_labels_spec. exact H2.
Qed.

(** ** What fetching leaves alone *)

Lemma same_store_refl w : same_store w w.
Proof. unfold same_store. auto 10. Qed.

Lemma same_store_trans w1 w2 w3 :
  same_store w1 w2 -> same_store w2 w3 -> same_store w1 w3.
Proof.
  unfold same_store. intros (?&?&?&?&?&?) (?&?&?&?&?&?).
  repeat split; try congruence. lia.
Qed.

Lemma bind_Ok {A B : Type} (m : M A) (k : A -> M B) env w b w' :
  bind m k env w = (Ok b, w') ->
  exists a w1, m env w = (Ok a, w1) ∧ k a env w1 = (Ok b, w').
Proof.
  unfold bind. destruct (m env w) as [[a|e] w1]; [eauto | discriminate].
Qed.

Lemma keeps_ret {A : Type} (a : A) : keeps_store (ret a).
Proof. intros env w. apply same_store_refl. Qed.

Lemma keeps_raise {A : Type} e : keeps_store (@raise A e).
Proof. intros env w. apply same_store_refl. Qed.

Lemma keeps_lift_result {A : Type} (r : result A) : keeps_store (lift_result r).
Proof. intros env w. apply same_store_refl. Qed.

Lemma keeps_get_world : keeps_store get_world.
Proof. intros env w. apply same_store_refl. Qed.

Lemma keeps_now : keeps_store now.
Proof. intros env w. unfold same_store. simpl. auto 10. Qed.

(** [time.sleep] in terms of the number of seconds itself: the tests on
    the count of nanoseconds are tests on where the number lies. *)
Lemma sleep_spec secs env w :
  sleep secs env w =
  match refused secs with
  | None => (Ok tt, napped secs w)
  | Some e => (Raise e, w)
  end.
Proof.
  unfold sleep, refused, nanoseconds, longest_sleep, lowest_sleep, Qle_bool.
  destruct secs as [n d]. cbn [Qnum Qden].
  change (Z.pos (10 ^ 9)) with (10 ^ 9).
  set (c := 2 ^ 63). assert (Hc : 0 < c) by (unfold c; lia).
  set (g := 10 ^ 9). assert (Hg : 0 < g) by (unfold g; lia).
  clearbody c g.
  pose proof (Pos2Z.is_pos d) as Hd.
  pose proof (Z.div_mod (n * g) (Z.pos d) ltac:(lia)) as Hq1.
  pose proof (Z.mod_pos_bound (n * g) (Z.pos d) Hd) as Hr1.
  pose proof (Z.div_mod (- (n * g)) (Z.pos d) ltac:(lia)) as Hq2.
  pose proof (Z.mod_pos_bound (- (n * g)) (Z.pos d) Hd) as Hr2.
  set (D := Z.pos d) in *. clearbody D.
  set (k1 := n * g / D) in *. set (r1 := (n * g) mod D) in *.
  set (k2 := - (n * g) / D) in *. set (r2 := (- (n * g)) mod D) in *.
  clearbody k1 r1 k2 r2.
  destruct (Z.leb_spec 0 (n * g)) as [Hn|Hn].
  - assert (Hk : 0 <= - k2) by nia.
    destruct (Z.ltb_spec (- k2) (- c)) as [H1|H1]; [lia|].
    destruct (Z.leb_spec (- c * D) (n * g)) as [H2|H2]; [|nia].
    destruct (Z.leb_spec c (- k2)) as [H3|H3];
      destruct (Z.leb_spec (n * g) ((c - 1) * D)) as [H4|H4]; try nia; cbn.
    + reflexivity.
    + destruct (Z.ltb_spec (- k2) 0) as [H5|H5]; [lia|].
      destruct (Z.leb_spec (0 * D) (n * 1)) as [H6|H6]; [reflexivity|nia].
  - assert (Hk : k1 < 0) by nia.
    destruct (Z.leb_spec (n * g) ((c - 1) * D)) as [H4|H4]; [|nia].
    destruct (Z.leb_spec c k1) as [H3|H3]; [lia|].
    rewrite orb_false_r, andb_true_r.
    destruct (Z.ltb_spec k1 (- c)) as [H1|H1];
      destruct (Z.leb_spec (- c * D) (n * g)) as [H2|H2]; try nia; cbn.
    + reflexivity.
    + destruct (Z.ltb_spec k1 0) as [H5|H5]; [|lia].
      destruct (Z.leb_spec (0 * D) (n * 1)) as [H6|H6]; [nia|reflexivity].
Qed.

Lemma refused_inject (z : Z) : 0 <= z <= 30 -> refused (inject_Z z) = None.
Proof.
  intros Hz. unfold refused, Qle_bool, lowest_sleep, longest_sleep, inject_Z.
  cbn [Qnum Qden]. change (Z.pos (10 ^ 9)) with (10 ^ 9).
  destruct (Z.leb_spec (- 2 ^ 63 * 1) (z * 10 ^ 9)); [|lia].
  destruct (Z.leb_spec (z * 10 ^ 9) ((2 ^ 63 - 1) * 1)); [|lia].
  destruct (Z.leb_spec (0 * 1) (z * 1)); [reflexivity|lia].
Qed.

(** The delays of the backoff schedule are sleeps that [time.sleep]
    takes. *)
Lemma sleep_with_backoff_spec attempt env w :
  _sleep_with_backoff attempt env w = (Ok tt, napped (backoff attempt) w).
Proof.
  unfold _sleep_with_backoff. rewrite sleep_spec, refused_inject; [reflexivity|].
  pose proof (Z.pow_nonneg 2 attempt ltac:(lia)). lia.
Qed.

Lemma keeps_suspend delay : keeps_store (suspend delay).
Proof. intros env w. unfold same_store. simpl. auto 10. Qed.

Lemma keeps_sleep delay : keeps_store (sleep delay).
Proof.
  intros env w. rewrite sleep_spec.
  destruct (refused delay); [apply same_store_refl|].
  apply (keeps_suspend delay env w).
Qed.

Lemma keeps_urlopen path : keeps_store (urlopen path).
Proof. intros env w. unfold same_store. simpl. auto 10. Qed.

Lemma keeps_set_available_tags tags :
  keeps_store (modify (set_available_tags tags)).
Proof. intros env w. unfold same_store. simpl. auto 10. Qed.

Lemma keeps_bind {A B : Type} (m : M A) (k : A -> M B) :
  keeps_store m -> (forall a, keeps_store (k a)) -> keeps_store (bind m k).
Proof.
  intros Hm Hk env w. unfold bind.
  specialize (Hm env w). destruct (m env w) as [[a|e] w1]; simpl in Hm.
  - eapply same_store_trans; [exact Hm | apply Hk].
  - exact Hm.
Qed.

Lemma keeps_mapM {A B : Type} (f : A -> M B) l :
  (forall a, keeps_store (f a)) -> keeps_store (mapM f l).
Proof.
  intros Hf. induction l as [|a l IH]; simpl.
  - apply keeps_ret.
  - apply keeps_bind; [apply Hf|]. intros b.
    apply keeps_bind; [exact IH|]. intros bs. apply keeps_ret.
Qed.

Create HintDb keeps discriminated.

#[local] Hint Resolve keeps_ret keeps_raise keeps_lift_result keeps_get_world
  keeps_now keeps_sleep keeps_urlopen keeps_set_available_tags : keeps.

(** One step through a computation: a primitive, a bind, or a case. *)
Ltac keeps_step :=
  first
    [ solve [auto with keeps]
    | apply keeps_bind; [|intros ?]
    | match goal with
      | |- keeps_store (match ?x with _ => _ end) => destruct x
      | |- keeps_store (if ?b then _ else _) => destruct b
      end ].

Lemma keeps_execute_attempts max_retries path attempts :
  keeps_store (execute_attempts max_retries path attempts).
Proof.
  induction attempts as [|attempt later IH]; simpl.
  - apply keeps_raise.
  - unfold _sleep_with_backoff. repeat keeps_step.
Qed.

Lemma keeps_get self path : keeps_store (_get self path).
Proof.
  unfold _get, _execute.
  destruct path as [|c path]; [apply keeps_raise|].
  destruct (Ascii.eqb_spec c "/") as [->|Hne].
  - apply keeps_execute_attempts.
  - destruct c as [[] [] [] [] [] [] [] []];
      first [apply keeps_raise | apply keeps_execute_attempts].
Qed.

Lemma keeps_execute self path : keeps_store (_execute self path).
Proof. apply keeps_execute_attempts. Qed.

Lemma keeps_parse_timestamp value : keeps_store (_parse_timestamp value).
Proof. unfold _parse_timestamp. repeat keeps_step. Qed.

Lemma keeps_extract_created_at tp : keeps_store (_extract_created_at tp).
Proof.
  unfold _extract_created_at.
  destruct (match tp_thread_metadata tp with Some _ => _ | None => _ end);
    apply keeps_parse_timestamp.
Qed.

Lemma keeps_message_from_payload p : keeps_store (_message_from_payload p).
Proof.
  unfold _message_from_payload.
  apply keeps_bind; [apply keeps_parse_timestamp|]. intros ?. apply keeps_ret.
Qed.

Lemma keeps_fetch_thread_messages self tid :
  keeps_store (fetch_thread_messages self tid).
Proof.
  unfold fetch_thread_messages, expect_messages.
  destruct (offline_payload self).
  - destruct (find _ _); [|apply keeps_ret].
    apply keeps_mapM, keeps_message_from_payload.
  - apply keeps_bind; [first [apply keeps_get | apply keeps_execute]|]. intros b.
    apply keeps_bind; [destruct b; keeps_step|]. intros ms.
    apply keeps_mapM, keeps_message_from_payload.
Qed.

Lemma keeps_fetch_channel_metadata self :
  keeps_store (_fetch_channel_metadata self).
Proof.
  unfold _fetch_channel_metadata, expect_channel.
  apply keeps_bind; [apply keeps_get_world|]. intros w.
  destruct (negb _); [apply keeps_ret|].
  apply keeps_bind; [first [apply keeps_get | apply keeps_execute]|]. intros b.
  repeat keeps_step.
Qed.

Lemma keeps_offline_loop payload since limit todo : forall threads,
  keeps_store (offline_loop payload since limit todo threads).
Proof.
  induction todo as [|tp later IH]; intros threads; simpl.
  - apply keeps_ret.
  - apply keeps_bind; [apply keeps_parse_timestamp|]. intros c.
    destruct (since_excludes since c); [apply IH|].
    apply keeps_bind; [apply keeps_mapM, keeps_message_from_payload|].
    intros [|m ms]; [apply IH|].
    destruct (limit_reached _ _); [apply keeps_ret | apply IH].
Qed.

Lemma keeps_live_loop self since limit todo : forall threads,
  keeps_store (live_loop self since limit todo threads).
Proof.
  induction todo as [|tp later IH]; intros threads; simpl.
  - apply keeps_ret.
  - apply keeps_bind; [apply keeps_extract_created_at|]. intros c.
    destruct (since_excludes since c); [apply IH|].
    apply keeps_bind; [unfold require_id; repeat keeps_step|]. intros tid.
    apply keeps_bind; [apply keeps_fetch_thread_messages|].
    intros [|m ms]; [apply IH|].
    destruct (limit_reached _ _); [apply keeps_ret | apply IH].
Qed.

Lemma keeps_last_thread_id payload : keeps_store (last_thread_id payload).
Proof. unfold last_thread_id, require_id. repeat keeps_step. Qed.

Lemma keeps_expect_thread_list b : keeps_store (expect_thread_list b).
Proof. destruct b; simpl; keeps_step. Qed.

Lemma keeps_archived_pages fuel self endpoint limit :
  forall payload before collected,
  keeps_store (archived_pages fuel self endpoint limit payload before collected).
Proof.
  induction fuel as [|fuel IH]; intros payload before collected; simpl.
  - repeat keeps_step.
  - destruct (tl_has_more payload); [|apply keeps_ret].
    destruct before as [cursor|]; [|apply keeps_ret].
    destruct (PyStr.truthy cursor); [|apply keeps_ret].
    apply keeps_bind; [first [apply keeps_get | apply keeps_execute]|]. intros b.
    apply keeps_bind; [apply keeps_expect_thread_list|]. intros p.
    destruct (limit_reached _ _); [apply keeps_ret|].
    apply keeps_bind; [apply keeps_last_thread_id|]. intros bf. apply IH.
Qed.

Lemma keeps_collect_endpoints fuel self limit endpoints : forall collected,
  keeps_store (collect_endpoints fuel self limit endpoints collected).
Proof.
  induction endpoints as [|endpoint later IH]; intros collected; simpl.
  - apply keeps_ret.
  - apply keeps_bind; [first [apply keeps_get | apply keeps_execute]|]. intros b.
    apply keeps_bind; [apply keeps_expect_thread_list|]. intros p.
    destruct (limit_reached _ _); [apply keeps_ret|].
    destruct (_ && _); [|apply IH].
    apply keeps_bind; [apply keeps_last_thread_id|]. intros bf.
    apply keeps_bind; [apply keeps_archived_pages|]. intros c.
    destruct (limit_reached _ _); [apply keeps_ret | apply IH].
Qed.

Lemma keeps_fetch_threads fuel self since limit :
  keeps_store (fetch_threads fuel self since limit).
Proof.
  unfold fetch_threads, _threads_from_offline.
  destruct (offline_payload self).
  - apply keeps_bind; [apply keeps_offline_loop|]. intros ?. apply keeps_ret.
  - apply keeps_bind; [apply keeps_fetch_channel_metadata|]. intros _.
    apply keeps_bind; [apply keeps_collect_endpoints|]. intros c.
    apply keeps_bind; [apply keeps_live_loop|]. intros ?. apply keeps_ret.
Qed.

(** ** The threads fetched *)

Lemma insert_thread_perm t l : insert_thread t l ≡ₚ t :: l.
Proof.
  induction l as [|u l IH]; simpl; [reflexivity|].
  destruct (th_created_at t <=? th_created_at u); [reflexivity|].
  rewrite IH. apply perm_swap.
Qed.

Lemma sort_threads_perm l : sort_threads l ≡ₚ l.
Proof.
  induction l as [|t l IH]; simpl; [reflexivity|].
  now rewrite insert_thread_perm, IH.
Qed.

Lemma insert_thread_sorted t l :
  StronglySorted created_le l -> StronglySorted created_le (insert_thread t l).
Proof.
  induction l as [|u l IH]; simpl; intros Hs.
  - repeat constructor.
  - apply StronglySorted_inv in Hs as [Hl Hu].
    destruct (Z.leb_spec (th_created_at t) (th_created_at u)) as [Hle|Hgt].
    + constructor; [constructor; assumption|].
      constructor; [exact Hle|].
      eapply Forall_impl; [exact Hu|]. unfold created_le. intros; lia.
    + constructor; [apply IH, Hl|].
      rewrite insert_thread_perm. constructor; [unfold created_le; lia | exact Hu].
Qed.

Lemma sort_threads_sorted l : StronglySorted created_le (sort_threads l).
Proof.
  induction l as [|t l IH]; simpl; [constructor|].
  apply insert_thread_sorted, IH.
Qed.

Lemma since_excludes_false since c :
  since_excludes since c = false -> forall s, since = Some s -> s < c.
Proof.
  unfold since_excludes. intros H s ->. apply Z.leb_gt in H. exact H.
Qed.

Lemma limit_not_reached limit n :
  limit_reached limit n = false ->
  forall l, limit = Some l -> 0 < l -> Z.of_nat n < l.
Proof.
  unfold limit_reached. intros H l -> Hl.
  destruct (Z.eqb_spec l 0); [lia|]. simpl in H. now apply Z.leb_gt in H.
Qed.

Lemma live_loop_ok self since limit todo : forall acc env w r w',
  live_loop self since limit todo acc env w = (Ok r, w') ->
  Forall (live_thread_ok since) acc ->
  (forall l, limit = Some l -> 0 < l -> Z.of_nat (length acc) < l) ->
  Forall (live_thread_ok since) r
  ∧ (forall l, limit = Some l -> 0 < l -> Z.of_nat (length r) <= l).
Proof.
  induction todo as [|tp later IH]; intros acc env w r w' Hrun Hacc Hlen.
  - inversion Hrun; subst. split; [exact Hacc|]. intros l Hl Hpos.
    specialize (Hlen l Hl Hpos). lia.
  - simpl in Hrun.
    apply bind_Ok in Hrun as (c & w1 & _ & Hrun).
    destruct (since_excludes since c) eqn:Hsince; [eauto|].
    apply bind_Ok in Hrun as (tid & w2 & _ & Hrun).
    apply bind_Ok in Hrun as (messages & w3 & _ & Hrun).
    destruct messages as [|m ms]; [eauto|].
    match type of Hrun with context [acc ++ [?t]] => set (thread := t) in * end.
    assert (Hnew : Forall (live_thread_ok since) (acc ++ [thread])).
    { apply Forall_app. split; [exact Hacc|]. constructor; [|constructor].
      split; simpl.
      - intros s Hs. pose proof (since_excludes_false _ _ Hsince s Hs).
        destruct (Z.ltb_spec c (msg_timestamp (min_message m ms))); lia.
      - destruct (Z.ltb_spec c (msg_timestamp (min_message m ms))); lia. }
    destruct (limit_reached limit (length (acc ++ [thread]))) eqn:Hlim.
    + inversion Hrun; subst. split; [exact Hnew|].
      intros l Hl Hpos. specialize (Hlen l Hl Hpos).
      rewrite length_app. simpl. lia.
    + eapply IH; [exact Hrun | exact Hnew|].
      intros l Hl Hpos. exact (limit_not_reached _ _ Hlim l Hl Hpos).
Qed.

Lemma extract_created_at_reported tp env w c w1 :
  _extract_created_at tp env w = (Ok c, w1) ->
  forall v, reported_created_at tp = Some v -> c = v.
Proof.
  unfold _extract_created_at, reported_created_at.
  destruct (tp_thread_metadata tp) as [[[cr|] [ar|]]|]; simpl;
    intros H v Hv; try (inversion H; congruence);
    rewrite Hv in H; simpl in H; inversion H; reflexivity.
Qed.

Lemma require_id_Ok tp env w tid w1 :
  require_id tp env w = (Ok tid, w1) -> tp_id tp = Some tid.
Proof.
  unfold require_id. destruct (tp_id tp); intros H; inversion H; reflexivity.
Qed.

Lemma live_loop_clamps self since limit todo : forall acc env w r w',
  live_loop self since limit todo acc env w = (Ok r, w') ->
  forall t, t ∈ r ->
    t ∈ acc
    ∨ exists tp, tp ∈ todo
        ∧ tp_id tp = Some (th_id t)
        ∧ forall c, reported_created_at tp = Some c ->
            th_created_at t = Z.max c (msg_timestamp (th_first_message t)).
Proof.
  induction todo as [|tp later IH]; intros acc env w r w' Hrun t Ht.
  - inversion Hrun; subst. now left.
  - assert (Hlater : forall acc' w0 r0,
              live_loop self since limit later acc' env w0 = (Ok r0, w') ->
              t ∈ r0 ->
              t ∈ acc'
              ∨ exists tp', tp' ∈ tp :: later
                  ∧ tp_id tp' = Some (th_id t)
                  ∧ forall c, reported_created_at tp' = Some c ->
                      th_created_at t = Z.max c (msg_timestamp (th_first_message t))).
    { intros acc' w0 r0 H0 Hin.
      destruct (IH _ _ _ _ _ H0 t Hin) as [?|(tp' & ? & ?)]; [now left|].
      right. exists tp'. split; [now right | assumption]. }
    simpl in Hrun.
    apply bind_Ok in Hrun as (c & w1 & Hc & Hrun).
    destruct (since_excludes since c) eqn:Hsince; [eauto|].
    apply bind_Ok in Hrun as (tid & w2 & Htid & Hrun).
    apply bind_Ok in Hrun as (messages & w3 & _ & Hrun).
    destruct messages as [|m ms]; [eauto|].
    match type of Hrun with context [acc ++ [?t]] => set (thread := t) in * end.
    assert (Hthread : tp_id tp = Some (th_id thread)
              ∧ forall v, reported_created_at tp = Some v ->
                  th_created_at thread
                  = Z.max v (msg_timestamp (th_first_message thread))).
    { split; [exact (require_id_Ok _ _ _ _ _ Htid)|].
      intros v Hv. rewrite <- (extract_created_at_reported _ _ _ _ _ Hc v Hv).
      simpl. destruct (Z.ltb_spec c (msg_timestamp (min_message m ms))); lia. }
    assert (Hnew : t ∈ acc ++ [thread] ->
              t ∈ acc
              ∨ exists tp', tp' ∈ tp :: later
                  ∧ tp_id tp' = Some (th_id t)
                  ∧ forall c, reported_created_at tp' = Some c ->
                      th_created_at t = Z.max c (msg_timestamp (th_first_message t))).
    { intros Hin. apply elem_of_app in Hin as [Hin|Hin]; [now left|].
      apply list_elem_of_singleton in Hin. subst t.
      right. exists tp. split; [left | exact Hthread]. }
    destruct (limit_reached limit (length (acc ++ [thread]))).
    + inversion Hrun; subst. auto.
    + destruct (Hlater _ _ _ Hrun Ht) as [Hin|?]; auto.
Qed.

Lemma parse_timestamp_Ok value env w c w1 :
  _parse_timestamp value env w = (Ok c, w1) ->
  forall v, value = Some v -> c = v.
Proof. intros H v ->. simpl in H. now inversion H. Qed.

Lemma offline_loop_ok payload since limit todo : forall acc env w r w',
  offline_loop payload since limit todo acc env w = (Ok r, w') ->
  (forall tp, tp ∈ todo -> tp ∈ off_threads payload) ->
  Forall (offline_thread_ok payload since) acc ->
  (forall l, limit = Some l -> 0 < l -> Z.of_nat (length acc) < l) ->
  Forall (offline_thread_ok payload since) r
  ∧ (forall l, limit = Some l -> 0 < l -> Z.of_nat (length r) <= l).
Proof.
  induction todo as [|tp later IH]; intros acc env w r w' Hrun Hsub Hacc Hlen.
  - inversion Hrun; subst. split; [exact Hacc|]. intros l Hl Hpos.
    specialize (Hlen l Hl Hpos). lia.
  - assert (Hlater : forall tp', tp' ∈ later -> tp' ∈ off_threads payload).
    { intros tp' Hin. apply Hsub. now right. }
    simpl in Hrun.
    apply bind_Ok in Hrun as (c & w1 & Hc & Hrun).
    destruct (since_excludes since c) eqn:Hsince; [eauto|].
    apply bind_Ok in Hrun as (messages & w3 & _ & Hrun).
    destruct messages as [|m ms]; [eauto|].
    match type of Hrun with context [acc ++ [?t]] => set (thread := t) in * end.
    assert (Hnew : Forall (offline_thread_ok payload since) (acc ++ [thread])).
    { apply Forall_app. split; [exact Hacc|]. constructor; [|constructor].
      split; simpl.
      - exact (since_excludes_false _ _ Hsince).
      - exists tp. split; [apply Hsub; left|]. split; [reflexivity|].
        exact (parse_timestamp_Ok _ _ _ _ _ Hc). }
    destruct (limit_reached limit (length (acc ++ [thread]))) eqn:Hlim.
    + inversion Hrun; subst. split; [exact Hnew|].
      intros l Hl Hpos. specialize (Hlen l Hl Hpos).
      rewrite length_app. simpl. lia.
    + eapply IH; [exact Hrun | exact Hlater | exact Hnew|].
      intros l Hl Hpos. exact (limit_not_reached _ _ Hlim l Hl Hpos).
Qed.

Lemma mapM_message_total l : forall env w,
  exists ms w1, mapM _message_from_payload l env w = (Ok ms, w1).
Proof.
  induction l as [|p l IH]; intros env w; simpl.
  - now eexists _, _.
  - unfold bind at 1. unfold _message_from_payload at 1.
    unfold bind at 1.
    destruct (_parse_timestamp (mp_timestamp p) env w) as [[ts|e] w1] eqn:E.
    + unfold ret at 1. unfold bind at 1.
      destruct (IH env w1) as (ms & w2 & ->). now eexists _, _.
    + destruct (mp_timestamp p); discriminate E.
Qed.

Lemma offline_loop_total payload since limit todo : forall acc env w,
  exists r w', offline_loop payload since limit todo acc env w = (Ok r, w').
Proof.
  induction todo as [|tp later IH]; intros acc env w; simpl.
  - now eexists _, _.
  - unfold bind at 1.
    destruct (_parse_timestamp (tp_created_at tp) env w) as [[c|e] w1] eqn:E.
    2:{ destruct (tp_created_at tp); discriminate E. }
    destruct (since_excludes since c); [apply IH|].
    unfold bind at 1.
    destruct (mapM_message_total (tp_messages tp) env w1) as (ms & w2 & ->).
    destruct ms as [|m ms]; [apply IH|].
    destruct (limit_reached _ _); [now eexists _, _ | apply IH].
Qed.

Lemma fetch_threads_sorted fuel self since limit env w threads w' :
  fetch_threads fuel self since limit env w = (Ok threads, w') ->
  StronglySorted created_le threads.
Proof.
  unfold fetch_threads, _threads_from_offline. intros H.
  destruct (offline_payload self).
  - apply bind_Ok in H as (ths & w1 & _ & H). inversion H; subst.
    apply sort_threads_sorted.
  - apply bind_Ok in H as (? & w1 & _ & H).
    apply bind_Ok in H as (collected & w2 & _ & H).
    apply bind_Ok in H as (ths & w3 & _ & H). inversion H; subst.
    apply sort_threads_sorted.
Qed.

Lemma fetch_threads_live_ok fuel self since limit env w threads w' :
  offline_payload self = None ->
  fetch_threads fuel self since limit env w = (Ok threads, w') ->
  Forall (live_thread_ok since) threads
  ∧ (forall l, limit = Some l -> 0 < l -> Z.of_nat (length threads) <= l).
Proof.
  unfold fetch_threads. intros -> H.
  apply bind_Ok in H as (? & w1 & _ & H).
  apply bind_Ok in H as (collected & w2 & _ & H).
  apply bind_Ok in H as (ths & w3 & Hloop & H). inversion H; subst.
  apply live_loop_ok in Hloop as [Hall Hlen].
  - split.
    + rewrite sort_threads_perm. exact Hall.
    + intros l Hl Hpos. rewrite (Permutation_length (sort_threads_perm ths)).
      exact (Hlen l Hl Hpos).
  - constructor.
  - intros l _ Hpos. simpl. lia.
Qed.

Lemma fetch_threads_offline_ok fuel self since limit env w threads w' payload :
  offline_payload self = Some payload ->
  fetch_threads fuel self since limit env w = (Ok threads, w') ->
  Forall (offline_thread_ok payload since) threads
  ∧ (forall l, limit = Some l -> 0 < l -> Z.of_nat (length threads) <= l).
Proof.
  unfold fetch_threads, _threads_from_offline. intros -> H.
  apply bind_Ok in H as (ths & w3 & Hloop & H). inversion H; subst.
  apply offline_loop_ok in Hloop as [Hall Hlen].
  - split.
    + rewrite sort_threads_perm. exact Hall.
    + intros l Hl Hpos. rewrite (Permutation_length (sort_threads_perm ths)).
      exact (Hlen l Hl Hpos).
  - auto.
  - constructor.
  - intros l _ Hpos. simpl. lia.
Qed.

Lemma fetch_threads_offline_total fuel self since limit payload env w :
  offline_payload self = Some payload ->
  exists threads w', fetch_threads fuel self since limit env w = (Ok threads, w').
Proof.
  unfold fetch_threads, _threads_from_offline. intros ->.
  unfold bind.
  destruct (offline_loop_total payload since limit (off_threads payload) [] env w)
    as (r & w' & ->).
  now eexists _, _.
Qed.

Lemma fetch_threads_since fuel self since limit env w threads w' :
  fetch_threads fuel self since limit env w = (Ok threads, w') ->
  forall s, since = Some s -> forall t, t ∈ threads -> s < th_created_at t.
Proof.
  intros H s Hs t Ht.
  destruct (offline_payload self) as [payload|] eqn:E.
  - destruct (fetch_threads_offline_ok _ _ _ _ _ _ _ _ _ E H) as [Hall _].
    rewrite Forall_forall in Hall. exact (proj1 (Hall t Ht) s Hs).
  - destruct (fetch_threads_live_ok _ _ _ _ _ _ _ _ E H) as [Hall _].
    rewrite Forall_forall in Hall. exact (proj1 (Hall t Ht) s Hs).
Qed.

Lemma fetch_threads_limit fuel self since limit env w threads w' :
  fetch_threads fuel self since limit env w = (Ok threads, w') ->
  forall l, limit = Some l -> 0 < l -> Z.of_nat (length threads) <= l.
Proof.
  intros H.
  destruct (offline_payload self) as [payload|] eqn:E.
  - exact (proj2 (fetch_threads_offline_ok _ _ _ _ _ _ _ _ _ E H)).
  - exact (proj2 (fetch_threads_live_ok _ _ _ _ _ _ _ _ E H)).
Qed.

(** ** The limit is read through its test only *)

Lemma bind_ext {A B : Type} (m m' : M A) (k k' : A -> M B) env w :
  (forall env w, m env w = m' env w) ->
  (forall a env w, k a env w = k' a env w) ->
  bind m k env w = bind m' k' env w.
Proof.
  intros Hm Hk. unfold bind. rewrite Hm.
  destruct (m' env w) as [[a|e] w1]; [apply Hk|reflexivity].
Qed.

Lemma limit_reached_zero n : limit_reached (Some 0) n = limit_reached None n.
Proof. reflexivity. Qed.

Section SameLimit.

Context (limit limit' : option Z).
Hypothesis Hlimit : forall n, limit_reached limit n = limit_reached limit' n.

Lemma offline_loop_same_limit payload since todo : forall threads env w,
  offline_loop payload since limit todo threads env w
  = offline_loop payload since limit' todo threads env w.
Proof.
  induction todo as [|thread_payload later IH]; intros threads env w;
    cbn [offline_loop]; [reflexivity|].
  apply bind_ext; [reflexivity|]. intros created_at env1 w1.
  destruct (since_excludes since created_at); [apply IH|].
  apply bind_ext; [reflexivity|]. intros messages env2 w2.
  destruct messages as [|m ms]; [apply IH|].
  cbv zeta. rewrite Hlimit.
  destruct (limit_reached limit' _); [reflexivity|apply IH].
Qed.

Lemma live_loop_same_limit self since todo : forall threads env w,
  live_loop self since limit todo threads env w
  = live_loop self since limit' todo threads env w.
Proof.
  induction todo as [|thread_payload later IH]; intros threads env w;
    cbn [live_loop]; [reflexivity|].
  apply bind_ext; [reflexivity|]. intros created_at env1 w1.
  destruct (since_excludes since created_at); [apply IH|].
  apply bind_ext; [reflexivity|]. intros thread_id env2 w2.
  apply bind_ext; [reflexivity|]. intros messages env3 w3.
  destruct messages as [|m ms]; [apply IH|].
  cbv zeta. rewrite Hlimit.
  destruct (limit_reached limit' _); [reflexivity|apply IH].
Qed.

Lemma archived_pages_same_limit fuel self endpoint :
  forall payload before collected env w,
  archived_pages fuel self endpoint limit payload before collected env w
  = archived_pages fuel self endpoint limit' payload before collected env w.
Proof.
  induction fuel as [|fuel IH]; intros payload before collected env w;
    cbn [archived_pages];
    destruct (tl_has_more payload); try reflexivity;
    destruct before as [cursor|]; try reflexivity;
    destruct (PyStr.truthy cursor); try reflexivity.
  apply bind_ext; [reflexivity|]. intros b env1 w1.
  apply bind_ext; [reflexivity|]. intros payload' env2 w2.
  cbv zeta. rewrite Hlimit.
  destruct (limit_reached limit' _); [reflexivity|].
  apply bind_ext; [reflexivity|]. intros before' env3 w3. apply IH.
Qed.

Lemma collect_endpoints_same_limit fuel self endpoints : forall collected env w,
  collect_endpoints fuel self limit endpoints collected env w
  = collect_endpoints fuel self limit' endpoints collected env w.
Proof.
  induction endpoints as [|endpoint later IH]; intros collected env w;
    cbn [collect_endpoints]; [reflexivity|].
  apply bind_ext; [reflexivity|]. intros b env1 w1.
  apply bind_ext; [reflexivity|]. intros payload env2 w2.
  cbv zeta. rewrite Hlimit.
  destruct (limit_reached limit' _); [reflexivity|].
  destruct (_ && _); [|apply IH].
  apply bind_ext; [reflexivity|]. intros before env3 w3.
  apply bind_ext; [intros env4 w4; apply archived_pages_same_limit|].
  intros collected' env4 w4. rewrite Hlimit.
  destruct (limit_reached limit' _); [reflexivity|apply IH].
Qed.

Lemma fetch_threads_same_limit fuel self since env w :
  fetch_threads fuel self since limit env w
  = fetch_threads fuel self since limit' env w.
Proof.
  unfold fetch_threads, _threads_from_offline.
  destruct (offline_payload self) as [payload|].
  - apply bind_ext; [|reflexivity]. intros env1 w1. apply offline_loop_same_limit.
  - apply bind_ext; [reflexivity|]. intros _ env1 w1.
    apply bind_ext; [intros env2 w2; apply collect_endpoints_same_limit|].
    intros collected env2 w2.
    apply bind_ext; [|reflexivity]. intros env3 w3. apply live_loop_same_limit.
Qed.

End SameLimit.

Lemma bind_mono {A B : Type} (m : M A) (k1 k2 : A -> M B) env w r w' :
  bind m k1 env w = (r, w') ->
  (forall a w1, k1 a env w1 = (r, w') -> k2 a env w1 = (r, w')) ->
  bind m k2 env w = (r, w').
Proof.
  unfold bind. destruct (m env w) as [[a|e] w1]; auto.
Qed.

Ltac bind_step H :=
  eapply bind_mono; [exact H|]; clear H; intros ? ? H; cbv beta in H |- *.

(** More fuel does not change a computation that did not run out of it. *)
Lemma archived_pages_fuel fuel : forall fuel' self endpoint limit payload before
    collected env w r w',
  (fuel <= fuel')%nat ->
  archived_pages fuel self endpoint limit payload before collected env w = (r, w') ->
  r ≠ Raise FuelExhausted ->
  archived_pages fuel' self endpoint limit payload before collected env w = (r, w').
Proof.
  induction fuel as [|fuel IH]; intros fuel' self endpoint limit payload before
    collected env w r w' Hle Hrun Hr.
  - destruct fuel' as [|fuel']; [exact Hrun|].
    simpl in Hrun |- *.
    destruct (tl_has_more payload); [|exact Hrun].
    destruct before as [cursor|]; [|exact Hrun].
    destruct (PyStr.truthy cursor); [|exact Hrun].
    inversion Hrun; subst. now destruct Hr.
  - destruct fuel' as [|fuel']; [lia|].
    simpl in Hrun |- *.
    destruct (tl_has_more payload); [|exact Hrun].
    destruct before as [cursor|]; [|exact Hrun].
    destruct (PyStr.truthy cursor); [|exact Hrun].
    bind_step Hrun. bind_step Hrun.
    destruct (limit_reached _ _); [exact Hrun|].
    bind_step Hrun.
    apply (IH fuel'); [lia | exact Hrun | exact Hr].
Qed.

Lemma collect_endpoints_fuel fuel fuel' self limit endpoints :
  forall collected env w r w',
  (fuel <= fuel')%nat ->
  collect_endpoints fuel self limit endpoints collected env w = (r, w') ->
  r ≠ Raise FuelExhausted ->
  collect_endpoints fuel' self limit endpoints collected env w = (r, w').
Proof.
  induction endpoints as [|endpoint later IH];
    intros collected env w r w' Hle Hrun Hr; [exact Hrun|].
  simpl in Hrun |- *.
  bind_step Hrun. bind_step Hrun.
  destruct (limit_reached _ _); [exact Hrun|].
  destruct (_ && _); [|now apply IH].
  bind_step Hrun.
  unfold bind in Hrun |- *.
  destruct (archived_pages fuel _ _ _ _ _ _ _ _) as [[c|e] w4] eqn:Hap.
  - rewrite (archived_pages_fuel fuel fuel' _ _ _ _ _ _ _ _ _ _ Hle Hap)
      by discriminate.
    destruct (limit_reached _ _); [exact Hrun | now apply IH].
  - inversion Hrun; subst.
    now rewrite (archived_pages_fuel fuel fuel' _ _ _ _ _ _ _ _ _ _ Hle Hap).
Qed.

Lemma fetch_threads_fuel fuel fuel' self since limit env w threads w' :
  (fuel <= fuel')%nat ->
  fetch_threads fuel self since limit env w = (Ok threads, w') ->
  fetch_threads fuel' self since limit env w = (Ok threads, w').
Proof.
  intros Hle. unfold fetch_threads.
  destruct (offline_payload self); [auto|]. intros Hrun.
  bind_step Hrun.
  unfold bind in Hrun |- *.
  destruct (collect_endpoints fuel _ _ _ _ _ _) as [[c|e] w2] eqn:Hc;
    [|discriminate].
  now rewrite (collect_endpoints_fuel fuel fuel' _ _ _ _ _ _ _ _ Hle Hc)
    by discriminate.
Qed.

(** ** The loop of a run *)

Lemma run_loop_cons self thread later n env w :
  run_loop self (thread :: later) n env w =
  if StateStore.dict_contains (th_id thread) (processed w)
  then run_loop self later n env w
  else
    match issue_request_of (_config self) (isoformat env) (available_tags w) thread with
    | Raise e => (Raise e, w)
    | Ok q =>
        let w1 := set_issues (issues w ++ [q]) w in
        match github env (issues w ++ [q]) with
        | Some e => (Raise e, w1)
        | None => run_loop self later (S n) env (marked env thread w1)
        end
    end.
Proof.
  simpl. unfold bind at 1. unfold StateStore.has_processed at 1.
  unfold bind at 1, get_world at 1, ret at 1.
  destruct (StateStore.dict_contains _ _); [reflexivity|].
  unfold bind at 1, ask at 1. unfold bind at 1, get_world at 1.
  unfold issue_request_of.
  unfold bind at 1, lift_result at 1.
  destruct (_build_body _ _ _) as [body|e]; [|reflexivity].
  simpl result_map. cbv beta iota.
  unfold bind at 1, create_issue at 1. cbv beta iota zeta.
  destruct (github env _) as [e|]; [reflexivity|].
  unfold bind at 1. unfold StateStore.mark_processed at 1.
  reflexivity.
Qed.

Lemma dict_contains_keys k d :
  StateStore.dict_contains k d = bool_decide (k ∈ map fst d).
Proof.
  induction d as [|[k' v'] d IH]; simpl; [reflexivity|].
  rewrite IH. destruct (String.eqb_spec k' k) as [->|Hne]; simpl.
  - symmetry. apply bool_decide_eq_true. left.
  - apply bool_decide_ext. rewrite elem_of_cons. simpl.
    split; [tauto|]. intros [H|H]; [congruence | exact H].
Qed.

Lemma dict_set_fresh k v d :
  StateStore.dict_contains k d = false ->
  StateStore.dict_set k v d = d ++ [(k, v)].
Proof.
  induction d as [|[k' v'] d IH]; simpl; [reflexivity|].
  destruct (String.eqb k' k); simpl; [discriminate|].
  intros H. now rewrite (IH H).
Qed.

Lemma persist_eq self n env w :
  persist self n env w =
  (Ok tt,
   if negb (n =? 0)%nat || negb (bool_decide (is_Some (last_synced_at w)))
   then saved (_state self) w
   else saved (_state self) (heartbeat env w)).
Proof.
  unfold persist. unfold bind at 1, get_world at 1.
  destruct (_ || _); reflexivity.
Qed.

Lemma run_eq fuel self since max_threads env w :
  run fuel self since max_threads env w =
  match DiscordClient.fetch_threads fuel (_discord self) since
          (Some (effective_limit self max_threads)) env w with
  | (Raise e, wa) => (Raise e, wa)
  | (Ok threads, wa) =>
      match run_loop self threads 0 env wa with
      | (Raise e, wb) => (Raise e, wb)
      | (Ok n, wb) => (Ok n, (persist self n env wb).2)
      end
  end.
Proof.
  unfold run. unfold bind at 1.
  destruct (DiscordClient.fetch_threads _ _ _ _ _ _) as [[threads|e] wa];
    [|reflexivity].
  unfold bind at 1.
  destruct (run_loop _ _ _ _ _) as [[n|e] wb]; [|reflexivity].
  unfold bind. rewrite persist_eq. reflexivity.
Qed.

Lemma run_loop_trace self env threads : forall n w r w',
  run_loop self threads n env w = (r, w') ->
  exists called recorded,
    called `prefix_of` pending (map fst (processed w)) threads
    ∧ recorded `prefix_of` called
    ∧ loop_trace self env w w' called recorded
    ∧ (forall m, r = Ok m ->
         recorded = pending (map fst (processed w)) threads
         ∧ called = recorded
         ∧ m = (n + length recorded)%nat).
Proof.
  induction threads as [|thread later IH]; intros n w r w' Hrun.
  - inversion Hrun; subst. exists [], []. simpl.
    split; [reflexivity|]. split; [reflexivity|]. split.
    + constructor; simpl; rewrite ?app_nil_r; auto with lia.
      exists []. rewrite app_nil_r. auto.
    + intros m Hm. inversion Hm. auto with lia.
  - rewrite run_loop_cons in Hrun. simpl pending.
    rewrite dict_contains_keys in Hrun.
    case_bool_decide as Hin; [exact (IH _ _ _ _ Hrun)|].
    destruct (issue_request_of _ _ _ thread) as [q|e] eqn:Hq.
    2:{ inversion Hrun; subst. exists [], [].
        split; [apply prefix_nil|]. split; [reflexivity|]. split.
        - constructor; simpl; rewrite ?app_nil_r; auto with lia.
          exists []. rewrite app_nil_r. auto.
        - intros m Hm. discriminate Hm. }
    cbv zeta in Hrun.
    destruct (github env _) as [e|] eqn:Hgh.
    { inversion Hrun; subst. exists [thread], [].
      split; [apply prefix_cons, prefix_nil|]. split; [apply prefix_nil|]. split.
      - constructor; simpl; rewrite ?app_nil_r; auto with lia.
        exists [q]. split; [repeat constructor; exact Hq | reflexivity].
      - intros m Hm. discriminate Hm. }
    apply IH in Hrun as (called & recorded & Hc & Hr & Ht & Hok).
    assert (Hkeys : map fst (processed (marked env thread (set_issues (issues w ++ [q]) w)))
                    = map fst (processed w) ++ [th_id thread]).
    { simpl. rewrite dict_set_fresh.
      - now rewrite map_app.
      - rewrite dict_contains_keys. now apply bool_decide_eq_false. }
    rewrite Hkeys in Hc, Hok.
    exists (thread :: called), (thread :: recorded).
    split; [now apply prefix_cons|]. split; [now apply prefix_cons|]. split.
    + destruct Ht as [(reqs & Hreqs & Hiss) Hp Htk Hs Htg Hlf Hbf Hnet].
      simpl in *. constructor; simpl.
      * exists (q :: reqs). split; [constructor; assumption|].
        rewrite Hiss, <- app_assoc. reflexivity.
      * rewrite Hp, dict_set_fresh.
        -- rewrite <- app_assoc. reflexivity.
        -- rewrite dict_contains_keys. now apply bool_decide_eq_false.
      * lia.
      * rewrite Hs. destruct recorded as [|r0 recorded]; simpl.
        -- do 3 f_equal. lia.
        -- do 3 f_equal. lia.
      * exact Htg.
      * exact Hlf.
      * exact Hbf.
      * exact Hnet.
    + intros m Hm. destruct (Hok m Hm) as (-> & -> & ->).
      repeat split. simpl. lia.
Qed.

Lemma pending_sublist threads : forall keys,
  pending keys threads `sublist_of` threads.
Proof.
  induction threads as [|t later IH]; intros keys; simpl; [constructor|].
  destruct (bool_decide _); [apply sublist_cons | apply sublist_skip]; apply IH.
Qed.

Lemma StronglySorted_sublist {A : Type} (R : A -> A -> Prop) l1 l2 :
  l1 `sublist_of` l2 -> StronglySorted R l2 -> StronglySorted R l1.
Proof.
  induction 1 as [|x l1 l2 Hsub IH|x l1 l2 Hsub IH]; intros Hs.
  - constructor.
  - apply StronglySorted_inv in Hs as [Hs Hx]. constructor; [auto|].
    rewrite Forall_forall in Hx |- *. intros y Hy. apply Hx.
    eapply sublist_subseteq, Hy. exact Hsub.
  - apply StronglySorted_inv in Hs as [Hs _]. auto.
Qed.

Lemma prefix_sublist {A : Type} (l1 l2 : list A) :
  l1 `prefix_of` l2 -> l1 `sublist_of` l2.
Proof. intros [k ->]. apply sublist_inserts_r. reflexivity. Qed.

(** After the pending threads are recorded, every thread of the list has
    its identity among the keys. *)
Lemma pending_covers threads : forall keys t,
  t ∈ threads ->
  th_id t ∈ keys ++ map th_id (pending keys threads).
Proof.
  induction threads as [|u later IH]; intros keys t Ht; simpl.
  - now apply elem_of_nil in Ht.
  - apply elem_of_cons in Ht as [->|Ht].
    + case_bool_decide as Hin.
      * apply elem_of_app. now left.
      * apply elem_of_app. right. simpl. left.
    + case_bool_decide as Hin; [now apply IH|].
      specialize (IH (keys ++ [th_id u]) t Ht).
      rewrite <- app_assoc in IH. exact IH.
Qed.

Lemma persist_frame self n env w :
  let w' := (persist self n env w).2 in
  issues w' = issues w ∧ processed w' = processed w
  ∧ available_tags w' = available_tags w.
Proof.
  rewrite persist_eq. simpl.
  destruct (_ || _); unfold saved, heartbeat; simpl;
    destruct (StateStore.backup_enabled (_state self)); simpl;
    try destruct (ledger_file w); simpl; auto.
Qed.

(** What one run does to the issues and to the ledger, for the threads
    it fetched. *)
Lemma run_trace_fetched fuel self since max_threads env w r w' :
  run fuel self since max_threads env w = (r, w') ->
  exists called recorded reqs,
    let threads :=
      fetched (DiscordClient.fetch_threads fuel (_discord self) since
                 (Some (effective_limit self max_threads)) env w) in
    StronglySorted created_le threads
    ∧ called `prefix_of` pending (map fst (processed w)) threads
    ∧ recorded `prefix_of` called
    ∧ Forall2 (fun thread q =>
                 issue_request_of (_config self) (isoformat env)
                   (available_tags w') thread = Ok q) called reqs
    ∧ issues w' = issues w ++ reqs
    ∧ processed w' = processed w ++ map (ledger_entry (isoformat env)) recorded
    ∧ (forall n, r = Ok n ->
         (exists wa,
            DiscordClient.fetch_threads fuel (_discord self) since
              (Some (effective_limit self max_threads)) env w = (Ok threads, wa))
         ∧ recorded = pending (map fst (processed w)) threads
         ∧ called = recorded ∧ n = length recorded).
Proof.
  rewrite run_eq. intros Hrun.
  pose proof (keeps_fetch_threads fuel (_discord self) since
                (Some (effective_limit self max_threads)) env w) as Hkeep.
  destruct (DiscordClient.fetch_threads _ _ _ _ _ _) as [[threads|e] wa] eqn:Hf.
  2:{ inversion Hrun; subst. destruct Hkeep as (Hi & Hp & _). simpl in Hi, Hp.
      exists [], [], []. unfold fetched. cbn [fst]. cbv zeta. rewrite !app_nil_r.
      split; [constructor|]. split; [apply prefix_nil|].
      split; [reflexivity|]. split; [constructor|].
      split; [exact Hi|]. split; [exact Hp|]. intros; discriminate. }
  destruct Hkeep as (Hi & Hp & _). simpl in Hi, Hp.
  pose proof (fetch_threads_sorted _ _ _ _ _ _ _ _ Hf) as Hsorted.
  destruct (run_loop self threads 0 env wa) as [r0 wb] eqn:Hloop.
  apply run_loop_trace in Hloop as (called & recorded & Hc & Hr & Ht & Hok).
  destruct Ht as [(reqs & Hreqs & Hiss) Hpr _ _ Htags _ _ _].
  rewrite Hp in Hc, Hok, Hpr. rewrite Hi in Hiss.
  exists called, recorded, reqs. unfold fetched. cbn [fst]. cbv zeta.
  destruct r0 as [n|e].
  - inversion Hrun; subst.
    destruct (persist_frame self n env wb) as (Hi' & Hp' & Ht').
    cbv zeta in Hi', Hp', Ht'. rewrite Hi', Hp', Ht', Htags.
    split; [exact Hsorted|]. split; [exact Hc|]. split; [exact Hr|].
    split; [exact Hreqs|]. split; [exact Hiss|]. split; [exact Hpr|].
    intros n' Hn'. inversion Hn'; subst.
    destruct (Hok _ eq_refl) as (?&?&?). eauto.
  - inversion Hrun; subst. rewrite Htags.
    split; [exact Hsorted|]. split; [exact Hc|]. split; [exact Hr|].
    split; [exact Hreqs|]. split; [exact Hiss|]. split; [exact Hpr|].
    intros; discriminate.
Qed.

(** What one run does to the issues and to the ledger. *)
Lemma run_trace fuel self since max_threads env w r w' :
  run fuel self since max_threads env w = (r, w') ->
  exists threads called recorded reqs,
    StronglySorted created_le threads
    ∧ called `prefix_of` pending (map fst (processed w)) threads
    ∧ recorded `prefix_of` called
    ∧ Forall2 (fun thread q =>
                 issue_request_of (_config self) (isoformat env)
                   (available_tags w') thread = Ok q) called reqs
    ∧ issues w' = issues w ++ reqs
    ∧ processed w' = processed w ++ map (ledger_entry (isoformat env)) recorded
    ∧ (forall n, r = Ok n ->
         (exists wa,
            DiscordClient.fetch_threads fuel (_discord self) since
              (Some (effective_limit self max_threads)) env w = (Ok threads, wa))
         ∧ recorded = pending (map fst (processed w)) threads
         ∧ called = recorded ∧ n = length recorded).
Proof.
  intros Hrun.
  destruct (run_trace_fetched _ _ _ _ _ _ _ _ Hrun) as (called & recorded & reqs & H).
  eexists _, called, recorded, reqs. exact H.
Qed.

Lemma issue_request_title config isoformat tags thread q :
  issue_request_of config isoformat tags thread = Ok q ->
  ir_title q = PyStr.strip (issue_title_prefix config +:+ th_name thread).
Proof.
  unfold issue_request_of. destruct (_build_body _ _ _); simpl; [|discriminate].
  intros H. inversion H. reflexivity.
Qed.

Lemma run_loop_all_skipped self env threads n w :
  (forall t, t ∈ threads -> th_id t ∈ map fst (processed w)) ->
  run_loop self threads n env w = (Ok n, w).
Proof.
  induction threads as [|t later IH]; intros H; [reflexivity|].
  rewrite run_loop_cons, dict_contains_keys.
  rewrite bool_decide_eq_true_2 by (apply H; left).
  apply IH. intros t' Ht'. apply H. now right.
Qed.

Lemma run_Ok_inv fuel self since max_threads env w n w' :
  run fuel self since max_threads env w = (Ok n, w') ->
  exists threads wa wb,
    DiscordClient.fetch_threads fuel (_discord self) since
      (Some (effective_limit self max_threads)) env w = (Ok threads, wa)
    ∧ run_loop self threads 0 env wa = (Ok n, wb)
    ∧ w' = (persist self n env wb).2.
Proof.
  rewrite run_eq.
  destruct (DiscordClient.fetch_threads _ _ _ _ _ _) as [[threads|e] wa];
    [|discriminate].
  destruct (run_loop _ _ _ _ _) as [[m|e] wb] eqn:Hloop; [|discriminate].
  intros H. inversion H; subst. exists threads, wa, wb. auto.
Qed.

Lemma load_eq self env w : StateStore.load self env w = (Ok tt, loaded w).
Proof.
  unfold StateStore.load, loaded. unfold bind, get_world.
  destruct (ledger_file w); reflexivity.
Qed.

Lemma dict_set_keys k v d x :
  x ∈ map fst (StateStore.dict_set k v d) ↔ x = k ∨ x ∈ map fst d.
Proof.
  induction d as [|[k' v'] d IH]; simpl.
  - rewrite list_elem_of_singleton, elem_of_nil. tauto.
  - destruct (String.eqb_spec k' k) as [->|Hne]; simpl;
      rewrite !elem_of_cons; [tauto|]. rewrite IH. tauto.
Qed.

Lemma dict_of_pairs_keys l x :
  x ∈ map fst (StateStore.dict_of_pairs l) ↔ x ∈ map fst l.
Proof.
  unfold StateStore.dict_of_pairs.
  assert (G : forall d,
             x ∈ map fst (fold_left (fun d kv => StateStore.dict_set kv.1 kv.2 d) l d)
             ↔ x ∈ map fst d ∨ x ∈ map fst l).
  { induction l as [|[k v] l IH]; intros d; simpl.
    - rewrite elem_of_nil. tauto.
    - rewrite IH, dict_set_keys, elem_of_cons. tauto. }
  rewrite G. simpl. rewrite elem_of_nil. tauto.
Qed.

Lemma saved_ledger_file self w :
  ledger_file (saved self w)
  = Some {| doc_processed := ProcessedMap (processed (saved self w));
            doc_last_synced_at := last_synced_at (saved self w) |}.
Proof.
  unfold saved. destruct (StateStore.backup_enabled self); simpl;
    try destruct (ledger_file w); reflexivity.
Qed.

Lemma saved_fields self w :
  processed (saved self w) = processed w
  ∧ last_synced_at (saved self w) = last_synced_at w
  ∧ ticks (saved self w) = ticks w.
Proof.
  unfold saved. destruct (StateStore.backup_enabled self); simpl;
    try destruct (ledger_file w); auto.
Qed.

Lemma persist_keeps_keys self n env wb x :
  x ∈ map fst (processed wb) ->
  x ∈ map fst (processed (persist self n env wb).2)
  ∧ x ∈ map fst (processed (loaded (persist self n env wb).2)).
Proof.
  intros Hx. rewrite persist_eq. simpl.
  assert (Hs : forall w, x ∈ map fst (processed w) ->
                 x ∈ map fst (processed (saved (_state self) w))
                 ∧ x ∈ map fst (processed (loaded (saved (_state self) w)))).
  { intros w Hw. unfold saved, loaded. simpl.
    destruct (StateStore.backup_enabled (_state self)); simpl;
      try destruct (ledger_file w); simpl;
      rewrite ?dict_of_pairs_keys; auto. }
  destruct (_ || _); apply Hs; exact Hx.
Qed.

(** ** Retries *)


Lemma range_cons lo hi : lo < hi -> range lo hi = lo :: range (lo + 1) hi.
Proof.
  intros H. unfold range.
  replace (Z.to_nat (hi - lo)) with (S (Z.to_nat (hi - (lo + 1)))) by lia.
  simpl. f_equal; [lia|].
  rewrite <- seq_shift, map_map. apply map_ext. intros i. lia.
Qed.



Section Retries.

Context (self : DiscordClient.t) (path : string).

Lemma execute_from_step attempt env w :
  1 <= attempt <= max_retries self ->
  execute_from self path attempt env w =
  match server env (requests w ++ [path]) with
  | Responded body => (Ok body, requested path w)
  | HttpFailure code ra =>
      if code =? 429 then
        match rate_limit_delay ra with
        | Ok q =>
            execute_from self path (attempt + 1) env (napped q (requested path w))
        | Raise e => (Raise e, requested path w)
        end
      else if (500 <=? code) && (code <? 600) && (attempt <? max_retries self) then
        execute_from self path (attempt + 1) env
          (napped (backoff attempt) (requested path w))
      else (Raise (HTTPError code), requested path w)
  | NetFailure =>
      if attempt <? max_retries self then
        execute_from self path (attempt + 1) env
          (napped (backoff attempt) (requested path w))
      else (Raise URLError, requested path w)
  end.
Proof.
  intros Hrange. unfold execute_from.
  rewrite (range_cons attempt) by lia. simpl.
  unfold bind at 1, urlopen at 1. fold (requested path w).
  destruct (server env (requests w ++ [path])) as [body|code ra|]; [reflexivity| |].
  - destruct (code =? 429).
    + destruct ra as [|q| | |]; try reflexivity.
      unfold bind at 1. rewrite sleep_spec. cbn [rate_limit_delay].
      destruct (refused q); reflexivity.
    + destruct (_ && _); [|reflexivity].
      unfold bind at 1. now rewrite sleep_with_backoff_spec.
  - rewrite Z.leb_antisym. destruct (attempt <? max_retries self); [|reflexivity].
    cbn [negb]. unfold bind at 1. now rewrite sleep_with_backoff_spec.
Qed.




End Retries.



(** * The properties of the specification *)

(** ** Template rendering *)

(** C7.  Whatever the template, rendering is one pass from the left.
    Every template can be cut into literals, inside which no placeholder
    begins, and placeholders; for every template and every such cut of it,
    [render] leaves the literals as they are and puts the value of its
    identifier in the place of each placeholder.  It raises [KeyError]
    when the identifier of some placeholder is missing from the context,
    for the first such placeholder, and succeeds when none is missing.
    The matcher finds a placeholder exactly where the text begins with two
    opening braces, white space, an identifier of letters, digits and
    underscores that is not empty, white space and two closing braces.
    The two sample calls give ["Hello Epika"] and [KeyError]; of three
    opening braces the first is literal text. *)
Theorem C7_render_placeholders :
  (forall template, exists segs, template_of segs = template ∧ well_cut segs)
  ∧ (forall template segs context,
       template_of segs = template -> well_cut segs ->
       render template context = expand context segs
       ∧ (forall key,
            key ∈ hole_keys segs -> context !! key = None ->
            exists before k after,
              hole_keys segs = before ++ k :: after
              ∧ (forall k', k' ∈ before -> is_Some (context !! k'))
              ∧ context !! k = None
              ∧ render template context = Raise (KeyError k))
       ∧ ((forall key, key ∈ hole_keys segs -> is_Some (context !! key)) ->
          exists out, render template context = Ok out))
  ∧ (forall s key rest,
       match_placeholder s = Some (key, rest) <-> placeholder_at s key rest)
  ∧ render "Hello {{name}}" {[ "name" := "Epika" ]} = Ok "Hello Epika"
  ∧ render "Hello {{name}}" ∅ = Raise (KeyError "name")
  ∧ render "{{{x}}}" {[ "x" := "v" ]} = Ok "{v}".
Proof.
  split; [exact every_template_cut|].
  split.
  { intros template segs context <- Hcut.
    rewrite (render_well_cut _ _ Hcut).
    split; [reflexivity|]. split.
    - intros key Hin Hnone. now apply (expand_first_missing _ _ key).
    - now apply expand_present. }
  split.
  { intros s key rest. split;
      [apply match_placeholder_inv | apply placeholder_at_match]. }
  repeat split; vm_compute; reflexivity.
Qed.

(** The template ["Hello {{{ name}}}!"]: the first of the three opening
    braces and the last of the three closing ones are literal text. *)
Lemma C7_witness :
  well_cut [Lit "Hello {"; Hole " " "name" ""; Lit "}!"]
  ∧ render "Hello {{{ name}}}!" {[ "name" := "Epika" ]}
    = expand {[ "name" := "Epika" ]} [Lit "Hello {"; Hole " " "name" ""; Lit "}!"]
  ∧ expand {[ "name" := "Epika" ]} [Lit "Hello {"; Hole " " "name" ""; Lit "}!"]
    = Ok "Hello {Epika}!"
  ∧ exists out, render "Hello {{{ name}}}!" {[ "name" := "Epika" ]} = Ok out.
Proof.
  assert (Hcut : well_cut [Lit "Hello {"; Hole " " "name" ""; Lit "}!"])
    by (apply cut_ok_spec; reflexivity).
  destruct (proj1 (proj2 C7_render_placeholders) "Hello {{{ name}}}!"
              [Lit "Hello {"; Hole " " "name" ""; Lit "}!"]
              {[ "name" := "Epika" ]} eq_refl Hcut) as (Hrender & _ & Hpresent).
  split; [exact Hcut|]. split; [exact Hrender|].
  split; [vm_compute; reflexivity|].
  apply Hpresent. intros key Hkey.
  apply elem_of_cons in Hkey as [->|Hkey]; [now eexists|].
  now apply elem_of_nil in Hkey.
Defined.

(** ** Labels *)

(** A tag mapped to the empty list gets the fallback label, where the
    label rule as stated gives it no label; and a display name with blanks
    around it is trimmed before the blanks inside become hyphens. *)
Lemma C6_counterexample :
  _build_labels (label_config ["discord"] {[ "7" := [] ]} "discord/tag/") ∅
    (tagged_thread "t" ["7"])
  = ["discord"; "discord/tag/7"]
  ∧ stated_build_labels (label_config ["discord"] {[ "7" := [] ]} "discord/tag/") ∅
      (tagged_thread "t" ["7"])
    = ["discord"]
  ∧ _build_labels (label_config [] ∅ "discord/tag/") {[ "7" := " Crash Report " ]}
      (tagged_thread "t" ["7"])
    = ["discord/tag/crash-report"]
  ∧ stated_build_labels (label_config [] ∅ "discord/tag/") {[ "7" := " Crash Report " ]}
      (tagged_thread "t" ["7"])
    = ["discord/tag/-crash-report-"].
Proof. vm_compute. repeat split; reflexivity. Qed.

(** C6.  [_build_labels] returns the default labels followed by
    the labels of each applied tag in order, duplicates removed and first
    occurrences kept.  The labels of a tag are its mapped labels when the
    mapping has at least one, else the single fallback label
    [fallback_label]: prefix plus sanitized display name, trimmed, where
    sanitizing trims, lower-cases, puts hyphens for spaces and gives
    ["untitled"] for an empty name.  That label is never empty.  The two
    sample configurations give the stated lists. *)
Theorem C6_build_labels :
  (forall config tags thread,
     _build_labels config tags thread
     = dedup_first (default_labels config ++
         concat (map (tag_labels config tags) (th_applied_tag_ids thread))))
  ∧ (forall config tags tag_id,
       PyStr.truthy (fallback_label config tags tag_id) = true)
  ∧ _build_labels (label_config ["discord"; "triage"] {[ "7" := ["discord"] ]} "discord/tag/")
      ∅ (tagged_thread "t" ["7"])
    = ["discord"; "triage"]
  ∧ _build_labels (label_config [] ∅ "discord/tag/") {[ "7" := "Crash Report" ]}
      (tagged_thread "t" ["7"])
    = ["discord/tag/crash-report"].
Proof.
  split; [exact build_labels_dedup|].
  split; [exact fallback_label_truthy|].
  vm_compute. split; reflexivity.
Qed.

(** With a prefix that starts with a blank, the label in the list is the
    trimmed one, and the untrimmed concatenation is not in the list. *)
Lemma C10_counterexample :
  let config := label_config [] ∅ " tag/" in
  let thread := tagged_thread "t" ["7"] in
  DiscordClient.resolve_tag_name ∅ "7" = "7"
  ∧ _build_labels config ∅ thread = ["tag/7"]
  ∧ fallback_label_prefix config +:+ _sanitize_label "7" = " tag/7"
  ∧ (fallback_label_prefix config +:+ _sanitize_label "7") ∉ _build_labels config ∅ thread.
Proof.
  vm_compute. repeat split; try reflexivity.
  intros H. apply list_elem_of_singleton in H. discriminate H.
Qed.

(** C10.  A tag identity without an entry in the channel's tags is
    resolved to itself, and when it is also unmapped the label list holds
    the trimmed concatenation of the fallback prefix and the sanitized
    identity. *)
Theorem C10_unresolved_tag_fallback config tags thread tag_id :
  tags !! tag_id = None ->
  tag_label_map config !! tag_id = None ->
  tag_id ∈ th_applied_tag_ids thread ->
  DiscordClient.resolve_tag_name tags tag_id = tag_id
  ∧ PyStr.strip (fallback_label_prefix config +:+ _sanitize_label tag_id)
    ∈ _build_labels config tags thread.
Proof.
  intros Htag Hmap Hin.
  assert (Hname : DiscordClient.resolve_tag_name tags tag_id = tag_id).
  { unfold DiscordClient.resolve_tag_name. now rewrite Htag. }
  split; [exact Hname|].
  rewrite build_labels_dedup, elem_of_dedup_first, elem_of_app. right.
  apply list_elem_of_In, in_concat.
  exists (tag_labels config tags tag_id). split.
  - apply in_map, list_elem_of_In, Hin.
  - unfold tag_labels, fallback_label. rewrite Hmap, Hname. now left.
Qed.

Lemma C10_witness :
  DiscordClient.resolve_tag_name ∅ "7" = "7"
  ∧ PyStr.strip ("discord/tag/" +:+ _sanitize_label "7")
    ∈ _build_labels (label_config ["discord"] ∅ "discord/tag/") ∅
        (tagged_thread "t" ["7"]).
Proof.
  apply (C10_unresolved_tag_fallback
           (label_config ["discord"] ∅ "discord/tag/") ∅ (tagged_thread "t" ["7"]) "7").
  - reflexivity.
  - reflexivity.
  - apply list_elem_of_singleton. reflexivity.
Defined.

(** ** Fetching threads *)

(** A thread of the fixture, and a thread fetched over the network, reported
    as created at 100 with a first message at 50, is returned with creation
    time 100: later than its first message. *)
Lemma C1_counterexample :
  (exists threads w',
     DiscordClient.fetch_threads 0 (offline_client sample_fixture) None None
       (sample_env busy_server) fresh_world = (Ok threads, w')
     ∧ exists t, t ∈ threads
         ∧ msg_timestamp (th_first_message t) < th_created_at t)
  ∧ (exists threads w',
       DiscordClient.fetch_threads 0 live_client None None
         (sample_env sample_server) fresh_world = (Ok threads, w')
       ∧ exists t, t ∈ threads
           ∧ msg_timestamp (th_first_message t) < th_created_at t).
Proof.
  split.
  - eexists _, _. split; [vm_compute; reflexivity|].
    eexists. split; [left|]. vm_compute. reflexivity.
  - eexists _, _. split; [vm_compute; reflexivity|].
    eexists. split; [left|]. vm_compute. reflexivity.
Qed.

(** C1.  A thread that [fetch_threads] returns over the network is
    never created before its first message: in the loop that builds the
    threads, a reported creation time that is earlier is raised to the
    time of the first message and a later one is kept.  A thread returned
    from a fixture carries the creation time that the fixture reports,
    unchanged. *)
Theorem C1_creation_not_before_first_message :
  (forall fuel self since limit env w threads w',
     DiscordClient.offline_payload self = None ->
     DiscordClient.fetch_threads fuel self since limit env w = (Ok threads, w') ->
     forall t, t ∈ threads ->
       msg_timestamp (th_first_message t) <= th_created_at t)
  ∧ (forall self since limit collected env w threads w',
       live_loop self since limit collected [] env w = (Ok threads, w') ->
       forall t, t ∈ threads ->
       exists tp, tp ∈ collected
         ∧ tp_id tp = Some (th_id t)
         ∧ forall c, reported_created_at tp = Some c ->
             th_created_at t = Z.max c (msg_timestamp (th_first_message t)))
  ∧ (forall fuel self since limit env w threads w' payload,
       DiscordClient.offline_payload self = Some payload ->
       DiscordClient.fetch_threads fuel self since limit env w = (Ok threads, w') ->
       forall t, t ∈ threads ->
       exists tp, tp ∈ off_threads payload
         ∧ th_id t = py_str (tp_id tp)
         ∧ forall c, tp_created_at tp = Some c -> th_created_at t = c).
Proof.
  split; [|split].
  - intros fuel self since limit env w threads w' Hlive H t Ht.
    destruct (fetch_threads_live_ok _ _ _ _ _ _ _ _ Hlive H) as [Hall _].
    rewrite Forall_forall in Hall. exact (proj2 (Hall t Ht)).
  - intros self since limit collected env w threads w' H t Ht.
    destruct (live_loop_clamps _ _ _ _ _ _ _ _ _ H t Ht) as [Hin|Htp];
      [|exact Htp].
    now apply elem_of_nil in Hin.
  - intros fuel self since limit env w threads w' payload Hoff H t Ht.
    destruct (fetch_threads_offline_ok _ _ _ _ _ _ _ _ _ Hoff H) as [Hall _].
    rewrite Forall_forall in Hall. exact (proj2 (Hall t Ht)).
Qed.

Lemma C1_witness :
  live_fetch = (Ok (fetched live_fetch), live_fetch.2)
  ∧ fetched live_fetch ≠ []
  ∧ forall t, t ∈ fetched live_fetch ->
      msg_timestamp (th_first_message t) <= th_created_at t.
Proof.
  assert (H : live_fetch = (Ok (fetched live_fetch), live_fetch.2))
    by (vm_compute; reflexivity).
  split; [exact H|]. split; [vm_compute; discriminate|].
  exact (proj1 C1_creation_not_before_first_message 0%nat live_client None None
           (sample_env sample_server) fresh_world _ _ eq_refl H).
Defined.

(** With limit 0 the fixture's two threads are returned, with limit -1
    one thread is, and limit 0 does not bound the threads fetched over the
    network either. *)
Lemma C5_counterexample :
  (exists threads w',
     DiscordClient.fetch_threads 0 (offline_client sample_fixture) None (Some 0)
       (sample_env busy_server) fresh_world = (Ok threads, w')
     ∧ Z.of_nat (length threads) > 0)
  ∧ (exists threads w',
       DiscordClient.fetch_threads 0 (offline_client sample_fixture) None (Some (-1))
         (sample_env busy_server) fresh_world = (Ok threads, w')
       ∧ Z.of_nat (length threads) > -1)
  ∧ (exists threads w',
       DiscordClient.fetch_threads 0 live_client None (Some 0)
         (sample_env sample_server) fresh_world = (Ok threads, w')
       ∧ Z.of_nat (length threads) > 0).
Proof.
  repeat split; eexists _, _; (split; [vm_compute; reflexivity|]);
    vm_compute; reflexivity.
Qed.

(** C5.  The list [fetch_threads] returns is in ascending order of
    creation time, holds only threads created after [since] when [since]
    is given, and has at most [limit] threads when [limit] is given and
    positive.  A limit of 0 is no limit: the call does what it does
    without a limit.  From a fixture, [fetch_threads] always returns a
    list; over the network, a list returned within some number of rounds
    of paging is returned within any greater number. *)
Theorem C5_fetch_threads_contract fuel self since limit env w :
  (forall threads w',
     DiscordClient.fetch_threads fuel self since limit env w = (Ok threads, w') ->
     Sorted created_le threads
     ∧ (forall s, since = Some s -> forall t, t ∈ threads -> s < th_created_at t)
     ∧ (forall l, limit = Some l -> 0 < l -> Z.of_nat (length threads) <= l))
  ∧ (limit = Some 0 ->
     DiscordClient.fetch_threads fuel self since limit env w
     = DiscordClient.fetch_threads fuel self since None env w)
  ∧ (forall payload, DiscordClient.offline_payload self = Some payload ->
     exists threads w',
       DiscordClient.fetch_threads fuel self since limit env w = (Ok threads, w'))
  ∧ (forall fuel' threads w',
       (fuel <= fuel')%nat ->
       DiscordClient.fetch_threads fuel self since limit env w = (Ok threads, w') ->
       DiscordClient.fetch_threads fuel' self since limit env w = (Ok threads, w')).
Proof.
  split; [|split; [|split]].
  - intros threads w' H. split; [|split].
    + apply StronglySorted_Sorted. exact (fetch_threads_sorted _ _ _ _ _ _ _ _ H).
    + exact (fetch_threads_since _ _ _ _ _ _ _ _ H).
    + exact (fetch_threads_limit _ _ _ _ _ _ _ _ H).
  - intros ->. apply fetch_threads_same_limit. exact limit_reached_zero.
  - intros payload Hoff. eapply fetch_threads_offline_total. exact Hoff.
  - intros fuel' threads w' Hle H. exact (fetch_threads_fuel _ _ _ _ _ _ _ _ _ Hle H).
Qed.

(** Of the three threads of the fixture, created at 300, 100 and 200 in
    the order of the file, those created after 150 are returned, the
    earlier first; with the limit 0 all of them are, as without a
    limit. *)
Lemma C5_witness :
  (unordered_fetch (Some 2)).1 = Ok (fetched (unordered_fetch (Some 2)))
  ∧ map th_id (fetched (unordered_fetch (Some 2))) = ["t2"; "t3"]
  ∧ Sorted created_le (fetched (unordered_fetch (Some 2)))
  ∧ (forall t, t ∈ fetched (unordered_fetch (Some 2)) -> 150 < th_created_at t)
  ∧ Z.of_nat (length (fetched (unordered_fetch (Some 2)))) <= 2
  ∧ unordered_fetch (Some 0) = unordered_fetch None.
Proof.
  split; [vm_compute; reflexivity|]. split; [vm_compute; reflexivity|].
  destruct (proj1 (C5_fetch_threads_contract 0 (offline_client unordered_fixture)
                     (Some 150) (Some 2) (sample_env busy_server) fresh_world)
              _ (unordered_fetch (Some 2)).2 ltac:(vm_compute; reflexivity))
    as (Hs & Hsince & Hlimit).
  split; [exact Hs|]. split; [exact (Hsince 150 eq_refl)|]. split.
  - apply (Hlimit 2 eq_refl). lia.
  - exact (proj1 (proj2 (C5_fetch_threads_contract 0
                           (offline_client unordered_fixture) (Some 150) (Some 0)
                           (sample_env busy_server) fresh_world)) eq_refl).
Defined.

(** ** Retries *)





(** ** One run of the syncer *)

(** The two threads of the fixture were created at the same instant; both
    are submitted, in the order of the fixture, and the second is not
    later than the first. *)
Lemma C3_counterexample :
  exists t1 t2 q1 q2,
    DiscordClient.fetch_threads 0 (offline_client sample_fixture) None (Some 5)
      (sample_env busy_server) fresh_world = (Ok [t1; t2], fresh_world)
    ∧ issue_request_of sample_config pretty ∅ t1 = Ok q1
    ∧ issue_request_of sample_config pretty ∅ t2 = Ok q2
    ∧ sample_run.1 = Ok 2%nat
    ∧ issues sample_run.2 = [q1; q2]
    ∧ processed sample_run.2 = [ledger_entry pretty t1; ledger_entry pretty t2]
    ∧ ¬ th_created_at t1 < th_created_at t2.
Proof.
  eexists _, _, _, _.
  split; [vm_compute; reflexivity|].
  split; [vm_compute; reflexivity|].
  split; [vm_compute; reflexivity|].
  split; [vm_compute; reflexivity|].
  split; [vm_compute; reflexivity|].
  split; [vm_compute; reflexivity|].
  vm_compute. discriminate.
Qed.

(** C3.  In one run the issues are submitted for threads in
    ascending order of creation time, equal times allowed, and the ledger
    entries are appended in the order of the submissions.  The threads
    submitted are the first of the threads fetched that the ledger does
    not hold, in the order [fetch_threads] returned them, and all of them
    when the run returns.  When a submission fails, the entries recorded
    are those of the submissions before it. *)
Theorem C3_issues_in_creation_order fuel self since max_threads env w r w' :
  run fuel self since max_threads env w = (r, w') ->
  exists called recorded reqs,
    Sorted created_le called
    ∧ called `prefix_of`
        pending (map fst (processed w))
          (fetched (DiscordClient.fetch_threads fuel (_discord self) since
                      (Some (effective_limit self max_threads)) env w))
    ∧ Forall2 (fun thread q =>
                 issue_request_of (_config self) (isoformat env)
                   (available_tags w') thread = Ok q) called reqs
    ∧ issues w' = issues w ++ reqs
    ∧ recorded `prefix_of` called
    ∧ processed w' = processed w ++ map (ledger_entry (isoformat env)) recorded
    ∧ (forall n, r = Ok n ->
         recorded = called ∧ n = length called
         ∧ called =
           pending (map fst (processed w))
             (fetched (DiscordClient.fetch_threads fuel (_discord self) since
                         (Some (effective_limit self max_threads)) env w))).
Proof.
  intros Hrun.
  apply run_trace_fetched in Hrun
    as (called & recorded & reqs & Hs & Hc & Hr & Hreqs & Hi & Hp & Hok).
  exists called, recorded, reqs.
  split.
  { apply StronglySorted_Sorted.
    eapply StronglySorted_sublist; [|exact Hs].
    etransitivity; [apply prefix_sublist, Hc | apply pending_sublist]. }
  repeat (split; [assumption|]).
  intros n Hn. destruct (Hok n Hn) as (_ & Hrec & Hcalled & Hlen).
  subst called. rewrite <- Hrec. auto.
Qed.

(** The fixture lists its threads as created at 300, 100 and 200; they
    are fetched, submitted and recorded in the order 100, 200, 300. *)
Lemma C3_witness :
  map (fun tp => default 0 (tp_created_at tp)) (off_threads unordered_fixture)
  = [300; 100; 200]
  ∧ unordered_run.1 = Ok 3%nat
  ∧ map ir_title (issues unordered_run.2)
    = ["[Discord] First"; "[Discord] Second"; "[Discord] Third"]
  ∧ map fst (processed unordered_run.2) = ["t1"; "t2"; "t3"]
  ∧ exists called recorded reqs,
      Sorted created_le called
      ∧ called `prefix_of`
          pending (map fst (processed fresh_world))
            (fetched (DiscordClient.fetch_threads 0 (offline_client unordered_fixture)
                        None (Some 5) (sample_env busy_server) fresh_world))
      ∧ Forall2 (fun thread q =>
                   issue_request_of sample_config pretty
                     (available_tags unordered_run.2) thread = Ok q) called reqs
      ∧ issues unordered_run.2 = [] ++ reqs
      ∧ recorded `prefix_of` called
      ∧ processed unordered_run.2 = [] ++ map (ledger_entry pretty) recorded
      ∧ (forall n, unordered_run.1 = Ok n ->
           recorded = called ∧ n = length called
           ∧ called =
             pending (map fst (processed fresh_world))
               (fetched (DiscordClient.fetch_threads 0
                           (offline_client unordered_fixture)
                           None (Some 5) (sample_env busy_server) fresh_world))).
Proof.
  split; [reflexivity|]. split; [vm_compute; reflexivity|].
  split; [vm_compute; reflexivity|]. split; [vm_compute; reflexivity|].
  apply (C3_issues_in_creation_order 0
           (sample_syncer (offline_client unordered_fixture))
           None (Some 5) (sample_env busy_server) fresh_world
           unordered_run.1 unordered_run.2).
  vm_compute. reflexivity.
Defined.

(** With the prefix ["[Discord] "] and the thread name [" Crash "] the
    title keeps the blank before the name. *)
Lemma C9_counterexample :
  exists t q,
    DiscordClient.fetch_threads 0 (offline_client sample_fixture) None (Some 1)
      (sample_env busy_server) fresh_world = (Ok [t], fresh_world)
    ∧ issues (run 0 (sample_syncer (offline_client sample_fixture)) None (Some 1)
                (sample_env busy_server) fresh_world).2 = [q]
    ∧ issue_title_prefix sample_config = "[Discord] "
    ∧ th_name t = " Crash "
    ∧ ir_title q = "[Discord]  Crash"
    ∧ issue_title_prefix sample_config +:+ PyStr.strip (th_name t) = "[Discord] Crash"
    ∧ ir_title q ≠ issue_title_prefix sample_config +:+ PyStr.strip (th_name t).
Proof.
  eexists _, _.
  split; [vm_compute; reflexivity|].
  split; [vm_compute; reflexivity|].
  split; [vm_compute; reflexivity|].
  split; [vm_compute; reflexivity|].
  split; [vm_compute; reflexivity|].
  split; [vm_compute; reflexivity|].
  vm_compute. discriminate.
Qed.

(** C9.  The title of every submitted issue is the concatenation
    of the configured prefix and the thread's name, trimmed of white space
    as a whole. *)
Theorem C9_issue_title fuel self since max_threads env w r w' :
  run fuel self since max_threads env w = (r, w') ->
  exists called reqs,
    issues w' = issues w ++ reqs
    ∧ Forall2 (fun thread q =>
                 issue_request_of (_config self) (isoformat env)
                   (available_tags w') thread = Ok q
                 ∧ ir_title q
                   = PyStr.strip (issue_title_prefix (_config self) +:+ th_name thread))
        called reqs.
Proof.
  intros Hrun.
  apply run_trace in Hrun
    as (threads & called & recorded & reqs & _ & _ & _ & Hreqs & Hi & _).
  exists called, reqs. split; [exact Hi|].
  eapply Forall2_impl; [exact Hreqs|]. simpl. intros t q Hq.
  split; [exact Hq | exact (issue_request_title _ _ _ _ _ Hq)].
Qed.

Lemma C9_witness :
  exists called reqs,
    issues sample_run.2 = [] ++ reqs
    ∧ Forall2 (fun thread q =>
                 issue_request_of sample_config pretty
                   (available_tags sample_run.2) thread = Ok q
                 ∧ ir_title q = PyStr.strip ("[Discord] " +:+ th_name thread))
        called reqs.
Proof.
  apply (C9_issue_title 0 (sample_syncer (offline_client sample_fixture))
           None (Some 5) (sample_env busy_server) fresh_world
           sample_run.1 sample_run.2).
  vm_compute. reflexivity.
Defined.

(** C2.  After a run that succeeded, a second run that fetches no thread
    identity the first run did not fetch skips every thread and creates no
    issue, whether it reuses the ledger in memory or loads the file the
    first run wrote. *)
Theorem C2_second_run_creates_nothing
  fuel self since max_threads env w0 n1 w1 threads1 wa w1' threads2 wb :
  run fuel self since max_threads env w0 = (Ok n1, w1) ->
  DiscordClient.fetch_threads fuel (_discord self) since
    (Some (effective_limit self max_threads)) env w0 = (Ok threads1, wa) ->
  w1' = w1 ∨ w1' = (StateStore.load (_state self) env w1).2 ->
  DiscordClient.fetch_threads fuel (_discord self) since
    (Some (effective_limit self max_threads)) env w1' = (Ok threads2, wb) ->
  (forall t, t ∈ threads2 -> exists t', t' ∈ threads1 ∧ th_id t' = th_id t) ->
  (forall t, t ∈ threads2 ->
     StateStore.dict_contains (th_id t) (processed w1') = true)
  ∧ exists w2,
      run fuel self since max_threads env w1' = (Ok 0%nat, w2)
      ∧ issues w2 = issues w1.
Proof.
  intros Hrun1 Hf1 Hw1' Hf2 Hsame.
  apply run_Ok_inv in Hrun1 as (ths & wa' & wl & Hf1' & Hloop & ->).
  rewrite Hf1 in Hf1'. inversion Hf1'; subst ths wa'. clear Hf1'.
  pose proof (keeps_fetch_threads fuel (_discord self) since
                (Some (effective_limit self max_threads)) env w0) as Hk1.
  rewrite Hf1 in Hk1. destruct Hk1 as (_ & Hp1 & _). simpl in Hp1.
  apply run_loop_trace in Hloop as (called & recorded & _ & _ & Ht & Hok).
  destruct (Hok _ eq_refl) as (Hrec & _ & _).
  destruct Ht as [_ Hpl _ _ _ _ _ _].
  assert (Hkeys : forall t, t ∈ threads2 -> th_id t ∈ map fst (processed w1')).
  { intros t Ht. destruct (Hsame t Ht) as (t' & Ht' & <-).
    assert (Hin : th_id t' ∈ map fst (processed wl)).
    { rewrite Hpl, map_app, map_map. simpl. rewrite Hrec.
      apply pending_covers. exact Ht'. }
    destruct (persist_keeps_keys self (length recorded + 0) env wl _ Hin) as [H1 H2].
    destruct (Hok _ eq_refl) as (_ & _ & Hn). simpl in Hn. subst n1.
    destruct Hw1' as [->| ->].
    - replace (length recorded) with (length recorded + 0)%nat by lia. exact H1.
    - rewrite load_eq. simpl.
      replace (length recorded) with (length recorded + 0)%nat by lia. exact H2. }
  split.
  { intros t Ht. rewrite dict_contains_keys. apply bool_decide_eq_true_2. auto. }
  pose proof (keeps_fetch_threads fuel (_discord self) since
                (Some (effective_limit self max_threads)) env w1') as Hk2.
  rewrite Hf2 in Hk2. destruct Hk2 as (Hi2 & Hp2 & _). simpl in Hi2, Hp2.
  rewrite run_eq, Hf2.
  rewrite run_loop_all_skipped by (rewrite Hp2; exact Hkeys).
  eexists. split; [reflexivity|].
  destruct (persist_frame self 0 env wb) as (Hi & _). cbv zeta in Hi.
  rewrite Hi, Hi2.
  destruct Hw1' as [->| ->]; [reflexivity|].
  rewrite load_eq. simpl. unfold loaded.
  destruct (ledger_file _); reflexivity.
Qed.

Lemma C2_witness :
  exists w2,
    run 0 (sample_syncer (offline_client sample_fixture)) None (Some 5)
      (sample_env busy_server) sample_run.2 = (Ok 0%nat, w2)
    ∧ issues w2 = issues sample_run.2.
Proof.
  refine (proj2 (C2_second_run_creates_nothing 0
                   (sample_syncer (offline_client sample_fixture)) None (Some 5)
                   (sample_env busy_server) fresh_world 2 sample_run.2
                   _ _ sample_run.2 _ _ _ _ (or_introl eq_refl) _ _)).
  - vm_compute. reflexivity.
  - vm_compute. reflexivity.
  - vm_compute. reflexivity.
  - intros t Ht. exists t. split; [exact Ht | reflexivity].
Defined.

(** A run that finds no thread, on a ledger that never ran, writes a file
    with no time of synchronization: what is loaded from it is what is
    loaded when there is no file.  A run that skips every thread, on a
    ledger in the old format without a time of synchronization, leaves the
    time unset too. *)
Lemma C8_counterexample :
  let state := {| StateStore.path := "state.json";
                  StateStore.backup_enabled := false |} in
  let env := sample_env busy_server in
  (* a ledger that never ran, and a run that finds no thread *)
  (let w0 := (StateStore.load state env fresh_world).2 in
   let r := run 0 (sample_syncer (offline_client empty_fixture)) None None env w0 in
   never_run_ledger w0
   ∧ r.1 = Ok 0%nat
   ∧ ledger_file r.2
     = Some {| doc_processed := ProcessedMap []; doc_last_synced_at := None |}
   ∧ never_run_ledger r.2
   ∧ never_run_ledger (StateStore.load state env r.2).2)
  (* a ledger without a time of synchronization, and a run that skips
     every thread *)
  ∧ (let w0 := (StateStore.load state env legacy_world).2 in
     let r := run 0 (sample_syncer (offline_client sample_fixture)) None None env w0 in
     last_synced_at w0 = None
     ∧ r.1 = Ok 0%nat
     ∧ last_synced_at r.2 = None
     ∧ last_synced_at (StateStore.load state env r.2).2 = None).
Proof.
  vm_compute. repeat split; reflexivity.
Qed.

(** C8.  A run that returns writes the ledger file from the
    ledger in memory.  When a thread was newly processed, or the ledger
    had been synchronized before, [last_synced_at] is the last reading of
    the clock in this run.  When no thread was newly processed and the
    ledger had never been synchronized, the ledger is written as it was,
    [last_synced_at] still unset. *)
Theorem C8_persist_and_heartbeat fuel self since max_threads env w n w' :
  run fuel self since max_threads env w = (Ok n, w') ->
  ledger_file w'
  = Some {| doc_processed := ProcessedMap (processed w');
            doc_last_synced_at := last_synced_at w' |}
  ∧ (n ≠ 0%nat ∨ is_Some (last_synced_at w) ->
     (ticks w < ticks w')%nat
     ∧ last_synced_at w' = Some (isoformat env (clock env (ticks w' - 1)%nat)))
  ∧ (n = 0%nat -> last_synced_at w = None ->
     last_synced_at w' = None ∧ processed w' = processed w).
Proof.
  intros Hrun.
  apply run_Ok_inv in Hrun as (threads & wa & wb & Hf & Hloop & ->).
  pose proof (keeps_fetch_threads fuel (_discord self) since
                (Some (effective_limit self max_threads)) env w) as Hk.
  rewrite Hf in Hk. destruct Hk as (_ & Hp & Hl & _ & _ & Htk).
  cbn [snd] in Hp, Hl, Htk.
  apply run_loop_trace in Hloop as (called & recorded & _ & _ & Ht & Hok).
  destruct (Hok _ eq_refl) as (_ & _ & Hn). cbn [Nat.add] in Hn.
  destruct Ht as [_ Hpr Hticks Hsync _ _ _ _].
  rewrite persist_eq. cbn [snd].
  destruct recorded as [|t0 recorded].
  - (* nothing was newly processed *)
    cbn [length map] in Hn, Hpr, Hticks. subst n.
    rewrite app_nil_r in Hpr. rewrite Hl in Hsync.
    change (negb (0 =? 0)%nat) with false. rewrite orb_false_l.
    destruct (last_synced_at w) as [s|] eqn:Hlast.
    + rewrite bool_decide_eq_true_2 by (rewrite Hsync; eauto). cbn [negb].
      destruct (saved_fields (_state self) (heartbeat env wb)) as (Hp' & Hs' & Ht').
      split; [apply saved_ledger_file|]. split.
      * intros _. rewrite Hs', Ht'. unfold heartbeat. cbn [last_synced_at ticks].
        unfold set_last_synced_at, set_ticks. cbn [last_synced_at ticks].
        split; [lia|]. repeat f_equal; lia.
      * intros _ Hnone. discriminate Hnone.
    + rewrite bool_decide_eq_false_2
        by (rewrite Hsync; intros [? ?]; discriminate).
      cbn [negb].
      destruct (saved_fields (_state self) wb) as (Hp' & Hs' & Ht').
      split; [apply saved_ledger_file|]. split.
      * intros [Hn|[? Hs]]; [congruence | discriminate Hs].
      * intros _ _. rewrite Hs', Hp', Hsync, Hpr, Hp. auto.
  - cbn [length] in Hn, Hticks. subst n.
    change (negb (S (length recorded) =? 0)%nat) with true. rewrite orb_true_l.
    destruct (saved_fields (_state self) wb) as (Hp' & Hs' & Ht').
    split; [apply saved_ledger_file|]. split.
    + intros _. rewrite Hs', Ht', Hsync, Hticks. cbn [length]. split; [lia|].
      repeat f_equal; lia.
    + intros Hn. discriminate Hn.
Qed.

Lemma C8_witness :
  (ticks fresh_world < ticks sample_run.2)%nat
  ∧ last_synced_at sample_run.2
    = Some (pretty (1000 + Z.of_nat (ticks sample_run.2 - 1))).
Proof.
  refine (proj1 (proj2 (C8_persist_and_heartbeat 0
                          (sample_syncer (offline_client sample_fixture)) None (Some 5)
                          (sample_env busy_server) fresh_world 2 sample_run.2 _)) _).
  - vm_compute. reflexivity.
  - left. discriminate.
Defined.

(** ** A whole session *)

(** On the fixture and an empty ledger the first run creates two issues,
    the first with the attachment in its body and with a mapped label, a
    default label and the fallback label of the tag the channel names; the
    second run creates none. *)
Example sample_session_result :
  let r := sample_session (sample_env busy_server) fresh_world in
  r.1 = Ok (2%nat, 0%nat)
  ∧ map ir_title (issues r.2) = ["[Discord]  Crash"; "[Discord] Second"]
  ∧ map ir_labels (issues r.2)
    = [ ["discord"; "triage"; "bug"; "discord/tag/crash-report"];
        ["discord"; "triage"] ]
  ∧ map ir_body (issues r.2)
    = [ "licht 100 It crashed. - [crash-log.txt](https://cdn/crash-log.txt)";
        "licht 100 It crashed. - なし" ]
  ∧ processed r.2 = [("t1", "100"); ("t2", "100")]
  ∧ ledger_file r.2
    = Some {| doc_processed := ProcessedMap [("t1", "100"); ("t2", "100")];
              doc_last_synced_at := last_synced_at r.2 |}.
Proof. vm_compute. repeat split; reflexivity. Qed.

(** * Further properties *)

(** ** Rendering any text *)

Lemma result_map_Ok {A B : Type} (f : A -> B) r b :
  result_map f r = Ok b -> exists a, r = Ok a ∧ b = f a.
Proof. destruct r as [a|e]; simpl; [|discriminate]. intros [= <-]. eauto. Qed.

Lemma result_map_Raise {A B : Type} (f : A -> B) r e :
  result_map f r = Raise e -> r = Raise e.
Proof. destruct r as [a|e']; simpl; [discriminate|]. now intros [= <-]. Qed.

Lemma render_Raise_inv template context e :
  render template context = Raise e ->
  exists key,
    e = KeyError key ∧ context !! key = None
    ∧ PyStr.truthy key = true ∧ all_chars is_ident_char key = true.
Proof.
  unfold render. revert e.
  induction template as [|c r key rest Hm IH|c r Hm IH] using scan_ind;
    intros e Hr.
  - rewrite sub_placeholders_equation_1 in Hr. discriminate.
  - rewrite (sub_placeholders_match _ _ _ _ _ Hm) in Hr.
    destruct (context !! key) as [v|] eqn:Hv.
    + apply result_map_Raise in Hr. exact (IH _ Hr).
    + inversion Hr; subst. exists key.
      destruct (match_placeholder_key _ _ _ Hm). auto.
  - rewrite (sub_placeholders_no_match _ _ _ Hm) in Hr.
    apply result_map_Raise in Hr. exact (IH _ Hr).
Qed.

(** X1.  Whatever the template, [render] fails in one way only: with the
    [KeyError] of an identifier, not empty and made of letters, digits and
    underscores, that the context has no entry for. *)
Theorem render_fails_only_on_missing_key template context e :
  render template context = Raise e ->
  exists key,
    e = KeyError key ∧ context !! key = None
    ∧ PyStr.truthy key = true ∧ all_chars is_ident_char key = true.
Proof. apply render_Raise_inv. Qed.

Lemma render_fails_only_on_missing_key_witness :
  exists key,
    KeyError "name" = KeyError key
    ∧ ({[ "title" := "T" ]} : gmap string string) !! key = None
    ∧ PyStr.truthy key = true ∧ all_chars is_ident_char key = true.
Proof.
  apply (render_fails_only_on_missing_key "{{title}}: {{ name }}"
           {[ "title" := "T" ]} (KeyError "name")).
  vm_compute. reflexivity.
Defined.

(** X2.  Adding entries to the context does not change a rendering that
    succeeded. *)
Theorem render_with_larger_context template (context context' : gmap string string) out :
  context ⊆ context' ->
  render template context = Ok out ->
  render template context' = Ok out.
Proof.
  intros Hsub. unfold render. revert out.
  induction template as [|c r key rest Hm IH|c r Hm IH] using scan_ind;
    intros out Hr.
  - rewrite sub_placeholders_equation_1 in Hr |- *. exact Hr.
  - rewrite (sub_placeholders_match context _ _ _ _ Hm) in Hr.
    rewrite (sub_placeholders_match context' _ _ _ _ Hm).
    destruct (context !! key) as [v|] eqn:Hv; [|discriminate].
    rewrite (lookup_weaken _ _ _ _ Hv Hsub).
    apply result_map_Ok in Hr as (a & Ha & ->).
    now rewrite (IH _ Ha).
  - rewrite (sub_placeholders_no_match context _ _ Hm) in Hr.
    rewrite (sub_placeholders_no_match context' _ _ Hm).
    apply result_map_Ok in Hr as (a & Ha & ->).
    now rewrite (IH _ Ha).
Qed.

Lemma render_with_larger_context_witness :
  render "Hello {{name}}" {[ "title" := "T"; "name" := "Epika" ]} = Ok "Hello Epika".
Proof.
  apply (render_with_larger_context "Hello {{name}}" {[ "name" := "Epika" ]}).
  - apply insert_subseteq. reflexivity.
  - vm_compute. reflexivity.
Defined.

(** X3.  A template in which no placeholder begins is returned unchanged
    whatever the context; with an empty context these are the only
    templates that [render] accepts. *)
Theorem render_without_placeholder template :
  (forall context,
     has_placeholder template = false -> render template context = Ok template)
  ∧ (forall out,
       render template ∅ = Ok out ->
       has_placeholder template = false ∧ out = template).
Proof.
  unfold render. split.
  - intros context. induction template as [|c r IH]; intros Hno.
    + now rewrite sub_placeholders_equation_1.
    + simpl in Hno. apply orb_false_iff in Hno as [Hm Hr].
      apply bool_decide_eq_false in Hm.
      destruct (match_placeholder (String c r)) as [p|] eqn:E;
        [exfalso; apply Hm; eauto|].
      rewrite (sub_placeholders_no_match _ _ _ E), (IH Hr). reflexivity.
  - induction template as [|c r IH]; intros out Hr.
    + rewrite sub_placeholders_equation_1 in Hr. inversion Hr. auto.
    + destruct (match_placeholder (String c r)) as [[key rest]|] eqn:E.
      * rewrite (sub_placeholders_match _ _ _ _ _ E), lookup_empty in Hr.
        discriminate.
      * rewrite (sub_placeholders_no_match _ _ _ E) in Hr.
        apply result_map_Ok in Hr as (a & Ha & ->).
        destruct (IH _ Ha) as [Hno ->].
        split; [|reflexivity].
        cbn [has_placeholder]. rewrite E, Hno.
        rewrite bool_decide_eq_false_2; [reflexivity|].
        intros [? ?]; discriminate.
Qed.

Lemma render_without_placeholder_witness :
  render "{{}} {{a-b}} { {a} } {{ a b }}" {[ "a" := "x" ]}
  = Ok "{{}} {{a-b}} { {a} } {{ a b }}".
Proof.
  apply (proj1 (render_without_placeholder "{{}} {{a-b}} { {a} } {{ a b }}")).
  vm_compute. reflexivity.
Defined.

(** ** The ledger *)

Lemma dict_set_keys_eq k v d :
  map fst (StateStore.dict_set k v d)
  = if StateStore.dict_contains k d then map fst d else map fst d ++ [k].
Proof.
  induction d as [|[k' v'] d IH]; simpl; [reflexivity|].
  destruct (String.eqb k' k); simpl; [reflexivity|].
  rewrite IH. now destruct (StateStore.dict_contains k d).
Qed.

Lemma dict_set_NoDup k v d :
  NoDup (map fst d) -> NoDup (map fst (StateStore.dict_set k v d)).
Proof.
  intros H. rewrite dict_set_keys_eq.
  destruct (StateStore.dict_contains k d) eqn:E; [exact H|].
  rewrite dict_contains_keys in E. apply bool_decide_eq_false in E.
  apply NoDup_app. split; [exact H|]. split.
  - intros x Hx Hk. apply list_elem_of_singleton in Hk. now subst.
  - apply NoDup_singleton.
Qed.

Lemma fold_dict_set_NoDup l : forall acc,
  NoDup (map fst acc) ->
  NoDup (map fst (fold_left (fun d kv => StateStore.dict_set kv.1 kv.2 d) l acc)).
Proof.
  induction l as [|[k v] l IH]; intros acc H; simpl; [exact H|].
  apply IH, dict_set_NoDup, H.
Qed.

Lemma fold_dict_set_fresh l : forall acc,
  NoDup (map fst (acc ++ l)) ->
  fold_left (fun d kv => StateStore.dict_set kv.1 kv.2 d) l acc = acc ++ l.
Proof.
  induction l as [|[k v] l IH]; intros acc H; simpl.
  - now rewrite app_nil_r.
  - rewrite dict_set_fresh.
    + rewrite IH; rewrite <- app_assoc; [reflexivity|exact H].
    + rewrite dict_contains_keys. apply bool_decide_eq_false.
      rewrite map_app in H. apply NoDup_app in H as (_ & Hdisj & _).
      intros Hin. apply (Hdisj k Hin). simpl. left.
Qed.

Lemma dict_set_entries k v d kv :
  kv ∈ StateStore.dict_set k v d -> kv = (k, v) ∨ kv ∈ d.
Proof.
  induction d as [|[k' v'] d IH]; simpl.
  - intros H. apply list_elem_of_singleton in H. now left.
  - destruct (String.eqb_spec k' k) as [->|Hne].
    + intros H. apply elem_of_cons in H as [->|H]; [now left|].
      right. now right.
    + intros H. apply elem_of_cons in H as [->|H]; [right; left|].
      destruct (IH H) as [->|Hd]; [now left|right; now right].
Qed.

Lemma dict_set_holds k v d : (k, v) ∈ StateStore.dict_set k v d.
Proof.
  induction d as [|[k' v'] d IH]; simpl; [left|].
  destruct (String.eqb_spec k' k) as [->|Hne]; [left|now right].
Qed.

Lemma fold_dict_set_entries l : forall acc kv,
  kv ∈ fold_left (fun d kv => StateStore.dict_set kv.1 kv.2 d) l acc ->
  kv ∈ acc ∨ kv ∈ l.
Proof.
  induction l as [|[k v] l IH]; intros acc kv H; simpl in H; [now left|].
  destruct (IH _ _ H) as [Hs|Hl]; [|right; now right].
  destruct (dict_set_entries _ _ _ _ Hs) as [->|Ha]; [right; left|now left].
Qed.

Lemma NoDup_fst_unique (d : list (string * string)) k v v' :
  NoDup (map fst d) -> (k, v) ∈ d -> (k, v') ∈ d -> v = v'.
Proof.
  induction d as [|[k0 x] d IH]; intros Hnd Hv Hv'; [inversion Hv|].
  simpl in Hnd. apply NoDup_cons in Hnd as [Hk Hnd].
  apply elem_of_cons in Hv as [Hv|Hv], Hv' as [Hv'|Hv'].
  - congruence.
  - injection Hv as <- <-. exfalso. apply Hk.
    apply list_elem_of_fmap. now exists (k, v').
  - injection Hv' as <- <-. exfalso. apply Hk.
    apply list_elem_of_fmap. now exists (k, v).
  - now apply IH.
Qed.

Lemma or_else_empty s : PyStr.or_else s "" = s.
Proof. now destruct s. Qed.

(** X4.  Saving the ledger and loading it again gives back the ledger in
    memory, identities, time stamps and order, when no identity is held
    twice; that is so of every ledger that [load] leaves and is kept by
    [mark_processed]. *)
Theorem ledger_save_load_round_trip self :
  (forall env w,
     NoDup (map fst (processed w)) ->
     let w' := (StateStore.load self env (StateStore.save self env w).2).2 in
     processed w' = processed w ∧ last_synced_at w' = last_synced_at w)
  ∧ (forall env w, NoDup (map fst (processed (StateStore.load self env w).2)))
  ∧ (forall thread_id processed_at env w,
       NoDup (map fst (processed w)) ->
       NoDup (map fst (processed
                (StateStore.mark_processed self thread_id processed_at env w).2))).
Proof.
  split; [|split].
  - intros env w Hnd. rewrite load_eq. cbn [snd].
    change (StateStore.save self env w).2 with (saved self w).
    unfold loaded. rewrite saved_ledger_file.
    destruct (saved_fields self w) as (Hp & Hl & _).
    cbn [doc_processed doc_last_synced_at set_last_synced_at set_processed
         processed last_synced_at].
    rewrite Hp, Hl. split; [|reflexivity].
    unfold StateStore.dict_of_pairs.
    now rewrite fold_dict_set_fresh.
  - intros env w. rewrite load_eq. cbn [snd]. unfold loaded.
    destruct (ledger_file w) as [data|]; cbn [set_last_synced_at set_processed
                                              processed].
    + apply fold_dict_set_NoDup. constructor.
    + constructor.
  - intros thread_id processed_at env w Hnd.
    apply (dict_set_NoDup thread_id (isoformat env processed_at)) in Hnd.
    exact Hnd.
Qed.

Lemma ledger_save_load_round_trip_witness :
  let self := {| StateStore.path := "state.json";
                 StateStore.backup_enabled := true |} in
  let w' := (StateStore.load self (sample_env busy_server)
               (StateStore.save self (sample_env busy_server)
                  busy_ledger_world).2).2 in
  processed w' = [("t0", "1"); ("t1", "2")] ∧ last_synced_at w' = Some "2".
Proof.
  apply (proj1 (ledger_save_load_round_trip
                  {| StateStore.path := "state.json";
                     StateStore.backup_enabled := true |})
           (sample_env busy_server) busy_ledger_world).
  apply (bool_decide_unpack _). vm_compute. exact I.
Defined.

(** X5.  After [mark_processed] the thread counts as processed with the
    given time as its stamp, the answer of [has_processed] for every
    other identity is what it was, and [last_synced_at] is the reading of
    the clock. *)
Theorem mark_processed_then_has_processed self thread_id processed_at env w :
  let w' := (StateStore.mark_processed self thread_id processed_at env w).2 in
  (StateStore.has_processed self thread_id env w').1 = Ok true
  ∧ (thread_id, isoformat env processed_at) ∈ processed w'
  ∧ (forall v, (thread_id, v) ∈ processed w' -> NoDup (map fst (processed w)) ->
       v = isoformat env processed_at)
  ∧ (forall other, other ≠ thread_id ->
       (StateStore.has_processed self other env w').1
       = (StateStore.has_processed self other env w).1)
  ∧ last_synced_at w' = Some (isoformat env (clock env (ticks w))).
Proof.
  cbn [StateStore.mark_processed StateStore.has_processed bind ask get_world
       modify now ret fst snd set_processed set_last_synced_at set_ticks
       processed last_synced_at ticks].
  split; [|split; [|split; [|split]]].
  - f_equal. rewrite dict_contains_keys. apply bool_decide_eq_true.
    apply dict_set_keys. now left.
  - apply dict_set_holds.
  - intros v Hin Hnd.
    apply (dict_set_NoDup thread_id (isoformat env processed_at)) in Hnd.
    exact (NoDup_fst_unique _ _ _ _ Hnd Hin (dict_set_holds _ _ _)).
  - intros other Hne. f_equal. rewrite !dict_contains_keys.
    apply bool_decide_ext. rewrite dict_set_keys. split; [|tauto].
    intros [?|?]; [congruence|assumption].
  - reflexivity.
Qed.

Lemma mark_processed_then_has_processed_witness :
  let self := {| StateStore.path := "state.json";
                 StateStore.backup_enabled := true |} in
  let w' := (StateStore.mark_processed self "t1" 7 (sample_env busy_server)
               busy_ledger_world).2 in
  processed w' = [("t0", "1"); ("t1", "7")]
  ∧ (StateStore.has_processed self "t9" (sample_env busy_server) w').1
    = (StateStore.has_processed self "t9" (sample_env busy_server)
         busy_ledger_world).1.
Proof.
  split; [reflexivity|].
  apply (mark_processed_then_has_processed
           {| StateStore.path := "state.json"; StateStore.backup_enabled := true |}
           "t1" 7 (sample_env busy_server) busy_ledger_world).
  discriminate.
Defined.

(** X6.  [load] takes the ledger from the file alone.  Without a file the
    ledger is empty and never synchronized, whatever was in memory.  From
    a file in the old format, a list of identities, exactly the listed
    identities count as processed, each stamped with the file's
    [last_synced_at], or with the empty string when the file has none. *)
Theorem load_reads_old_format self env w :
  (ledger_file w = None ->
   processed (StateStore.load self env w).2 = []
   ∧ last_synced_at (StateStore.load self env w).2 = None)
  ∧ (forall ids stamp,
       ledger_file w = Some {| doc_processed := ProcessedList ids;
                               doc_last_synced_at := stamp |} ->
       let w' := (StateStore.load self env w).2 in
       (forall thread_id,
          (StateStore.has_processed self thread_id env w').1
          = Ok (bool_decide (thread_id ∈ ids)))
       ∧ (forall thread_id v, (thread_id, v) ∈ processed w' -> v = default "" stamp)
       ∧ last_synced_at w' = stamp).
Proof.
  rewrite load_eq. cbn [snd]. unfold loaded. split.
  - intros ->. auto.
  - intros ids stamp ->.
    cbn [doc_processed doc_last_synced_at set_last_synced_at set_processed
         processed last_synced_at StateStore.has_processed bind get_world ret
         fst snd].
    split; [|split; [|reflexivity]].
    + intros thread_id. f_equal. rewrite dict_contains_keys.
      apply bool_decide_ext. rewrite dict_of_pairs_keys, map_map. simpl.
      now rewrite map_id.
    + intros thread_id v Hin.
      apply fold_dict_set_entries in Hin as [Hin|Hin]; [inversion Hin|].
      apply list_elem_of_fmap in Hin as (tid & Heq & _).
      inversion Heq; subst. destruct stamp as [s|]; [apply or_else_empty|].
      reflexivity.
Qed.

Lemma load_reads_old_format_witness :
  let self := {| StateStore.path := "state.json";
                 StateStore.backup_enabled := true |} in
  let w' := (StateStore.load self (sample_env busy_server) legacy_world).2 in
  processed w' = [("t1", ""); ("t2", "")]
  ∧ (forall thread_id,
       (StateStore.has_processed self thread_id (sample_env busy_server) w').1
       = Ok (bool_decide (thread_id ∈ ["t1"; "t2"])))
  ∧ (forall thread_id v, (thread_id, v) ∈ processed w' -> v = default "" None)
  ∧ last_synced_at w' = None.
Proof.
  split; [reflexivity|].
  apply (proj2 (load_reads_old_format
                  {| StateStore.path := "state.json";
                     StateStore.backup_enabled := true |}
                  (sample_env busy_server) legacy_world) ["t1"; "t2"] None).
  reflexivity.
Defined.

(** ** The Discord client without a network *)

Lemma quiet_ret {A : Type} (a : A) : keeps_net (ret a).
Proof. intros env w. auto. Qed.

Lemma quiet_now : keeps_net now.
Proof. intros env w. auto. Qed.

Lemma quiet_bind {A B : Type} (m : M A) (k : A -> M B) :
  keeps_net m -> (forall a, keeps_net (k a)) -> keeps_net (bind m k).
Proof.
  intros Hm Hk env w. unfold bind. specialize (Hm env w).
  destruct (m env w) as [[a|e] w1]; [|exact Hm].
  destruct Hm as (Hr & Hs & Ht). cbn [snd] in Hr, Hs, Ht.
  destruct (Hk a env w1) as (Hr' & Hs' & Ht').
  rewrite Hr', Hs', Ht'. auto.
Qed.

Lemma quiet_mapM {A B : Type} (f : A -> M B) l :
  (forall a, keeps_net (f a)) -> keeps_net (mapM f l).
Proof.
  intros Hf. induction l as [|a l IH]; simpl; [apply quiet_ret|].
  apply quiet_bind; [apply Hf|]. intros b.
  apply quiet_bind; [exact IH|]. intros bs. apply quiet_ret.
Qed.

Lemma quiet_parse_timestamp value : keeps_net (_parse_timestamp value).
Proof. destruct value; [apply quiet_ret|apply quiet_now]. Qed.

Lemma quiet_message_from_payload p : keeps_net (_message_from_payload p).
Proof.
  unfold _message_from_payload.
  apply quiet_bind; [apply quiet_parse_timestamp|]. intros ts. apply quiet_ret.
Qed.

Lemma quiet_offline_loop payload since limit todo : forall threads,
  keeps_net (offline_loop payload since limit todo threads).
Proof.
  induction todo as [|tp later IH]; intros threads; simpl; [apply quiet_ret|].
  apply quiet_bind; [apply quiet_parse_timestamp|]. intros created_at.
  destruct (since_excludes since created_at); [apply IH|].
  apply quiet_bind; [apply quiet_mapM, quiet_message_from_payload|].
  intros [|m ms]; [apply IH|].
  destruct (limit_reached _ _); [apply quiet_ret|apply IH].
Qed.

(** X7.  A client built on a fixture never uses the network: neither
    [fetch_threads] nor [fetch_thread_messages] sends a request, takes a
    nap or touches the tag cache, and [fetch_thread_messages] gives the
    empty list for a thread the fixture does not hold. *)
Theorem offline_client_stays_offline fuel self payload since limit thread_id env w :
  offline_payload self = Some payload ->
  let w1 := (fetch_threads fuel self since limit env w).2 in
  let w2 := (fetch_thread_messages self thread_id env w).2 in
  (requests w1 = requests w ∧ slept w1 = slept w
   ∧ available_tags w1 = available_tags w)
  ∧ (requests w2 = requests w ∧ slept w2 = slept w
     ∧ available_tags w2 = available_tags w)
  ∧ (Forall (fun tp => py_str (tp_id tp) ≠ thread_id) (off_threads payload) ->
     fetch_thread_messages self thread_id env w = (Ok [], w)).
Proof.
  intros Hoff. unfold fetch_threads, fetch_thread_messages. rewrite Hoff.
  split; [|split].
  - apply (quiet_bind (offline_loop payload since limit (off_threads payload) [])).
    + apply quiet_offline_loop.
    + intros threads. apply quiet_ret.
  - destruct (find _ _); [|apply quiet_ret].
    apply quiet_mapM, quiet_message_from_payload.
  - intros Hnone.
    destruct (find _ _) as [tp|] eqn:Hfind; [|reflexivity].
    apply find_some in Hfind as [Hin Heq].
    rewrite Forall_forall in Hnone.
    apply String.eqb_eq in Heq. apply list_elem_of_In in Hin.
    now apply Hnone in Hin.
Qed.

Lemma offline_client_stays_offline_witness :
  let w1 := (fetch_threads 0 (offline_client sample_fixture) None None
               (sample_env busy_server) fresh_world).2 in
  let w2 := (fetch_thread_messages (offline_client sample_fixture) "t9"
               (sample_env busy_server) fresh_world).2 in
  (requests w1 = requests fresh_world ∧ slept w1 = slept fresh_world
   ∧ available_tags w1 = available_tags fresh_world)
  ∧ (requests w2 = requests fresh_world ∧ slept w2 = slept fresh_world
     ∧ available_tags w2 = available_tags fresh_world)
  ∧ fetch_thread_messages (offline_client sample_fixture) "t9"
      (sample_env busy_server) fresh_world = (Ok [], fresh_world).
Proof.
  destruct (offline_client_stays_offline 0 (offline_client sample_fixture)
              sample_fixture None None "t9" (sample_env busy_server) fresh_world
              eq_refl) as (H1 & H2 & H3).
  split; [exact H1|]. split; [exact H2|].
  apply H3. repeat constructor; discriminate.
Defined.

(** ** First messages and the order of threads *)

Lemma min_message_spec rest : forall best,
  let f := min_message best rest in
  msg_timestamp f <= msg_timestamp best
  ∧ Forall (fun m => msg_timestamp f <= msg_timestamp m) rest
  ∧ exists pre post,
      best :: rest = pre ++ f :: post
      ∧ Forall (fun m => msg_timestamp f < msg_timestamp m) pre.
Proof.
  induction rest as [|m rest IH]; intros best; simpl.
  - split; [lia|]. split; [constructor|]. exists [], []. split; [reflexivity|].
    constructor.
  - destruct (Z.ltb_spec (msg_timestamp m) (msg_timestamp best)) as [Hlt|Hge].
    + destruct (IH m) as (Hle & Hall & pre & post & Heq & Hpre).
      revert Hle Hall Heq Hpre. generalize (min_message m rest). intros f **.
      split; [lia|]. split; [constructor; assumption|].
      exists (best :: pre), post. split; [simpl; now rewrite <- Heq|].
      constructor; [lia|exact Hpre].
    + destruct (IH best) as (Hle & Hall & pre & post & Heq & Hpre).
      revert Hle Hall Heq Hpre. generalize (min_message best rest). intros f **.
      split; [exact Hle|]. split; [constructor; [lia|exact Hall]|].
      destruct pre as [|b pre].
      * injection Heq as Hb Hrest. exists [], (m :: rest).
        split; [simpl; now rewrite <- Hb|constructor].
      * injection Heq as Hb Hrest. subst b.
        apply Forall_cons in Hpre as [Hb Hpre].
        exists (best :: m :: pre), post.
        split; [simpl; now rewrite Hrest|].
        constructor; [exact Hb|]. constructor; [lia|exact Hpre].
Qed.

Lemma min_message_earliest m ms : earliest_of (m :: ms) (min_message m ms).
Proof.
  destruct (min_message_spec ms m) as (Hle & Hall & Hsplit).
  split; [constructor; assumption|exact Hsplit].
Qed.

Lemma live_loop_first_message self since limit todo : forall acc env w r w',
  live_loop self since limit todo acc env w = (Ok r, w') ->
  Forall (live_first_message_ok self env) acc ->
  Forall (live_first_message_ok self env) r.
Proof.
  induction todo as [|tp later IH]; intros acc env w r w' Hrun Hacc.
  - inversion Hrun; subst. exact Hacc.
  - simpl in Hrun.
    apply bind_Ok in Hrun as (c & w1 & _ & Hrun).
    destruct (since_excludes since c); [eauto|].
    apply bind_Ok in Hrun as (tid & w2 & _ & Hrun).
    apply bind_Ok in Hrun as (messages & w3 & Hmsgs & Hrun).
    destruct messages as [|m ms]; [eauto|].
    match type of Hrun with context [acc ++ [?t]] => set (thread := t) in * end.
    assert (Hnew : Forall (live_first_message_ok self env) (acc ++ [thread])).
    { apply Forall_app. split; [exact Hacc|]. constructor; [|constructor].
      exists w2, w3, (m :: ms). split; [exact Hmsgs|].
      apply min_message_earliest. }
    destruct (limit_reached limit (length (acc ++ [thread]))).
    + inversion Hrun; subst. exact Hnew.
    + eapply IH; [exact Hrun|exact Hnew].
Qed.

Lemma offline_loop_first_message payload since limit todo : forall acc env w r w',
  offline_loop payload since limit todo acc env w = (Ok r, w') ->
  (forall tp, tp ∈ todo -> tp ∈ off_threads payload) ->
  Forall (offline_first_message_ok payload env) acc ->
  Forall (offline_first_message_ok payload env) r.
Proof.
  induction todo as [|tp later IH]; intros acc env w r w' Hrun Hsub Hacc.
  - inversion Hrun; subst. exact Hacc.
  - assert (Hlater : forall tp', tp' ∈ later -> tp' ∈ off_threads payload).
    { intros tp' Hin. apply Hsub. now right. }
    simpl in Hrun.
    apply bind_Ok in Hrun as (c & w1 & _ & Hrun).
    destruct (since_excludes since c); [eauto|].
    apply bind_Ok in Hrun as (messages & w3 & Hmsgs & Hrun).
    destruct messages as [|m ms]; [eauto|].
    match type of Hrun with context [acc ++ [?t]] => set (thread := t) in * end.
    assert (Hnew : Forall (offline_first_message_ok payload env) (acc ++ [thread])).
    { apply Forall_app. split; [exact Hacc|]. constructor; [|constructor].
      exists tp, w1, w3, (m :: ms). split; [apply Hsub; left|].
      split; [reflexivity|]. split; [exact Hmsgs|].
      apply min_message_earliest. }
    destruct (limit_reached limit (length (acc ++ [thread]))).
    + inversion Hrun; subst. exact Hnew.
    + eapply IH; [exact Hrun|exact Hlater|exact Hnew].
Qed.

(** X8.  The first message of every thread that [fetch_threads] returns
    is the earliest of the thread's messages, and the first of them in
    the order received when several are the earliest: over the network, of
    the messages that [fetch_thread_messages] answered for the thread;
    from a fixture, of the messages the fixture lists for it. *)
Theorem first_message_is_earliest fuel self since limit env w threads w' :
  fetch_threads fuel self since limit env w = (Ok threads, w') ->
  forall t, t ∈ threads ->
    match offline_payload self with
    | None => live_first_message_ok self env t
    | Some payload => offline_first_message_ok payload env t
    end.
Proof.
  unfold fetch_threads. intros Hrun t Ht.
  destruct (offline_payload self) as [payload|] eqn:Hoff.
  - unfold _threads_from_offline in Hrun.
    apply bind_Ok in Hrun as (built & w1 & Hloop & Hret).
    inversion Hret; subst.
    apply offline_loop_first_message in Hloop; [|auto|constructor].
    rewrite Forall_forall in Hloop. apply Hloop.
    now rewrite <- (sort_threads_perm built).
  - apply bind_Ok in Hrun as (u & w1 & _ & Hrun).
    apply bind_Ok in Hrun as (collected & w2 & _ & Hrun).
    apply bind_Ok in Hrun as (built & w3 & Hloop & Hret).
    inversion Hret; subst.
    apply live_loop_first_message in Hloop; [|constructor].
    rewrite Forall_forall in Hloop. apply Hloop.
    now rewrite <- (sort_threads_perm built).
Qed.

Lemma first_message_is_earliest_witness :
  let r := fetch_threads 0 (offline_client tie_fixture) None None
             (sample_env busy_server) fresh_world in
  map (fun t => msg_id (th_first_message t)) (fetched r) = ["m2"]
  ∧ Forall (offline_first_message_ok tie_fixture (sample_env busy_server))
      (fetched r).
Proof.
  split; [reflexivity|].
  apply Forall_forall. intros t Ht.
  refine (first_message_is_earliest 0 (offline_client tie_fixture) None None
            (sample_env busy_server) fresh_world _ _ _ t Ht).
  vm_compute. reflexivity.
Defined.

Lemma insert_thread_filter c t l :
  filter (fun u => th_created_at u = c) (insert_thread t l)
  = filter (fun u => th_created_at u = c) (t :: l).
Proof.
  induction l as [|u rest IH]; simpl; [reflexivity|].
  destruct (Z.leb_spec (th_created_at t) (th_created_at u)) as [Hle|Hgt];
    [reflexivity|].
  rewrite (filter_cons _ u (insert_thread t rest)), IH.
  rewrite !filter_cons.
  destruct (decide (th_created_at u = c)) as [Hu|Hu];
    destruct (decide (th_created_at t = c)) as [Ht|Ht];
    try reflexivity.
  lia.
Qed.

(** X9.  Sorting the threads by creation time neither drops nor repeats
    a thread, puts them in ascending order, and keeps threads created at
    the same instant in the order in which they were fetched. *)
Theorem sort_threads_is_stable threads :
  sort_threads threads ≡ₚ threads
  ∧ Sorted created_le (sort_threads threads)
  ∧ forall c,
      filter (fun t => th_created_at t = c) (sort_threads threads)
      = filter (fun t => th_created_at t = c) threads.
Proof.
  split; [apply sort_threads_perm|].
  split; [apply StronglySorted_Sorted, sort_threads_sorted|].
  intros c. induction threads as [|t rest IH]; simpl; [reflexivity|].
  rewrite insert_thread_filter, !filter_cons, IH. reflexivity.
Qed.

(** ** Retries without rate limiting *)






(** ** The paths requested *)

Section Paths.

Context (P : string -> Prop).

Lemma sends_nothing {A : Type} (m : M A) :
  (forall env w, requests (m env w).2 = requests w) -> sends_only P m.
Proof.
  intros H env w. exists []. rewrite app_nil_r. split; [apply H|constructor].
Qed.

Lemma sends_ret {A : Type} (a : A) : sends_only P (ret a).
Proof. now apply sends_nothing. Qed.

Lemma sends_raise {A : Type} e : sends_only P (@raise A e).
Proof. now apply sends_nothing. Qed.

Lemma sends_lift_result {A : Type} (r : result A) : sends_only P (lift_result r).
Proof. now apply sends_nothing. Qed.

Lemma sends_get_world : sends_only P get_world.
Proof. now apply sends_nothing. Qed.

Lemma sends_now : sends_only P now.
Proof. now apply sends_nothing. Qed.

Lemma sends_sleep delay : sends_only P (sleep delay).
Proof.
  apply sends_nothing. intros env w. rewrite sleep_spec.
  now destruct (refused delay).
Qed.

Lemma sends_set_available_tags tags : sends_only P (modify (set_available_tags tags)).
Proof. now apply sends_nothing. Qed.

Lemma sends_urlopen path : P path -> sends_only P (urlopen path).
Proof. intros Hp env w. exists [path]. split; [reflexivity|]. now constructor. Qed.

Lemma sends_bind {A B : Type} (m : M A) (k : A -> M B) :
  sends_only P m -> (forall a, sends_only P (k a)) -> sends_only P (bind m k).
Proof.
  intros Hm Hk env w. unfold bind. destruct (Hm env w) as (new & Hreq & Hnew).
  destruct (m env w) as [[a|e] w1]; [|now exists new].
  destruct (Hk a env w1) as (new' & Hreq' & Hnew').
  exists (new ++ new'). cbn [snd] in Hreq. rewrite Hreq', Hreq, app_assoc.
  split; [reflexivity|]. now apply Forall_app.
Qed.

Lemma sends_mapM {A B : Type} (f : A -> M B) l :
  (forall a, sends_only P (f a)) -> sends_only P (mapM f l).
Proof.
  intros Hf. induction l as [|a l IH]; simpl; [apply sends_ret|].
  apply sends_bind; [apply Hf|]. intros b.
  apply sends_bind; [exact IH|]. intros bs. apply sends_ret.
Qed.

Lemma sends_execute_attempts max_retries path attempts :
  P path -> sends_only P (execute_attempts max_retries path attempts).
Proof.
  intros Hp. induction attempts as [|attempt later IH]; simpl;
    [apply sends_raise|].
  apply sends_bind; [now apply sends_urlopen|]. intros [body|code ra|].
  - apply sends_ret.
  - destruct (code =? 429).
    + destruct ra; try apply sends_raise;
        (apply sends_bind; [apply sends_sleep|intros _; exact IH]).
    + destruct (_ && _); [|apply sends_raise].
      apply sends_bind; [apply sends_sleep|intros _; exact IH].
  - destruct (_ <=? _); [apply sends_raise|].
    apply sends_bind; [apply sends_sleep|intros _; exact IH].
Qed.

Lemma sends_get self path : P path -> sends_only P (_get self path).
Proof.
  intros Hp. unfold _get. destruct path as [|c r]; [apply sends_raise|].
  destruct (Ascii.eqb_spec c "/") as [->|Hne].
  - now apply sends_execute_attempts.
  - destruct c as [[] [] [] [] [] [] [] []]; try apply sends_raise.
    now contradiction Hne.
Qed.

Lemma sends_parse_timestamp value : sends_only P (_parse_timestamp value).
Proof. destruct value; [apply sends_ret|apply sends_now]. Qed.

Lemma sends_message_from_payload p : sends_only P (_message_from_payload p).
Proof.
  unfold _message_from_payload.
  apply sends_bind; [apply sends_parse_timestamp|]. intros ts. apply sends_ret.
Qed.

Lemma sends_extract_created_at tp : sends_only P (_extract_created_at tp).
Proof.
  unfold _extract_created_at.
  destruct (tp_thread_metadata tp) as [[[c|] [a|]]|]; simpl;
    first [apply sends_ret | apply sends_parse_timestamp].
Qed.

Lemma sends_last_thread_id payload : sends_only P (last_thread_id payload).
Proof.
  unfold last_thread_id. destruct (last _); [|apply sends_ret].
  apply sends_bind; [|intros i; apply sends_ret].
  unfold require_id. destruct (tp_id _); [apply sends_ret|apply sends_raise].
Qed.

Lemma sends_expect_thread_list b : sends_only P (expect_thread_list b).
Proof. destruct b; first [apply sends_ret|apply sends_raise]. Qed.

End Paths.

Lemma under_channels_app rest : under_channels ("/channels/" +:+ rest).
Proof. now exists rest. Qed.

Lemma sends_fetch_thread_messages self thread_id :
  sends_only under_channels (fetch_thread_messages self thread_id).
Proof.
  unfold fetch_thread_messages. destruct (offline_payload self).
  - destruct (find _ _); [|apply sends_ret].
    apply sends_mapM, sends_message_from_payload.
  - apply sends_bind; [apply sends_get, under_channels_app|]. intros b.
    apply sends_bind.
    + destruct b; first [apply sends_ret|apply sends_raise].
    + intros ms. apply sends_mapM, sends_message_from_payload.
Qed.

Lemma sends_live_loop self since limit todo : forall threads,
  sends_only under_channels (live_loop self since limit todo threads).
Proof.
  induction todo as [|tp later IH]; intros threads; cbn [live_loop];
    [apply sends_ret|].
  apply sends_bind; [apply sends_extract_created_at|]. intros created_at.
  destruct (since_excludes since created_at); [apply IH|].
  apply sends_bind.
  { unfold require_id. destruct (tp_id tp); [apply sends_ret|apply sends_raise]. }
  intros tid.
  apply sends_bind; [apply sends_fetch_thread_messages|].
  intros [|m ms]; [apply IH|].
  destruct (limit_reached _ _); [apply sends_ret|apply IH].
Qed.

Lemma sends_archived_pages fuel self endpoint limit :
  forall payload before collected,
  sends_only under_channels
    (archived_pages fuel self endpoint limit payload before collected).
Proof.
  induction fuel as [|fuel IH]; intros payload before collected;
    cbn [archived_pages].
  - destruct (tl_has_more payload), before as [cursor|]; try apply sends_ret.
    destruct (PyStr.truthy cursor); [apply sends_raise|apply sends_ret].
  - destruct (tl_has_more payload), before as [cursor|]; try apply sends_ret.
    destruct (PyStr.truthy cursor); [|apply sends_ret].
    apply sends_bind; [apply sends_get, under_channels_app|]. intros b.
    apply sends_bind; [apply sends_expect_thread_list|]. intros p.
    destruct (limit_reached _ _); [apply sends_ret|].
    apply sends_bind; [apply sends_last_thread_id|]. intros before'.
    apply IH.
Qed.

Lemma sends_collect_endpoints fuel self limit endpoints : forall collected,
  sends_only under_channels (collect_endpoints fuel self limit endpoints collected).
Proof.
  induction endpoints as [|endpoint later IH]; intros collected;
    cbn [collect_endpoints]; [apply sends_ret|].
  apply sends_bind; [apply sends_get, under_channels_app|]. intros b.
  apply sends_bind; [apply sends_expect_thread_list|]. intros p.
  destruct (limit_reached _ _); [apply sends_ret|].
  destruct (_ && _); [|apply IH].
  apply sends_bind; [apply sends_last_thread_id|]. intros before.
  apply sends_bind; [apply sends_archived_pages|]. intros collected'.
  destruct (limit_reached _ _); [apply sends_ret|apply IH].
Qed.

(** X11.  Every request that [fetch_threads] and [fetch_thread_messages]
    send, retries included, is for a path that begins with [/channels/]. *)
Theorem discord_requests_stay_under_channels fuel self since limit thread_id env w :
  (exists new,
     requests (fetch_threads fuel self since limit env w).2 = requests w ++ new
     ∧ Forall under_channels new)
  ∧ (exists new,
       requests (fetch_thread_messages self thread_id env w).2 = requests w ++ new
       ∧ Forall under_channels new).
Proof.
  split; [|apply sends_fetch_thread_messages].
  revert env w.
  change (sends_only under_channels (fetch_threads fuel self since limit)).
  unfold fetch_threads. destruct (offline_payload self) as [payload|].
  - intros env w. exists [].
    destruct (quiet_bind (offline_loop payload since limit (off_threads payload) [])
                (fun threads => ret (sort_threads threads))
                (quiet_offline_loop _ _ _ _ _) (fun _ => quiet_ret _) env w)
      as (Hr & _).
    rewrite app_nil_r. split; [exact Hr|constructor].
  - apply sends_bind.
    { unfold _fetch_channel_metadata.
      apply sends_bind; [apply sends_get_world|]. intros w0.
      destruct (negb _); [apply sends_ret|].
      apply sends_bind; [apply sends_get, under_channels_app|]. intros b.
      apply sends_bind; [destruct b; first [apply sends_ret|apply sends_raise]|].
      intros c. apply sends_bind; [apply sends_lift_result|]. intros tags.
      apply sends_set_available_tags. }
    intros _. apply sends_bind; [apply sends_collect_endpoints|].
    intros collected. apply sends_bind; [apply sends_live_loop|].
    intros threads. apply sends_ret.
Qed.

(** ** The tag cache *)

Lemma tags_dict_lookup tags : forall acc m i,
  tags_dict tags acc = Ok m ->
  m !! i = match tag_name_of tags i with
           | Some name => Some name
           | None => acc !! i
           end.
Proof.
  induction tags as [|tag rest IH]; intros acc m i H; simpl in H |- *.
  - now inversion H.
  - destruct (tag_id tag) as [j|] eqn:Hj; [|discriminate].
    rewrite (IH _ _ i H).
    destruct (tag_name_of rest i); [reflexivity|].
    destruct (decide (Some j = Some i)) as [[= ->]|Hne].
    + apply lookup_insert_eq.
    + apply lookup_insert_ne. congruence.
Qed.

Lemma tags_dict_total tags : forall acc,
  Forall (fun tag => is_Some (tag_id tag)) tags ->
  exists m, tags_dict tags acc = Ok m.
Proof.
  induction tags as [|tag rest IH]; intros acc H; simpl; [eauto|].
  apply Forall_cons in H as [[j Hj] H]. rewrite Hj. now apply IH.
Qed.

Lemma tags_dict_nonempty tags : forall acc m,
  tags_dict tags acc = Ok m -> tags ≠ [] ∨ acc ≠ ∅ -> m ≠ ∅.
Proof.
  induction tags as [|tag rest IH]; intros acc m H Hne; simpl in H.
  - inversion H; subst. destruct Hne as [Hne|Hne]; [now contradiction Hne|exact Hne].
  - destruct (tag_id tag) as [j|]; [|discriminate].
    apply (IH _ _ H). right. apply insert_non_empty.
Qed.

(** X12.  With an empty tag cache, [_fetch_channel_metadata] asks once for
    the channel; from an answer whose tags all bear an identity it fills
    the cache so that [resolve_tag_name] gives for a listed identity the
    name of the last tag listed with it, the empty string if that tag has
    no name, and the identity itself for an unlisted one.  When at least
    one tag is listed, the next call sends no request. *)
Theorem channel_tags_are_cached self env w c :
  1 <= max_retries self ->
  available_tags w = ∅ ->
  server env (requests w ++ ["/channels/" +:+ channel_id self])
  = Responded (ChannelBody c) ->
  Forall (fun tag => is_Some (tag_id tag)) (ch_available_tags c) ->
  let rw := _fetch_channel_metadata self env w in
  rw.1 = Ok tt
  ∧ requests rw.2 = requests w ++ ["/channels/" +:+ channel_id self]
  ∧ (forall i, resolve_tag_name (available_tags rw.2) i
               = default i (tag_name_of (ch_available_tags c) i))
  ∧ (ch_available_tags c ≠ [] ->
     _fetch_channel_metadata self env rw.2 = (Ok tt, rw.2)).
Proof.
  intros Hmax Hempty Hanswer Hids rw.
  destruct (tags_dict_total (ch_available_tags c) ∅ Hids) as [m Hm].
  assert (Hrw : rw = (Ok tt, set_available_tags m
                               (requested ("/channels/" +:+ channel_id self) w))).
  { unfold rw, _fetch_channel_metadata.
    unfold bind at 1, get_world at 1. rewrite Hempty.
    rewrite bool_decide_eq_true_2 by reflexivity. cbn [negb].
    unfold bind at 1.
    change (_get self ("/channels/" +:+ channel_id self))
      with (_execute self ("/channels/" +:+ channel_id self)).
    change (_execute self ("/channels/" +:+ channel_id self) env w)
      with (execute_from self ("/channels/" +:+ channel_id self) 1 env w).
    rewrite execute_from_step by lia. rewrite Hanswer.
    unfold bind at 1, expect_channel at 1, ret at 1.
    unfold bind at 1, lift_result at 1. rewrite Hm. reflexivity. }
  rewrite Hrw. cbn [fst snd].
  split; [reflexivity|]. split; [reflexivity|]. split.
  - intros i. unfold resolve_tag_name.
    cbn [available_tags set_available_tags].
    rewrite (tags_dict_lookup _ _ _ i Hm), lookup_empty.
    now destruct (tag_name_of (ch_available_tags c) i).
  - intros Hsome. unfold _fetch_channel_metadata.
    unfold bind at 1, get_world at 1.
    cbn [available_tags set_available_tags].
    rewrite bool_decide_eq_false_2; [reflexivity|].
    apply (tags_dict_nonempty _ _ _ Hm). now left.
Qed.

Lemma channel_tags_are_cached_witness :
  let rw := _fetch_channel_metadata live_client (sample_env sample_server)
              fresh_world in
  resolve_tag_name (available_tags rw.2) "555" = "Crash Report"
  ∧ resolve_tag_name (available_tags rw.2) "556" = "556"
  ∧ _fetch_channel_metadata live_client (sample_env sample_server) rw.2
    = (Ok tt, rw.2).
Proof.
  destruct (channel_tags_are_cached live_client (sample_env sample_server)
              fresh_world sample_channel) as (_ & _ & Hname & Hagain).
  - simpl. lia.
  - reflexivity.
  - reflexivity.
  - repeat constructor. simpl. eauto.
  - split; [apply (Hname "555")|]. split; [apply (Hname "556")|].
    apply Hagain. discriminate.
Defined.

Lemma tags_dict_cases tags : forall acc,
  (Forall (fun tag => is_Some (tag_id tag)) tags
   ∧ exists m, tags_dict tags acc = Ok m)
  ∨ (¬ Forall (fun tag => is_Some (tag_id tag)) tags
     ∧ tags_dict tags acc = Raise (KeyError "id")).
Proof.
  induction tags as [|tag rest IH]; intros acc; simpl.
  - left. split; [constructor|eauto].
  - destruct (tag_id tag) as [j|] eqn:Hj.
    + destruct (IH (<[j := default "" (tag_name tag)]> acc)) as [[Hall Hm]|[Hnot Hr]].
      * left. split; [|exact Hm]. constructor; [rewrite Hj; eauto|exact Hall].
      * right. split; [|exact Hr]. intros H. apply Forall_cons in H as [_ H].
        now apply Hnot.
    + right. split; [|reflexivity]. intros H. apply Forall_cons in H as [[? H] _].
      rewrite Hj in H. discriminate.
Qed.

(** X13.  Building a [DiscordClient] on a fixture needs no token.  When
    every tag of the fixture's channel bears an identity the client is
    built, and [resolve_tag_name] gives for a listed identity the name of
    the last tag listed with it, the empty string if that tag has no
    name, and the identity itself for an unlisted one.  When some tag
    bears none, building raises [KeyError]. *)
Theorem offline_client_knows_fixture_tags
  token channel_id payload timeout max_retries env w :
  let rw := DiscordClient.init token channel_id (Some payload) timeout max_retries
              env w in
  (Forall (fun tag => is_Some (tag_id tag)) (ch_available_tags (off_channel payload)) ->
   (exists self, rw.1 = Ok self ∧ offline_payload self = Some payload)
   ∧ forall i, resolve_tag_name (available_tags rw.2) i
               = default i (tag_name_of (ch_available_tags (off_channel payload)) i))
  ∧ (¬ Forall (fun tag => is_Some (tag_id tag))
         (ch_available_tags (off_channel payload)) ->
     rw.1 = Raise (KeyError "id")).
Proof.
  intros rw.
  assert (Hrw : rw = match tags_dict (ch_available_tags (off_channel payload)) ∅ with
                     | Ok tags =>
                         (Ok {| token := token; DiscordClient.channel_id := channel_id;
                                timeout := timeout; max_retries := max_retries;
                                offline_payload := Some payload |},
                          set_available_tags tags (set_available_tags ∅ w))
                     | Raise e => (Raise e, set_available_tags ∅ w)
                     end).
  { unfold rw, DiscordClient.init. rewrite andb_false_r.
    unfold bind, modify, lift_result, ret.
    destruct (tags_dict _ _); reflexivity. }
  rewrite Hrw. clear Hrw rw.
  destruct (tags_dict_cases (ch_available_tags (off_channel payload)) ∅)
    as [[Hall [m Hm]]|[Hnot Hr]].
  - rewrite Hm. cbn [fst snd]. split; [|intros Hno; now contradiction Hno].
    intros _. split; [eauto|]. intros i. unfold resolve_tag_name.
    cbn [available_tags set_available_tags].
    rewrite (tags_dict_lookup _ _ _ i Hm), lookup_empty.
    now destruct (tag_name_of _ i).
  - rewrite Hr. cbn [fst snd]. split; [intros Hall; now contradiction Hnot|].
    reflexivity.
Qed.

Lemma offline_client_knows_fixture_tags_witness :
  let rw := DiscordClient.init "" "123456789012345678" (Some sample_fixture) 15 5
              (sample_env busy_server) fresh_world in
  (exists self, rw.1 = Ok self ∧ offline_payload self = Some sample_fixture)
  ∧ forall i, resolve_tag_name (available_tags rw.2) i
              = default i (tag_name_of (ch_available_tags sample_channel) i).
Proof.
  apply (proj1 (offline_client_knows_fixture_tags "" "123456789012345678"
                  sample_fixture 15 5 (sample_env busy_server) fresh_world)).
  repeat constructor. simpl. eauto.
Defined.

(** ** The threads collected *)

Lemma listed_app env new : forall old new',
  listed env old (new ++ new')
  = listed env old new ++ listed env (old ++ new) new'.
Proof.
  induction new as [|path rest IH]; intros old new'; simpl.
  - now rewrite app_nil_r.
  - rewrite IH, <- !app_assoc. reflexivity.
Qed.

Lemma lists_execute_attempts max_retries path attempts :
  lists (fun body => answer_threads (Responded body))
    (execute_attempts max_retries path attempts).
Proof.
  induction attempts as [|attempt later IH]; intros env w body w' H;
    cbn [execute_attempts] in H; [discriminate|].
  unfold bind at 1, urlopen at 1 in H.
  set (w1 := set_requests (requests w ++ [path]) w) in *.
  assert (Hnext : forall d,
            (sleep d ;;; execute_attempts max_retries path later) env w1 = (Ok body, w') ->
            answer_threads (server env (requests w ++ [path])) = [] ->
            exists new, requests w' = requests w ++ new
                        ∧ listed env (requests w) new = answer_threads (Responded body)).
  { intros d Hd Hnone. apply bind_Ok in Hd as (u & w2 & Hs & Hd).
    rewrite sleep_spec in Hs. destruct (refused d); [discriminate|].
    inversion Hs; subst w2. apply IH in Hd as (new & Hreq & Hlist).
    exists (path :: new).
    cbn [requests napped set_slept set_requests w1] in Hreq, Hlist.
    rewrite Hreq, <- app_assoc. split; [reflexivity|].
    simpl. now rewrite Hnone. }
  destruct (server env (requests w ++ [path])) as [b|code ra|] eqn:E.
  - inversion H; subst. exists [path]. split; [reflexivity|].
    simpl. now rewrite E, app_nil_r.
  - destruct (code =? 429).
    + destruct ra; first [discriminate | eapply Hnext; eauto].
    + destruct (_ && _); [eapply Hnext; eauto|discriminate].
  - destruct (_ <=? _); [discriminate|eapply Hnext; eauto].
Qed.

Lemma lists_get_thread_list self path :
  lists tl_threads (b <~ _get self path ;; expect_thread_list b).
Proof.
  intros env w p w' H. apply bind_Ok in H as (b & w1 & Hb & Hp).
  assert (Hexec : exists new, requests w1 = requests w ++ new
                    ∧ listed env (requests w) new = answer_threads (Responded b)).
  { unfold _get in Hb. destruct path as [|c r]; [discriminate|].
    destruct (Ascii.eqb_spec c "/") as [->|Hne].
    - exact (lists_execute_attempts _ _ _ _ _ _ _ Hb).
    - destruct c as [[] [] [] [] [] [] [] []]; try discriminate Hb.
      now contradiction Hne. }
  destruct Hexec as (new & Hreq & Hlist). exists new.
  destruct b; try discriminate Hp. inversion Hp; subst.
  split; [exact Hreq|exact Hlist].
Qed.

Lemma last_thread_id_quiet payload env w :
  requests (last_thread_id payload env w).2 = requests w.
Proof.
  unfold last_thread_id. destruct (last _) as [tp|]; [|reflexivity].
  unfold bind, require_id. destruct (tp_id tp); reflexivity.
Qed.

Lemma archived_pages_lists fuel self endpoint limit :
  forall payload before collected env w out w',
    archived_pages fuel self endpoint limit payload before collected env w
    = (Ok out, w') ->
    exists new, requests w' = requests w ++ new
                ∧ out = collected ++ listed env (requests w) new.
Proof.
  assert (Hstop : forall (collected out : list ThreadPayload) env w w',
            ret collected env w = (Ok out, w') ->
            exists new, requests w' = requests w ++ new
                        ∧ out = collected ++ listed env (requests w) new).
  { intros collected out env w w' H. inversion H; subst. exists [].
    now rewrite !app_nil_r. }
  induction fuel as [|fuel IH]; intros payload before collected env w out w' H;
    cbn [archived_pages] in H.
  - destruct (tl_has_more payload), before as [cursor|]; try (now apply Hstop).
    destruct (PyStr.truthy cursor); [discriminate|now apply Hstop].
  - destruct (tl_has_more payload), before as [cursor|]; try (now apply Hstop).
    destruct (PyStr.truthy cursor); [|now apply Hstop].
    apply bind_Ok in H as (b & w1 & Hb & H).
    apply bind_Ok in H as (p & w2 & Hp & H).
    assert (Hget : exists new, requests w2 = requests w ++ new
                     ∧ listed env (requests w) new = tl_threads p).
    { match type of Hb with
      | _get _ ?path _ _ = _ => apply (lists_get_thread_list self path env w p w2)
      end.
      unfold bind. rewrite Hb. exact Hp. }
    destruct Hget as (new & Hreq & Hlist).
    destruct (limit_reached _ _).
    + inversion H; subst. exists new. now rewrite Hlist.
    + apply bind_Ok in H as (before' & w3 & Hlast & H).
      pose proof (last_thread_id_quiet p env w2) as Hq. rewrite Hlast in Hq.
      cbn [snd] in Hq.
      apply IH in H as (new' & Hreq' & ->).
      exists (new ++ new'). rewrite Hreq', Hq, Hreq, app_assoc.
      split; [reflexivity|]. now rewrite listed_app, Hlist, <- app_assoc.
Qed.

Lemma collect_endpoints_lists fuel self limit endpoints :
  forall collected env w out w',
    collect_endpoints fuel self limit endpoints collected env w = (Ok out, w') ->
    exists new, requests w' = requests w ++ new
                ∧ out = collected ++ listed env (requests w) new.
Proof.
  induction endpoints as [|endpoint later IH]; intros collected env w out w' H;
    cbn [collect_endpoints] in H.
  - inversion H; subst. exists []. now rewrite !app_nil_r.
  - apply bind_Ok in H as (b & w1 & Hb & H).
    apply bind_Ok in H as (p & w2 & Hp & H).
    assert (Hget : exists new, requests w2 = requests w ++ new
                     ∧ listed env (requests w) new = tl_threads p).
    { match type of Hb with
      | _get _ ?path _ _ = _ => apply (lists_get_thread_list self path env w p w2)
      end.
      unfold bind. rewrite Hb. exact Hp. }
    destruct Hget as (new & Hreq & Hlist).
    assert (Hlater : forall collected' w3 new',
              requests w3 = requests w ++ new' ->
              collected' = collected ++ listed env (requests w) new' ->
              collect_endpoints fuel self limit later collected' env w3 = (Ok out, w') ->
              exists new0, requests w' = requests w ++ new0
                           ∧ out = collected ++ listed env (requests w) new0).
    { intros collected' w3 new' Hreq3 -> H3.
      apply IH in H3 as (new3 & Hreq' & ->).
      exists (new' ++ new3). rewrite Hreq', Hreq3, app_assoc.
      split; [reflexivity|]. now rewrite listed_app, <- app_assoc. }
    destruct (limit_reached _ _).
    + inversion H; subst. exists new. now rewrite Hlist.
    + destruct (_ && _).
      * apply bind_Ok in H as (before & w3 & Hlast & H).
        pose proof (last_thread_id_quiet p env w2) as Hq. rewrite Hlast in Hq.
        cbn [snd] in Hq.
        apply bind_Ok in H as (collected' & w4 & Hpages & H).
        apply archived_pages_lists in Hpages as (new' & Hreq' & ->).
        assert (Hreq4 : requests w4 = requests w ++ (new ++ new'))
          by now rewrite Hreq', Hq, Hreq, app_assoc.
        assert (Hcol : (collected ++ tl_threads p) ++ listed env (requests w3) new'
                       = collected ++ listed env (requests w) (new ++ new'))
          by now rewrite listed_app, Hlist, Hq, Hreq, app_assoc.
        destruct (limit_reached _ _).
        -- inversion H; subst. exists (new ++ new'). split; [exact Hreq4|exact Hcol].
        -- exact (Hlater _ _ _ Hreq4 Hcol H).
      * apply (Hlater (collected ++ tl_threads p) w2 new Hreq);
          [now rewrite Hlist|exact H].
Qed.

(** X14.  The thread payloads that [fetch_threads] collects from the
    active and the archived listing, pages included, are exactly the
    threads that the server listed in its answers, in the order of the
    answers: none is dropped, none is added, and one is repeated only if
    the server listed it twice. *)
Theorem collected_threads_are_those_listed fuel self limit env w collected w' :
  collect_endpoints fuel self limit ["threads/active"; "threads/archived/public"] []
    env w = (Ok collected, w') ->
  exists new,
    requests w' = requests w ++ new
    ∧ collected = listed env (requests w) new.
Proof.
  intros H. apply collect_endpoints_lists in H as (new & Hreq & ->).
  now exists new.
Qed.

Lemma collected_threads_are_those_listed_witness :
  let r := collect_endpoints 1 live_client None
             ["threads/active"; "threads/archived/public"] []
             (sample_env paging_server) fresh_world in
  map tp_id (fetched_payloads r) = [Some "t1"; Some "t2"; Some "t3"]
  ∧ exists new,
      requests r.2 = requests fresh_world ++ new
      ∧ fetched_payloads r = listed (sample_env paging_server) (requests fresh_world) new.
Proof.
  split; [reflexivity|].
  refine (collected_threads_are_those_listed 1 live_client None
            (sample_env paging_server) fresh_world _ _ _).
  vm_compute. reflexivity.
Defined.

(** ** Sanitized labels *)

Lemma rev_app_append a : forall b, String.rev_app a b = String.rev a +:+ b.
Proof.
  unfold String.rev. induction a as [|c a IH]; intros b; simpl.
  - now rewrite append_nil.
  - rewrite IH, (IH (String c "")), append_assoc, append_cons, append_nil.
    reflexivity.
Qed.

Lemma rev_cons c s : String.rev (String c s) = String.rev s +:+ String c "".
Proof. unfold String.rev at 1. simpl. apply rev_app_append. Qed.

Lemma rev_append a b : String.rev (a +:+ b) = String.rev b +:+ String.rev a.
Proof.
  induction a as [|c a IH].
  - now rewrite append_nil, append_empty_r.
  - now rewrite append_cons, !rev_cons, IH, append_assoc.
Qed.

Lemma rev_involutive s : String.rev (String.rev s) = s.
Proof.
  induction s as [|c s IH]; [reflexivity|].
  rewrite rev_cons, rev_append, IH. reflexivity.
Qed.

Lemma lstrip_starts_ok s : PyStr.lstrip s = s ↔ starts_ok s = true.
Proof.
  destruct s as [|c s]; simpl; [tauto|].
  destruct (PyStr.is_space c) eqn:E; simpl; [|tauto].
  split; [|intros [=]]. intros H. exfalso.
  assert (Hlen : String.length (PyStr.lstrip s) = S (String.length s))
    by now rewrite H.
  assert (Hle : forall u, (String.length (PyStr.lstrip u) <= String.length u)%nat).
  { intros u. induction u as [|d u IHu]; simpl; [lia|].
    destruct (PyStr.is_space d); simpl; lia. }
  specialize (Hle s). lia.
Qed.

Lemma starts_ok_lstrip s : starts_ok (PyStr.lstrip s) = true.
Proof.
  induction s as [|c s IH]; simpl; [reflexivity|].
  destruct (PyStr.is_space c) eqn:E; [exact IH|]. simpl. now rewrite E.
Qed.

Lemma lstrip_append a b :
  PyStr.lstrip (a +:+ b)
  = if has_nonspace a then PyStr.lstrip a +:+ b else PyStr.lstrip b.
Proof.
  induction a as [|c a IH]; [now rewrite append_nil|].
  rewrite append_cons. simpl.
  destruct (PyStr.is_space c); simpl; [exact IH|].
  now rewrite append_cons.
Qed.

Lemma starts_ok_append a b :
  PyStr.truthy a = true -> starts_ok (a +:+ b) = starts_ok a.
Proof. destruct a as [|c a]; [discriminate|]. now rewrite append_cons. Qed.

Lemma starts_ok_rstrip s : starts_ok s = true -> starts_ok (PyStr.rstrip s) = true.
Proof.
  destruct s as [|c s]; [reflexivity|]. simpl. intros Hc.
  unfold PyStr.rstrip. rewrite rev_cons, lstrip_append.
  destruct (has_nonspace (String.rev s)).
  - rewrite rev_append. change (String.rev (String c "")) with (String c "").
    rewrite append_cons. simpl. exact Hc.
  - simpl. apply negb_true_iff in Hc. rewrite Hc. simpl. now rewrite Hc.
Qed.

Lemma strip_trimmed s :
  starts_ok (PyStr.strip s) = true
  ∧ starts_ok (String.rev (PyStr.strip s)) = true.
Proof.
  unfold PyStr.strip. split.
  - apply starts_ok_rstrip, starts_ok_lstrip.
  - unfold PyStr.rstrip. rewrite rev_involutive. apply starts_ok_lstrip.
Qed.

Lemma strip_fixed s :
  starts_ok s = true -> starts_ok (String.rev s) = true -> PyStr.strip s = s.
Proof.
  intros Hs Hr. unfold PyStr.strip, PyStr.rstrip.
  rewrite (proj2 (lstrip_starts_ok s) Hs).
  rewrite (proj2 (lstrip_starts_ok _) Hr). apply rev_involutive.
Qed.

Lemma lower_append a b : PyStr.lower (a +:+ b) = PyStr.lower a +:+ PyStr.lower b.
Proof.
  induction a as [|c a IH]; [now rewrite !append_nil|].
  rewrite append_cons. simpl. now rewrite IH, append_cons.
Qed.

Lemma rev_lower s : String.rev (PyStr.lower s) = PyStr.lower (String.rev s).
Proof.
  induction s as [|c s IH]; [reflexivity|].
  simpl PyStr.lower. now rewrite !rev_cons, IH, lower_append.
Qed.

Lemma replace_append x y a b :
  PyStr.replace_char x y (a +:+ b)
  = PyStr.replace_char x y a +:+ PyStr.replace_char x y b.
Proof.
  induction a as [|c a IH]; [now rewrite !append_nil|].
  rewrite append_cons. simpl. now rewrite IH, append_cons.
Qed.

Lemma rev_replace x y s :
  String.rev (PyStr.replace_char x y s) = PyStr.replace_char x y (String.rev s).
Proof.
  induction s as [|c s IH]; [reflexivity|].
  simpl PyStr.replace_char. now rewrite !rev_cons, IH, replace_append.
Qed.

Lemma starts_ok_lower s : starts_ok (PyStr.lower s) = starts_ok s.
Proof. destruct s as [|c s]; simpl; [reflexivity|]. now rewrite is_space_lower_char. Qed.

Lemma starts_ok_replace s :
  starts_ok s = true -> starts_ok (PyStr.replace_char " " "-" s) = true.
Proof.
  destruct s as [|c s]; simpl; [reflexivity|].
  destruct (Ascii.eqb_spec c " ") as [->|Hne]; [reflexivity|auto].
Qed.

Lemma lower_char_idem c : PyStr.lower_char (PyStr.lower_char c) = PyStr.lower_char c.
Proof. destruct c as [[] [] [] [] [] [] [] []]; reflexivity. Qed.

Lemma lower_char_space c :
  Ascii.eqb (PyStr.lower_char c) " " = Ascii.eqb c " ".
Proof. destruct c as [[] [] [] [] [] [] [] []]; reflexivity. Qed.

Lemma lower_replace s :
  PyStr.lower (PyStr.replace_char " " "-" (PyStr.lower s))
  = PyStr.replace_char " " "-" (PyStr.lower s).
Proof.
  induction s as [|c s IH]; simpl; [reflexivity|]. rewrite IH. f_equal.
  rewrite lower_char_space.
  destruct (Ascii.eqb c " "); [reflexivity|apply lower_char_idem].
Qed.

Lemma replace_idem s :
  PyStr.replace_char " " "-" (PyStr.replace_char " " "-" s)
  = PyStr.replace_char " " "-" s.
Proof.
  induction s as [|c s IH]; simpl; [reflexivity|]. rewrite IH. f_equal.
  destruct (Ascii.eqb_spec c " ") as [->|Hne]; [reflexivity|].
  now apply Ascii.eqb_neq in Hne as ->.
Qed.

Lemma replace_no_space s :
  all_chars (fun c => negb (Ascii.eqb c " ")) (PyStr.replace_char " " "-" s) = true.
Proof.
  induction s as [|c s IH]; simpl; [reflexivity|]. rewrite IH, andb_true_r.
  destruct (Ascii.eqb_spec c " ") as [->|Hne]; [reflexivity|].
  apply negb_true_iff. now apply Ascii.eqb_neq.
Qed.

Lemma lower_char_not_upper c : PyStr.is_upper (PyStr.lower_char c) = false.
Proof. destruct c as [[] [] [] [] [] [] [] []]; reflexivity. Qed.

Lemma replace_lower_no_upper s :
  all_chars (fun c => negb (PyStr.is_upper c))
    (PyStr.replace_char " " "-" (PyStr.lower s)) = true.
Proof.
  induction s as [|c s IH]; simpl; [reflexivity|]. rewrite IH, andb_true_r.
  destruct (Ascii.eqb (PyStr.lower_char c) " "); [reflexivity|].
  now rewrite lower_char_not_upper.
Qed.

(** X15.  A sanitized label is never empty and holds neither a space nor
    an upper-case ASCII letter, and sanitizing it again changes
    nothing. *)
Theorem sanitize_label_is_normal value :
  PyStr.truthy (_sanitize_label value) = true
  ∧ all_chars (fun c => negb (Ascii.eqb c " ")) (_sanitize_label value) = true
  ∧ all_chars (fun c => negb (PyStr.is_upper c)) (_sanitize_label value) = true
  ∧ _sanitize_label (_sanitize_label value) = _sanitize_label value.
Proof.
  set (y := PyStr.replace_char " " "-" (PyStr.lower (PyStr.strip value))).
  assert (Hvalue : _sanitize_label value = PyStr.or_else y "untitled")
    by reflexivity.
  rewrite Hvalue. clear Hvalue.
  assert (Hno_space : all_chars (fun c => negb (Ascii.eqb c " ")) y = true)
    by apply replace_no_space.
  assert (Hno_upper : all_chars (fun c => negb (PyStr.is_upper c)) y = true)
    by apply replace_lower_no_upper.
  assert (Hfixed : PyStr.truthy y = true -> _sanitize_label y = y).
  { intros Hy. unfold _sanitize_label.
    destruct (strip_trimmed value) as [Hs Hr].
    rewrite (strip_fixed y).
    - unfold y. rewrite lower_replace, replace_idem. fold y.
      unfold PyStr.or_else. now rewrite Hy.
    - unfold y. now apply starts_ok_replace; rewrite starts_ok_lower.
    - unfold y. rewrite rev_replace, rev_lower.
      now apply starts_ok_replace; rewrite starts_ok_lower. }
  unfold PyStr.or_else. destruct (PyStr.truthy y) eqn:Hy.
  - split; [exact Hy|]. split; [exact Hno_space|]. split; [exact Hno_upper|].
    now apply Hfixed.
  - repeat split; reflexivity.
Qed.

(** ** Label lists and bodies *)

Lemma NoDup_dedup_first l : NoDup (dedup_first l).
Proof.
  induction l as [|x rest IH]; simpl; constructor.
  - rewrite list_elem_of_filter. tauto.
  - now apply NoDup_filter.
Qed.

Lemma dedup_first_prefix a b : dedup_first a `prefix_of` dedup_first (a ++ b).
Proof.
  induction b as [|x b IH] using rev_ind.
  - now rewrite app_nil_r.
  - rewrite app_assoc, dedup_first_snoc.
    destruct (decide (x ∈ a ++ b)); [exact IH|].
    now apply prefix_app_r.
Qed.

Lemma elem_of_concat (x : string) (ls : list (list string)) :
  x ∈ concat ls ↔ exists l, x ∈ l ∧ l ∈ ls.
Proof.
  induction ls as [|l ls IH]; simpl.
  - split; [intros H; inversion H|intros (l & _ & H); inversion H].
  - rewrite elem_of_app, IH. split.
    + intros [H|(l' & H & Hin)]; [exists l; split; [exact H|left]|].
      exists l'. split; [exact H|now right].
    + intros (l' & H & Hin). apply elem_of_cons in Hin as [->|Hin]; eauto.
Qed.

(** X16.  The label list of a thread repeats no label and begins with the
    default labels, in their order and without their repetitions; a
    label is in the list exactly when it is a default label or one of the
    labels of an applied tag. *)
Theorem build_labels_repeats_no_label config tags thread :
  NoDup (_build_labels config tags thread)
  ∧ dedup_first (default_labels config) `prefix_of` _build_labels config tags thread
  ∧ (forall label,
       label ∈ _build_labels config tags thread
       ↔ label ∈ default_labels config
         ∨ exists tag_id,
             tag_id ∈ th_applied_tag_ids thread
             ∧ label ∈ tag_labels config tags tag_id).
Proof.
  rewrite build_labels_dedup.
  split; [apply NoDup_dedup_first|]. split; [apply dedup_first_prefix|].
  intros label. rewrite elem_of_dedup_first, elem_of_app.
  apply or_iff_compat_l. rewrite elem_of_concat. split.
  - intros (labels & Hin & Hlabels).
    apply list_elem_of_fmap in Hlabels as (tag_id & -> & Htag). eauto.
  - intros (tag_id & Htag & Hin). exists (tag_labels config tags tag_id).
    split; [exact Hin|]. apply list_elem_of_fmap. eauto.
Qed.

Lemma body_context_keys isoformat thread key :
  key ∈ body_keys ↔ is_Some (body_context isoformat thread !! key).
Proof.
  unfold body_context, body_keys.
  rewrite !lookup_insert_is_Some, lookup_empty, !elem_of_cons, elem_of_nil.
  rewrite <- not_eq_None_Some.
  split.
  - intros H.
    destruct (decide ("thread_id" = key)); [tauto|].
    destruct (decide ("created_at" = key)); [tauto|].
    destruct (decide ("attachments" = key)); [tauto|].
    destruct (decide ("content" = key)); [tauto|].
    destruct (decide ("message_url" = key)); [tauto|].
    destruct (decide ("author" = key)); [tauto|].
    destruct (decide ("title" = key)); [tauto|].
    exfalso. intuition congruence.
  - intuition (subst; auto).
Qed.

(** X17.  The context of an issue body has exactly the seven keys
    [title], [author], [message_url], [content], [attachments],
    [created_at] and [thread_id], and neither the content nor the
    attachment block is empty.  So [_build_body] fails only with the
    [KeyError] of a placeholder that is none of the seven. *)
Theorem build_body_fails_only_on_unknown_placeholder config isoformat thread :
  (forall key,
     key ∈ body_keys ↔ is_Some (body_context isoformat thread !! key))
  ∧ (exists content attachments,
       body_context isoformat thread !! "content" = Some content
       ∧ body_context isoformat thread !! "attachments" = Some attachments
       ∧ PyStr.truthy content = true ∧ PyStr.truthy attachments = true)
  ∧ (forall e,
       _build_body config isoformat thread = Raise e ->
       exists key, e = KeyError key ∧ key ∉ body_keys).
Proof.
  split; [apply body_context_keys|]. split.
  - exists (PyStr.or_else (msg_content (th_first_message thread)) "(本文なし)"),
           (_format_attachments thread).
    split; [reflexivity|]. split; [reflexivity|]. split.
    + unfold PyStr.or_else.
      now destruct (PyStr.truthy (msg_content (th_first_message thread))) eqn:E.
    + unfold _format_attachments.
      destruct (msg_attachments (th_first_message thread)) as [|a [|b rest]];
        reflexivity.
  - intros e He. unfold _build_body in He.
    apply render_Raise_inv in He as (key & -> & Hnone & _).
    exists key. split; [reflexivity|].
    rewrite body_context_keys, Hnone. intros [? ?]. discriminate.
Qed.

Lemma build_body_fails_only_on_unknown_placeholder_witness :
  _build_body
    {| discord_channel_id := ""; github_repo := "a/b"; issue_title_prefix := "";
       issue_body_template := "{{title}} by {{user}}"; default_labels := [];
       tag_label_map := ∅; fallback_label_prefix := ""; assignees := [];
       state_file := ""; state_backup_enabled := false;
       max_threads_per_run := 1 |}
    pretty (tagged_thread "t" []) = Raise (KeyError "user")
  ∧ exists key, KeyError "user" = KeyError key ∧ key ∉ body_keys.
Proof.
  split; [vm_compute; reflexivity|].
  apply (proj2 (proj2 (build_body_fails_only_on_unknown_placeholder
           {| discord_channel_id := ""; github_repo := "a/b";
              issue_title_prefix := "";
              issue_body_template := "{{title}} by {{user}}";
              default_labels := []; tag_label_map := ∅;
              fallback_label_prefix := ""; assignees := [];
              state_file := ""; state_backup_enabled := false;
              max_threads_per_run := 1 |}
           pretty (tagged_thread "t" [])))).
  vm_compute. reflexivity.
Defined.
(** ** The GitHub client *)






(** ** Runs *)

Lemma gh_replay_dry_run client server : forall calls w,
  GitHubClient.dry_run client = true ->
  gh_replay client server w calls = (None, w).
Proof.
  induction calls as [|q rest IH]; intros w Hdry; [reflexivity|].
  simpl. unfold GitHubClient.create_issue. rewrite Hdry.
  destruct rest as [|q' rest']; [reflexivity|].
  apply IH. exact Hdry.
Qed.

Lemma loop_trace_refl self env w : loop_trace self env w w [] [].
Proof.
  constructor; simpl; rewrite ?app_nil_r; auto with lia.
  exists []. rewrite app_nil_r. auto.
Qed.

(** When the tracker refuses no submission, every thread submitted is
    recorded. *)
Lemma run_loop_accepted self env threads :
  (forall calls, github env calls = None) ->
  forall n w r w',
    run_loop self threads n env w = (r, w') ->
    exists recorded,
      recorded `prefix_of` pending (map fst (processed w)) threads
      ∧ loop_trace self env w w' recorded recorded
      ∧ (forall m, r = Ok m -> m = (n + length recorded)%nat).
Proof.
  intros Hgh. induction threads as [|thread later IH]; intros n w r w' Hrun.
  - inversion Hrun; subst. exists []. simpl.
    split; [reflexivity|]. split; [apply loop_trace_refl|].
    intros m Hm. inversion Hm. lia.
  - rewrite run_loop_cons in Hrun. simpl pending.
    rewrite dict_contains_keys in Hrun.
    case_bool_decide as Hin; [exact (IH _ _ _ _ Hrun)|].
    destruct (issue_request_of _ _ _ thread) as [q|e] eqn:Hq.
    2:{ inversion Hrun; subst. exists [].
        split; [apply prefix_nil|]. split; [apply loop_trace_refl|].
        intros m Hm. discriminate Hm. }
    cbv zeta in Hrun. rewrite Hgh in Hrun.
    apply IH in Hrun as (recorded & Hr & Ht & Hok).
    assert (Hfresh : StateStore.dict_contains (th_id thread) (processed w) = false).
    { rewrite dict_contains_keys. now apply bool_decide_eq_false. }
    assert (Hkeys : map fst (processed (marked env thread (set_issues (issues w ++ [q]) w)))
                    = map fst (processed w) ++ [th_id thread]).
    { simpl. rewrite dict_set_fresh by exact Hfresh. now rewrite map_app. }
    rewrite Hkeys in Hr.
    exists (thread :: recorded).
    split; [now apply prefix_cons|]. split.
    + destruct Ht as [(reqs & Hreqs & Hiss) Hp Htk Hs Htg Hlf Hbf Hnet].
      simpl in *. constructor; simpl.
      * exists (q :: reqs). split; [constructor; assumption|].
        rewrite Hiss, <- app_assoc. reflexivity.
      * rewrite Hp, dict_set_fresh by exact Hfresh.
        rewrite <- app_assoc. reflexivity.
      * lia.
      * rewrite Hs. destruct recorded as [|r0 recorded]; simpl.
        -- do 3 f_equal. lia.
        -- do 3 f_equal. lia.
      * exact Htg.
      * exact Hlf.
      * exact Hbf.
      * exact Hnet.
    + intros m Hm. rewrite (Hok m Hm). simpl. lia.
Qed.

(** X19.  With a [GitHubClient] in dry-run mode as the tracker, a run sends
    nothing to GitHub and no submission fails, yet every thread it
    submits is recorded as processed, and a run that returns writes the
    ledger file with these records. *)
Theorem dry_run_records_threads
  fuel self client server net since max_threads env w r w' :
  GitHubClient.dry_run client = true ->
  github env = gh_tracker client server net ->
  run fuel self since max_threads env w = (r, w') ->
  (gh_replay client server net (issues w')).2 = net
  ∧ exists recorded reqs,
      Forall2 (fun thread q =>
                 issue_request_of (_config self) (isoformat env)
                   (available_tags w') thread = Ok q) recorded reqs
      ∧ issues w' = issues w ++ reqs
      ∧ processed w' = processed w ++ map (ledger_entry (isoformat env)) recorded
      ∧ (forall n, r = Ok n ->
           n = length recorded
           ∧ ledger_file w'
             = Some {| doc_processed := ProcessedMap (processed w');
                       doc_last_synced_at := last_synced_at w' |}).
Proof.
  intros Hdry Hgh Hrun.
  split; [now rewrite gh_replay_dry_run|].
  assert (Hnone : forall calls, github env calls = None).
  { intros calls. rewrite Hgh. unfold gh_tracker.
    now rewrite gh_replay_dry_run. }
  rewrite run_eq in Hrun.
  pose proof (keeps_fetch_threads fuel (_discord self) since
                (Some (effective_limit self max_threads)) env w) as Hkeep.
  destruct (DiscordClient.fetch_threads _ _ _ _ _ _) as [[threads|e] wa] eqn:Hf.
  2:{ inversion Hrun; subst. destruct Hkeep as (Hi & Hp & _). simpl in Hi, Hp.
      exists [], []. rewrite !app_nil_r.
      split; [constructor|]. split; [exact Hi|]. split; [exact Hp|].
      intros; discriminate. }
  destruct Hkeep as (Hi & Hp & _). simpl in Hi, Hp.
  destruct (run_loop self threads 0 env wa) as [r0 wb] eqn:Hloop.
  apply (run_loop_accepted self env threads Hnone) in Hloop
    as (recorded & _ & Ht & Hok).
  destruct Ht as [(reqs & Hreqs & Hiss) Hpr _ _ Htags _ _ _].
  rewrite Hp in Hpr. rewrite Hi in Hiss.
  exists recorded, reqs.
  destruct r0 as [n|e].
  - inversion Hrun; subst.
    assert (Hfile : ledger_file (persist self n env wb).2
                    = Some {| doc_processed :=
                                ProcessedMap (processed (persist self n env wb).2);
                              doc_last_synced_at :=
                                last_synced_at (persist self n env wb).2 |}).
    { rewrite persist_eq. cbn [snd].
      destruct (_ || _); apply saved_ledger_file. }
    split; [|split; [|split]]; [| | |intros n' Hn'; inversion Hn'; subst;
                                     split; [apply (Hok _ eq_refl)|exact Hfile]];
      destruct (persist_frame self n env wb) as (Hi' & Hp' & Ht');
      cbv zeta in Hi', Hp', Ht'; rewrite ?Hi', ?Hp', ?Ht', ?Htags; assumption.
  - inversion Hrun; subst. rewrite Htags.
    split; [exact Hreqs|]. split; [exact Hiss|]. split; [exact Hpr|].
    intros; discriminate.
Qed.

Lemma dry_run_records_threads_witness :
  let r := run 0 (sample_syncer (offline_client sample_fixture)) None (Some 5)
             dry_run_env fresh_world in
  r.1 = Ok 2%nat
  ∧ (gh_replay (gh_sample_client true) gh_flaky_server gh_fresh_net (issues r.2)).2
    = gh_fresh_net
  ∧ exists recorded reqs,
      Forall2 (fun thread q =>
                 issue_request_of sample_config pretty (available_tags r.2) thread
                 = Ok q) recorded reqs
      ∧ issues r.2 = [] ++ reqs
      ∧ processed r.2 = [] ++ map (ledger_entry pretty) recorded
      ∧ (forall n, r.1 = Ok n ->
           n = length recorded
           ∧ ledger_file r.2
             = Some {| doc_processed := ProcessedMap (processed r.2);
                       doc_last_synced_at := last_synced_at r.2 |}).
Proof.
  split; [vm_compute; reflexivity|].
  exact (dry_run_records_threads 0 (sample_syncer (offline_client sample_fixture))
           (gh_sample_client true) gh_flaky_server gh_fresh_net None (Some 5)
           dry_run_env fresh_world _ _ eq_refl eq_refl
           (surjective_pairing _)).
Defined.

Lemma pending_fresh threads : forall keys,
  NoDup (map th_id (pending keys threads))
  ∧ (forall t, t ∈ pending keys threads -> th_id t ∉ keys).
Proof.
  induction threads as [|thread later IH]; intros keys; simpl.
  - split; [constructor|]. intros t Ht. inversion Ht.
  - case_bool_decide as Hin; [apply IH|].
    destruct (IH (keys ++ [th_id thread])) as [Hnd Hout].
    split.
    + simpl. constructor; [|exact Hnd].
      intros Hdup. apply list_elem_of_fmap in Hdup as (t & Heq & Ht).
      apply (Hout t Ht). rewrite Heq. apply elem_of_app. right. left.
    + intros t Ht. apply elem_of_cons in Ht as [->|Ht]; [exact Hin|].
      intros Hk. apply (Hout t Ht). apply elem_of_app. now left.
Qed.

Lemma NoDup_prefix {A : Type} (l1 l2 : list A) :
  l1 `prefix_of` l2 -> NoDup l2 -> NoDup l1.
Proof. intros [k ->] H. now apply NoDup_app in H as [? _]. Qed.

(** X20.  Within one run no thread identity is submitted twice, and no
    identity that the ledger held when the run began is submitted at
    all, whatever the fetch returned and whether or not the run fails. *)
Theorem run_submits_each_thread_once
  fuel self since max_threads env w r w' :
  run fuel self since max_threads env w = (r, w') ->
  exists called reqs,
    issues w' = issues w ++ reqs
    ∧ Forall2 (fun thread q =>
                 issue_request_of (_config self) (isoformat env)
                   (available_tags w') thread = Ok q) called reqs
    ∧ NoDup (map th_id called)
    ∧ (forall t, t ∈ called -> th_id t ∉ map fst (processed w)).
Proof.
  intros Hrun.
  destruct (run_trace _ _ _ _ _ _ _ _ Hrun)
    as (threads & called & recorded & reqs & _ & Hc & _ & Hreqs & Hiss & _).
  exists called, reqs.
  destruct (pending_fresh threads (map fst (processed w))) as [Hnd Hout].
  split; [exact Hiss|]. split; [exact Hreqs|]. split.
  - apply (NoDup_prefix _ (map th_id (pending (map fst (processed w)) threads)));
      [|exact Hnd].
    destruct Hc as [k ->]. rewrite map_app. now exists (map th_id k).
  - intros t Ht. apply Hout. destruct Hc as [k ->].
    apply elem_of_app. now left.
Qed.

Lemma run_submits_each_thread_once_witness :
  length (issues sample_run.2) = 2%nat
  ∧ exists called reqs,
      issues sample_run.2 = issues fresh_world ++ reqs
      ∧ Forall2 (fun thread q =>
                   issue_request_of sample_config pretty
                     (available_tags sample_run.2) thread = Ok q) called reqs
      ∧ NoDup (map th_id called)
      ∧ (forall t, t ∈ called -> th_id t ∉ map fst (processed fresh_world)).
Proof.
  split; [reflexivity|].
  exact (run_submits_each_thread_once 0
           (sample_syncer (offline_client sample_fixture)) None (Some 5)
           (sample_env busy_server) fresh_world _ _
           (surjective_pairing sample_run)).
Defined.

(** X21.  A run submits at most [limit] issues when the limit in force,
    [max_threads or max_threads_per_run], is positive; the count that a
    run returns is the number of issues it submitted. *)
Theorem run_submits_at_most_limit
  fuel self since max_threads env w r w' :
  0 < effective_limit self max_threads ->
  run fuel self since max_threads env w = (r, w') ->
  exists reqs,
    issues w' = issues w ++ reqs
    ∧ Z.of_nat (length reqs) <= effective_limit self max_threads
    ∧ (forall n, r = Ok n -> n = length reqs).
Proof.
  intros Hlimit Hrun. rewrite run_eq in Hrun.
  pose proof (keeps_fetch_threads fuel (_discord self) since
                (Some (effective_limit self max_threads)) env w) as Hkeep.
  destruct (DiscordClient.fetch_threads _ _ _ _ _ _) as [[threads|e] wa] eqn:Hf.
  2:{ inversion Hrun; subst. destruct Hkeep as (Hi & _). simpl in Hi.
      exists []. rewrite app_nil_r. split; [exact Hi|]. split; [simpl; lia|].
      intros; discriminate. }
  destruct Hkeep as (Hi & Hp & _). simpl in Hi, Hp.
  pose proof (fetch_threads_limit _ _ _ _ _ _ _ _ Hf _ eq_refl Hlimit) as Hlen.
  destruct (run_loop self threads 0 env wa) as [r0 wb] eqn:Hloop.
  apply run_loop_trace in Hloop as (called & recorded & Hc & Hr & Ht & Hok).
  destruct Ht as [(reqs & Hreqs & Hiss) _ _ _ _ _ _ _].
  rewrite Hi in Hiss.
  assert (Hcount : (length reqs <= length threads)%nat).
  { rewrite <- (Forall2_length _ _ _ Hreqs).
    etransitivity; [apply prefix_length, Hc|].
    apply sublist_length, pending_sublist. }
  exists reqs.
  destruct r0 as [n|e]; inversion Hrun; subst.
  - destruct (persist_frame self n env wb) as (Hi' & _).
    cbv zeta in Hi'. rewrite Hi'.
    split; [exact Hiss|]. split; [lia|].
    intros n' Hn'. inversion Hn'; subst.
    destruct (Hok _ eq_refl) as (_ & <- & ->).
    simpl. now rewrite (Forall2_length _ _ _ Hreqs).
  - split; [exact Hiss|]. split; [lia|]. intros; discriminate.
Qed.

Lemma run_submits_at_most_limit_witness :
  effective_limit (sample_syncer (offline_client sample_fixture)) (Some 1) = 1
  ∧ exists reqs,
      issues limited_run.2 = issues fresh_world ++ reqs
      ∧ Z.of_nat (length reqs) <= 1
      ∧ (forall n, limited_run.1 = Ok n -> n = length reqs).
Proof.
  split; [reflexivity|].
  exact (run_submits_at_most_limit 0
           (sample_syncer (offline_client sample_fixture)) None (Some 1)
           (sample_env busy_server) fresh_world _ _ eq_refl
           (surjective_pairing limited_run)).
Defined.

(** X22.  A run that fails while it fetches the threads, or inside its
    loop over them, raises that exception before [save] is reached: it has
    not written the ledger file or its backup, so a ledger loaded
    afterwards is the one that would have been loaded before the run, and
    does not hold the threads the run submitted. *)
Theorem failed_run_keeps_ledger_file fuel self since max_threads env w :
  (forall e wa,
     DiscordClient.fetch_threads fuel (_discord self) since
       (Some (effective_limit self max_threads)) env w = (Raise e, wa) ->
     run fuel self since max_threads env w = (Raise e, wa)
     ∧ issues wa = issues w
     ∧ processed wa = processed w
     ∧ ledger_file wa = ledger_file w
     ∧ backup_file wa = backup_file w)
  ∧ (forall threads wa e wb,
       DiscordClient.fetch_threads fuel (_discord self) since
         (Some (effective_limit self max_threads)) env w = (Ok threads, wa) ->
       run_loop self threads 0 env wa = (Raise e, wb) ->
       run fuel self since max_threads env w = (Raise e, wb)
       ∧ ledger_file wb = ledger_file w
       ∧ backup_file wb = backup_file w
       ∧ processed (StateStore.load (_state self) env wb).2
         = processed (StateStore.load (_state self) env w).2
       ∧ last_synced_at (StateStore.load (_state self) env wb).2
         = last_synced_at (StateStore.load (_state self) env w).2).
Proof.
  pose proof (keeps_fetch_threads fuel (_discord self) since
                (Some (effective_limit self max_threads)) env w) as Hkeep.
  split.
  - intros e wa Hf. rewrite run_eq, Hf. rewrite Hf in Hkeep.
    destruct Hkeep as (Hi & Hp & _ & Hl & Hb & _). auto.
  - intros threads wa e wb Hf Hloop. rewrite run_eq, Hf, Hloop.
    rewrite Hf in Hkeep. destruct Hkeep as (_ & _ & _ & Hl & Hb & _).
    cbn [snd] in Hl, Hb.
    apply run_loop_trace in Hloop as (called & recorded & _ & _ & Ht & _).
    destruct Ht as [_ _ _ _ _ Hlf Hbf _].
    assert (Hl' : ledger_file wb = ledger_file w) by congruence.
    split; [reflexivity|]. split; [exact Hl'|]. split; [congruence|].
    rewrite !load_eq. cbn [snd]. unfold loaded. rewrite Hl'.
    destruct (ledger_file w); auto.
Qed.

(** The tracker refuses the second of two submissions: the run raises
    with one thread marked in memory and nothing written. *)
Lemma failed_run_keeps_ledger_file_witness :
  refused_run.1 = Raise (HTTPError 422)
  ∧ length (issues refused_run.2) = 2%nat
  ∧ map fst (processed refused_run.2) = ["t1"]
  ∧ run 0 (sample_syncer (offline_client sample_fixture)) None (Some 5)
      refusing_env fresh_world = (Raise (HTTPError 422), refused_run.2)
  ∧ ledger_file refused_run.2 = ledger_file fresh_world
  ∧ backup_file refused_run.2 = backup_file fresh_world
  ∧ processed (StateStore.load {| StateStore.path := "state.json";
                                  StateStore.backup_enabled := false |}
                 refusing_env refused_run.2).2
    = processed (StateStore.load {| StateStore.path := "state.json";
                                    StateStore.backup_enabled := false |}
                   refusing_env fresh_world).2
  ∧ last_synced_at (StateStore.load {| StateStore.path := "state.json";
                                       StateStore.backup_enabled := false |}
                      refusing_env refused_run.2).2
    = last_synced_at (StateStore.load {| StateStore.path := "state.json";
                                         StateStore.backup_enabled := false |}
                        refusing_env fresh_world).2.
Proof.
  split; [vm_compute; reflexivity|]. split; [vm_compute; reflexivity|].
  split; [vm_compute; reflexivity|].
  refine (proj2 (failed_run_keeps_ledger_file 0
                   (sample_syncer (offline_client sample_fixture)) None (Some 5)
                   refusing_env fresh_world)
            (fetched (DiscordClient.fetch_threads 0 (offline_client sample_fixture)
                        None (Some 5) refusing_env fresh_world))
            fresh_world (HTTPError 422) refused_run.2 _ _);
    vm_compute; reflexivity.
Defined.

(** X23.  A run that returns has saved the ledger once: with backups
    enabled the backup file holds the ledger file as it was when the run
    began, if there was one; otherwise the backup file is as it was. *)
Theorem run_backs_up_previous_ledger
  fuel self since max_threads env w n w' :
  run fuel self since max_threads env w = (Ok n, w') ->
  (forall old,
     StateStore.backup_enabled (_state self) = true ->
     ledger_file w = Some old -> backup_file w' = Some old)
  ∧ (StateStore.backup_enabled (_state self) = false ∨ ledger_file w = None ->
     backup_file w' = backup_file w).
Proof.
  intros Hrun.
  apply run_Ok_inv in Hrun as (threads & wa & wb & Hf & Hloop & ->).
  pose proof (keeps_fetch_threads fuel (_discord self) since
                (Some (effective_limit self max_threads)) env w) as Hk.
  rewrite Hf in Hk. destruct Hk as (_ & _ & _ & Hl & Hb & _).
  cbn [snd] in Hl, Hb.
  apply run_loop_trace in Hloop as (called & recorded & _ & _ & Ht & _).
  destruct Ht as [_ _ _ _ _ Hlf Hbf _].
  rewrite persist_eq. cbn [snd].
  assert (Hsaved : forall w0,
            ledger_file w0 = ledger_file wb -> backup_file w0 = backup_file wb ->
            backup_file (saved (_state self) w0)
            = match StateStore.backup_enabled (_state self), ledger_file w with
              | true, Some old => Some old
              | _, _ => backup_file w
              end).
  { intros w0 Hl0 Hb0. unfold saved. rewrite Hl0, Hlf, Hl.
    destruct (StateStore.backup_enabled (_state self)), (ledger_file w);
      cbn [backup_file set_ledger_file set_backup_file]; congruence. }
  assert (Hback : backup_file
                    (if negb (n =? 0)%nat
                        || negb (bool_decide (is_Some (last_synced_at wb)))
                     then saved (_state self) wb
                     else saved (_state self) (heartbeat env wb))
                  = match StateStore.backup_enabled (_state self), ledger_file w with
                    | true, Some old => Some old
                    | _, _ => backup_file w
                    end).
  { destruct (_ || _); apply Hsaved; reflexivity. }
  rewrite Hback. split.
  - intros old -> ->. reflexivity.
  - intros [-> | ->]; [reflexivity|].
    now destruct (StateStore.backup_enabled (_state self)).
Qed.

Lemma run_backs_up_previous_ledger_witness :
  backup_run.1 = Ok 1%nat
  ∧ backup_file backup_run.2
    = Some {| doc_processed := ProcessedMap [("t0", "1")];
              doc_last_synced_at := Some "1" |}
  ∧ backup_file backup_run.2 = ledger_file busy_ledger_world.
Proof.
  split; [vm_compute; reflexivity|].
  assert (H : backup_file backup_run.2
              = Some {| doc_processed := ProcessedMap [("t0", "1")];
                        doc_last_synced_at := Some "1" |}).
  { refine (proj1 (run_backs_up_previous_ledger 0 backup_syncer None None
                     (sample_env busy_server) busy_ledger_world 1 backup_run.2 _)
              _ eq_refl eq_refl).
    vm_compute. reflexivity. }
  split; [exact H|]. rewrite H. reflexivity.
Defined.

(** ** The configuration and the command *)

Lemma config_load_missing fs path data :
  BridgeConfigFile.load fs path data
  = match config_missing data with
    | [] => BridgeConfigFile.load fs path data
    | missing =>
        Raise (ValueError ("設定ファイルに不足項目があります: "
                           +:+ IssueSyncer.join ", " missing))
    end.
Proof.
  unfold BridgeConfigFile.load, config_missing, BridgeConfigFile.required.
  destruct (cd_discord_channel_id data), (cd_github_repo data),
    (cd_issue_title_prefix data), (cd_issue_body_template data); reflexivity.
Qed.

Lemma config_load_cases fs path data :
  (config_missing data = [] ->
   exists config,
     BridgeConfigFile.load fs path data = Ok config
     ∧ cd_discord_channel_id data = Some (discord_channel_id config)
     ∧ cd_github_repo data = Some (github_repo config)
     ∧ cd_issue_title_prefix data = Some (issue_title_prefix config)
     ∧ cd_issue_body_template data = Some (issue_body_template config))
  ∧ (config_missing data ≠ [] ->
     BridgeConfigFile.load fs path data
     = Raise (ValueError ("設定ファイルに不足項目があります: "
                          +:+ IssueSyncer.join ", " (config_missing data)))).
Proof.
  split.
  - unfold config_missing, BridgeConfigFile.load, BridgeConfigFile.required.
    destruct (cd_discord_channel_id data), (cd_github_repo data),
      (cd_issue_title_prefix data), (cd_issue_body_template data);
      try discriminate.
    intros _. eexists. split; [reflexivity|]. simpl. auto.
  - intros Hmissing. rewrite config_load_missing.
    destruct (config_missing data); [now contradiction Hmissing|reflexivity].
Qed.

(** X24.  [BridgeConfig.load] returns a configuration exactly when the
    file has the four keys [discord_channel_id], [github_repo],
    [issue_title_prefix] and [issue_body_template], and then these four
    values are the file's.  Otherwise it raises the [ValueError] that
    names the missing ones, in this order, separated by commas. *)
Theorem config_load_requires_four_keys fs path data :
  (config_missing data = [] ->
   exists config,
     BridgeConfigFile.load fs path data = Ok config
     ∧ cd_discord_channel_id data = Some (discord_channel_id config)
     ∧ cd_github_repo data = Some (github_repo config)
     ∧ cd_issue_title_prefix data = Some (issue_title_prefix config)
     ∧ cd_issue_body_template data = Some (issue_body_template config))
  ∧ (config_missing data ≠ [] ->
     BridgeConfigFile.load fs path data
     = Raise (ValueError ("設定ファイルに不足項目があります: "
                          +:+ IssueSyncer.join ", " (config_missing data)))).
Proof. apply config_load_cases. Qed.

Lemma config_load_requires_four_keys_witness :
  (exists config,
     BridgeConfigFile.load flat_fs "bridge.json" minimal_doc = Ok config
     ∧ cd_discord_channel_id minimal_doc = Some (discord_channel_id config)
     ∧ cd_github_repo minimal_doc = Some (github_repo config)
     ∧ cd_issue_title_prefix minimal_doc = Some (issue_title_prefix config)
     ∧ cd_issue_body_template minimal_doc = Some (issue_body_template config))
  ∧ BridgeConfigFile.load flat_fs "bridge.json" partial_doc
    = Raise (ValueError ("設定ファイルに不足項目があります: "
                         +:+ "github_repo, issue_body_template")).
Proof.
  split.
  - apply (proj1 (config_load_requires_four_keys flat_fs "bridge.json" minimal_doc)).
    reflexivity.
  - apply (proj2 (config_load_requires_four_keys flat_fs "bridge.json" partial_doc)).
    discriminate.
Defined.

Lemma discord_init_quiet token channel_id offline_sample timeout max_retries env w :
  let rw := DiscordClient.init token channel_id offline_sample timeout max_retries
              env w in
  requests rw.2 = requests w ∧ slept rw.2 = slept w ∧ issues rw.2 = issues w
  ∧ processed rw.2 = processed w ∧ last_synced_at rw.2 = last_synced_at w
  ∧ ledger_file rw.2 = ledger_file w ∧ backup_file rw.2 = backup_file w.
Proof.
  unfold DiscordClient.init.
  destruct (negb (PyStr.truthy token) && _); [cbn; auto 10|].
  destruct offline_sample as [payload|]; [|cbn; auto 10].
  cbn. destruct (tags_dict _ _); cbn; auto 10.
Qed.

(** X25.  When the setup is not in order, [main] raises before it fetches
    or submits anything: no request is sent to Discord, no issue is
    submitted, and the ledger file and its backup are left as they were.
    The setup is in order when the configuration has its four required
    keys and names a repository with a slash in it, a Discord token or a
    fixture is given, and a GitHub token is given or the run is dry. *)
Theorem main_stops_on_bad_setup fuel fs args data environ env w :
  setup_ok args data environ = false ->
  let rw := DiscordIssueBridge.main fuel fs args data environ env w in
  (exists e, rw.1 = Raise e)
  ∧ requests rw.2 = requests w ∧ slept rw.2 = slept w
  ∧ issues rw.2 = issues w
  ∧ ledger_file rw.2 = ledger_file w ∧ backup_file rw.2 = backup_file w.
Proof.
  intros Hbad rw.
  enough (exists e w',
            DiscordIssueBridge.main fuel fs args data environ env w = (Raise e, w')
            ∧ requests w' = requests w ∧ slept w' = slept w
            ∧ issues w' = issues w
            ∧ ledger_file w' = ledger_file w ∧ backup_file w' = backup_file w)
    as (e & w' & Hmain & Hrest).
  { unfold rw. rewrite Hmain. split; [now exists e|exact Hrest]. }
  clear rw. unfold DiscordIssueBridge.main.
  unfold bind at 1, lift_result at 1.
  destruct (config_load_cases fs (resolve fs (DiscordIssueBridge.config args)) data)
    as [Hok Hmissing].
  destruct (decide (config_missing data = [])) as [Hnone|Hsome].
  2:{ rewrite (Hmissing Hsome). eauto 10. }
  destruct (Hok Hnone) as (config & -> & _ & Hrepo & _). clear Hok Hmissing.
  unfold setup_ok in Hbad. rewrite bool_decide_eq_true_2 in Hbad by exact Hnone.
  rewrite Hrepo in Hbad.
  change (default "" (Some (github_repo config))) with (github_repo config) in Hbad.
  cbn [andb] in Hbad.
  unfold bind at 1. rewrite load_eq.
  set (w1 := loaded w).
  assert (Hw1 : requests w1 = requests w ∧ slept w1 = slept w
                ∧ issues w1 = issues w
                ∧ ledger_file w1 = ledger_file w ∧ backup_file w1 = backup_file w).
  { unfold w1, loaded. destruct (ledger_file w) eqn:E; cbn; rewrite ?E; auto 10. }
  destruct Hw1 as (Hr1 & Hs1 & Hi1 & Hl1 & Hb1).
  unfold bind at 1.
  pose proof (discord_init_quiet
                (DiscordIssueBridge.or_empty (DiscordIssueBridge.DISCORD_BOT_TOKEN environ))
                (discord_channel_id config) (DiscordIssueBridge.offline_sample args)
                15 5 env w1) as Hinit.
  cbv zeta in Hinit.
  destruct (DiscordClient.init _ _ _ _ _ env w1) as [[discord|e] w2] eqn:Hdiscord.
  2:{ cbn [snd] in Hinit. destruct Hinit as (Hr2 & Hs2 & Hi2 & _ & _ & Hl2 & Hb2).
      exists e, w2. repeat split; congruence. }
  cbn [snd] in Hinit. destruct Hinit as (Hr2 & Hs2 & Hi2 & _ & _ & Hl2 & Hb2).
  unfold bind at 1, lift_result at 1.
  destruct (GitHubClient.init _ _ _ _ _) as [github|e] eqn:Hgithub.
  2:{ exists e, w2. repeat split; congruence. }
  exfalso.
  (* both clients were built, so the setup was in order *)
  unfold DiscordClient.init in Hdiscord.
  unfold GitHubClient.init in Hgithub.
  unfold DiscordIssueBridge.or_empty in *.
  destruct (PyStr.truthy (default "" (DiscordIssueBridge.DISCORD_BOT_TOKEN environ)));
    destruct (DiscordIssueBridge.offline_sample args);
    destruct (PyStr.truthy (default "" (DiscordIssueBridge.GITHUB_TOKEN environ)));
    destruct (DiscordIssueBridge.dry_run args);
    destruct (GitHubClient.contains_char "/" (github_repo config));
    cbn in Hbad, Hdiscord, Hgithub;
    first [discriminate Hbad | discriminate Hgithub | discriminate Hdiscord].
Qed.

Lemma main_stops_on_bad_setup_witness :
  let rw := DiscordIssueBridge.main 0 flat_fs sample_args minimal_doc no_tokens
              (sample_env busy_server) legacy_world in
  rw.1 = Raise (ValueError "GITHUB_TOKEN が設定されていません")
  ∧ map fst (processed rw.2) = ["t1"; "t2"]
  ∧ (exists e, rw.1 = Raise e)
  ∧ requests rw.2 = requests legacy_world ∧ slept rw.2 = slept legacy_world
  ∧ issues rw.2 = issues legacy_world
  ∧ ledger_file rw.2 = ledger_file legacy_world
  ∧ backup_file rw.2 = backup_file legacy_world.
Proof.
  split; [vm_compute; reflexivity|]. split; [vm_compute; reflexivity|].
  apply (main_stops_on_bad_setup 0 flat_fs sample_args minimal_doc no_tokens
           (sample_env busy_server) legacy_world).
  reflexivity.
Defined.
